(** * LiveConvo: the real-time voice conversation feature

    A shallow embedding of [features/LiveConvo.tsx]: the audio codec helpers
    ([encode], [decode], [decodeAudioData], the quantisation loop of
    [onaudioprocess]), the message handler that schedules playback and
    aggregates transcripts, and the start / stop lifecycle of the component;
    and of the chat assistant that follows it in the same file ([ChatBot]:
    the link of the resume download and the sending of messages).

    Conventions.
    - A [Uint8Array] is a [list Z] of values in [0, 256); an [Int16Array] is a
      [list Z] of values in [-32768, 32768); every store into a typed array
      has its wrap-around written out.
    - A JavaScript string whose code units are all below 256 (the "binary
      strings" handled by [btoa] / [atob], and base64 text) is a [string].
    - Audio samples and audio-clock times are rationals.  The float32 values
      the browser hands to the code are rationals, and the only arithmetic the
      codec performs on them, a multiplication and a division by 32768 = 2^15,
      is exact in IEEE double precision; the quotient of a 16-bit integer by
      2^15 is a float32 value.
    - A handler runs to completion before the next one starts; the effects it
      has on the browser (nodes started and stopped, devices released) are
      appended to a log. *)

From Stdlib Require Import ZArith QArith Qround Qabs Qminmax Lia Lqa.
From Stdlib Require Import String Ascii List.
From stdpp Require Import gmap strings list.
Import ListNotations.

(** ** Platform functions: [btoa] and [atob]

    [btoa] and [atob] are browser built-ins.  They are written here after the
    HTML standard ("forgiving-base64 encode / decode", which follows RFC 4648
    section 4): three bytes make four 6-bit groups, each printed with the
    64-character alphabet; a final group of one or two bytes is padded with
    [=]. *)
Module Base64.
Local Open Scope Z_scope.

Definition alphabet : list ascii :=
  list_ascii_of_string
    "ABCDEFGHIJKLMNOPQRSTUVWXYZabcdefghijklmnopqrstuvwxyz0123456789+/".

Definition pad : ascii := "="%char.

(** The character printed for a 6-bit group. *)
Definition sextet_char (s : Z) : ascii := nth (Z.to_nat s) alphabet pad.

Fixpoint index_from (i : Z) (c : ascii) (l : list ascii) : option Z :=
  match l with
  | [] => None
  | x :: r => if Ascii.eqb c x then Some i else index_from (i + 1) c r
  end.

(** The 6-bit group a character stands for; [None] outside the alphabet. *)
Definition char_sextet (c : ascii) : option Z := index_from 0 c alphabet.

(** The 6-bit groups of a byte sequence, without padding. *)
Fixpoint sextets (l : list Z) : list Z :=
  match l with
  | [] => []
  | [a] => [a / 4; (a mod 4) * 16]
  | [a; b] => [a / 4; (a mod 4) * 16 + b / 16; (b mod 16) * 4]
  | a :: b :: c :: rest =>
      [a / 4; (a mod 4) * 16 + b / 16; (b mod 16) * 4 + c / 64; c mod 64]
        ++ sextets rest
  end.

Definition padding (n : nat) : list ascii :=
  match (n mod 3)%nat with
  | 1%nat => [pad; pad]
  | 2%nat => [pad]
  | _ => []
  end.

Definition code (c : ascii) : Z := Z.of_N (N_of_ascii c).
Definition char_of_code (z : Z) : ascii := ascii_of_N (Z.to_N z).

(** [btoa(binary)]: the argument is a binary string, one character per byte. *)
Definition btoa (binary : string) : string :=
  let bytes := map code (list_ascii_of_string binary) in
  string_of_list_ascii (map sextet_char (sextets bytes) ++ padding (length bytes)).

Definition is_ascii_whitespace (c : ascii) : bool :=
  let n := code c in
  (n =? 9) || (n =? 10) || (n =? 12) || (n =? 13) || (n =? 32).

(** "If data ends with one or two U+003D (=) code points, remove them." *)
Definition strip_padding (l : list ascii) : list ascii :=
  match rev l with
  | c1 :: c2 :: r =>
      if Ascii.eqb c1 pad then
        if Ascii.eqb c2 pad then rev r else rev (c2 :: r)
      else l
  | [c1] => if Ascii.eqb c1 pad then [] else l
  | [] => l
  end.

Fixpoint all_sextets (l : list ascii) : option (list Z) :=
  match l with
  | [] => Some []
  | c :: r =>
      match char_sextet c, all_sextets r with
      | Some s, Some ss => Some (s :: ss)
      | _, _ => None
      end
  end.

(** Bytes of a sequence of 6-bit groups; a trailing group of 12 or 18 bits
    gives one or two bytes, its last four or two bits being discarded. *)
Fixpoint unsextets (l : list Z) : list Z :=
  match l with
  | a :: b :: c :: d :: rest =>
      [a * 4 + b / 16; (b mod 16) * 16 + c / 4; (c mod 4) * 64 + d]
        ++ unsextets rest
  | [a; b; c] => [a * 4 + b / 16; (b mod 16) * 16 + c / 4]
  | [a; b] => [a * 4 + b / 16]
  | _ => []
  end.

(** [atob(data)]: [None] stands for the [InvalidCharacterError] it throws. *)
Definition atob (data : string) : option string :=
  let d := filter (fun c => negb (is_ascii_whitespace c)) (list_ascii_of_string data) in
  let d := if (length d mod 4 =? 0)%nat then strip_padding d else d in
  if (length d mod 4 =? 1)%nat then None
  else
    match all_sextets d with
    | None => None
    | Some ss => Some (string_of_list_ascii (map char_of_code (unsextets ss)))
    end.

End Base64.

(** ** The audio codec helpers of [LiveConvo.tsx] *)
Module Codec.
Local Open Scope Z_scope.

(** The exceptions the code can raise. *)
Inductive Exn : Set :=
  | TypeError | RangeError | NotSupportedError | InvalidCharacterError.

Inductive result (A : Type) : Type :=
  | Ok (a : A)
  | Throw (e : Exn).
Arguments Ok {A} a.
Arguments Throw {A} e.

#[export] Instance result_bind : MBind result := fun A B k r =>
  match r with
  | Ok a => k a
  | Throw e => Throw e
  end.

(** *** Stores into typed arrays *)

(** Truncation toward zero, the first step of every integer conversion. *)
Definition Qtrunc (q : Q) : Z := if Qle_bool 0 q then Qfloor q else Qceiling q.

Definition wrap_int16 (n : Z) : Z :=
  let m := n mod 65536 in if 32768 <=? m then m - 65536 else m.

(** [int16[i] = v] for a number [v]. *)
Definition ToInt16 (v : Q) : Z := wrap_int16 (Qtrunc v).

(** [bytes[i] = n] for an integer [n]. *)
Definition ToUint8 (n : Z) : Z := n mod 256.

(** *** [onaudioprocess], lines 176-181: float samples to 16-bit integers *)
Definition quantize (inputData : list Q) : list Z :=
  map (fun x => ToInt16 (x * 32768)%Q) inputData.

(** [new Uint8Array(int16.buffer)]: the bytes of the same buffer, the low
    byte of each sample first. *)
Definition int16_bytes (v : Z) : list Z :=
  let u := v mod 65536 in [u mod 256; u / 256].

Definition Uint8Array_of_Int16Array (int16 : list Z) : list Z :=
  flat_map int16_bytes int16.

(** *** [encode], lines 17-24 *)
Definition fromCharCode (b : Z) : string := String (Base64.char_of_code b) EmptyString.

Definition encode (bytes : list Z) : string :=
  let binary := fold_left (fun binary b => (binary ++ fromCharCode b)%string) bytes ""%string in
  Base64.btoa binary.

(** *** [decode], lines 31-39 *)
Definition decode (base64 : string) : result (list Z) :=
  match Base64.atob base64 with
  | None => Throw InvalidCharacterError
  | Some binaryString =>
      Ok (map (fun c => ToUint8 (Base64.code c)) (list_ascii_of_string binaryString))
  end.

(** *** [decodeAudioData], lines 50-61 *)
Record AudioBuffer : Type := {
  numberOfChannels : nat;
  frames : nat;                      (* [buffer.length] *)
  sampleRate : Z;
  channelData : list (list Q)
}.

(** [buffer.duration], in seconds. *)
Definition duration (b : AudioBuffer) : Q :=
  (inject_Z (Z.of_nat (frames b)) / inject_Z (sampleRate b))%Q.

Fixpoint int16_view (data : list Z) : list Z :=
  match data with
  | lo :: hi :: rest => wrap_int16 (lo + 256 * hi) :: int16_view rest
  | _ => []
  end.

(** [new Int16Array(data.buffer)]: a [RangeError] unless the byte length of
    the buffer is a multiple of 2. *)
Definition Int16Array_of_buffer (data : list Z) : result (list Z) :=
  if Nat.even (length data) then Ok (int16_view data) else Throw RangeError.

(** [ctx.createBuffer(numChannels, frameCount, sampleRate)] of the Web Audio
    API: a silent buffer; "a NotSupportedError exception MUST be thrown if
    any of the arguments is negative, zero, or outside its nominal range".
    The upper ends of the nominal ranges are chosen by the implementation:
    each one accepts 1 to 32 channels and rates from 8000 to 96000 Hz, and
    may accept more.  What is decided for every implementation is written
    here: an argument that is zero or negative is refused.  The results about
    a buffer that is made are stated within the limits above; the single call
    of the handler, one channel at 24000 Hz, lies within them. *)
Definition createBuffer (numChannels frameCount : nat) (rate : Z) : result AudioBuffer :=
  if (numChannels =? 0)%nat || (frameCount =? 0)%nat || (rate <=? 0)%Z
  then Throw NotSupportedError
  else Ok {| numberOfChannels := numChannels;
             frames := frameCount;
             sampleRate := rate;
             channelData := repeat (repeat 0%Q frameCount) numChannels |}.

(** The inner loop: [channelData[i] = dataInt16[i * numChannels + channel] / 32768.0]. *)
Definition fill_channel (dataInt16 : list Z) (numChannels frameCount channel : nat)
    (data : list Q) : list Q :=
  fold_left
    (fun data i =>
       <[ i := (inject_Z (nth (i * numChannels + channel)%nat dataInt16 0%Z) / 32768)%Q ]> data)
    (seq 0 frameCount) data.

(** [frameCount] is [dataInt16.length / numChannels]; when the quotient has a
    fraction, [createBuffer] truncates it and the extra iteration of the loop
    writes past the end of the channel, which a typed array ignores: the
    whole part of the quotient is the number of frames written. *)
Definition decodeAudioData (data : list Z) (rate : Z) (numChannels : nat) : result AudioBuffer :=
  dataInt16 ← Int16Array_of_buffer data;
  let frameCount := (length dataInt16 / numChannels)%nat in
  buffer ← createBuffer numChannels frameCount rate;
  Ok {| numberOfChannels := numberOfChannels buffer;
        frames := frames buffer;
        sampleRate := sampleRate buffer;
        channelData :=
          imap (fun channel data => fill_channel dataInt16 numChannels frameCount channel data)
               (channelData buffer) |}.

(** The two ends of the audio path: what [onaudioprocess] sends for a frame
    of samples (lines 176-183), and what [onmessage] builds from a received
    chunk (line 223). *)
Definition pcm_data (inputData : list Q) : string :=
  let int16 := quantize inputData in
  encode (Uint8Array_of_Int16Array int16).

Definition decode_chunk (base64Audio : string) : result AudioBuffer :=
  bytes ← decode base64Audio;
  decodeAudioData bytes 24000 1.

End Codec.

(** ** The component: state, handlers, lifecycle *)
Module Live.
Import Codec.

(** *** Messages of the Live API, as far as the handler reads them *)
Record Transcription : Type := { text : option string }.
Record Blob : Type := { data : option string; mimeType : option string }.
Record Part : Type := { inlineData : option Blob }.
Record Content : Type := { parts : option (list Part) }.
Record LiveServerContent : Type := {
  modelTurn : option Content;
  turnComplete : bool;
  interrupted : bool;
  inputTranscription : option Transcription;
  outputTranscription : option Transcription
}.
Record LiveServerMessage : Type := { serverContent : option LiveServerContent }.

(** *** Transcript entries are plain objects: property name to value *)
Inductive JSValue : Type :=
  | JSString (s : string)
  | JSNumber (n : Z).

Abbreviation JSObject := (gmap string JSValue).

(** [{ speaker: sp, text: t }] *)
Definition entry (sp t : string) : JSObject :=
  {[ "speaker"%string := JSString sp; "text"%string := JSString t ]}.

(** *** What the handlers do to the browser *)
Inductive Effect : Type :=
  | RequestUserMedia                       (* [getUserMedia({ audio: true })] *)
  | MicrophoneAcquired (stream : nat)      (* the request was granted *)
  | NewAudioContext (ctx : nat) (rate : Z)
  | Connect (session : nat)
  | CreateMediaStreamSource (ctx node : nat)
  | CreateScriptProcessor (ctx node : nat)
  | SendRealtimeInput (session : nat) (media : Blob)
  | SourceStart (node : nat) (when : Q) (buffer : AudioBuffer)
  | SourceStop (node : nat)
  | SessionClose (session : nat)
  | TracksStop (stream : nat)
  | NodeDisconnect (node : nat)
  | ContextClose (ctx : nat).

(** *** The component's state: React state, refs, and the browser objects
    they point to (objects are numbered handles). *)
#[projections(primitive)] Record State : Type := {
  isListening : bool;
  status : string;
  transcripts : list JSObject;
  sessionPromiseRef : option nat;
  mediaStreamRef : option nat;
  inputAudioContextRef : option nat;
  outputAudioContextRef : option nat;
  scriptProcessorRef : option nat;
  mediaStreamSourceRef : option nat;
  currentInputTranscription : string;
  currentOutputTranscription : string;
  nextStartTime : Q;
  sources : list nat;        (* a [Set], in insertion order *)
  closed : gset nat;         (* audio contexts whose [state] is ['closed'] *)
  fresh : nat                (* the next unused handle *)
}.

Definition initial : State := {|
  isListening := false;
  status := "Idle. Press Start to talk.";
  transcripts := [];
  sessionPromiseRef := None;
  mediaStreamRef := None;
  inputAudioContextRef := None;
  outputAudioContextRef := None;
  scriptProcessorRef := None;
  mediaStreamSourceRef := None;
  currentInputTranscription := "";
  currentOutputTranscription := "";
  nextStartTime := 0;
  sources := [];
  closed := ∅;
  fresh := 0
|}.

(** *** Handlers: state, exceptions and the effect log *)
#[projections(primitive)] Record Outcome (A : Type) : Type := {
  value : result A;     (* [Throw e]: the exception left the handler *)
  after : State;
  log : list Effect
}.
Arguments value {A} _.
Arguments after {A} _.
Arguments log {A} _.

Definition Handler (A : Type) : Type := State -> Outcome A.

#[export] Instance handler_ret : MRet Handler := fun A a s =>
  {| value := Ok a; after := s; log := [] |}.

#[export] Instance handler_bind : MBind Handler := fun A B k h s =>
  let o := h s in
  match value o with
  | Ok a =>
      let o' := k a (after o) in
      {| value := value o'; after := after o'; log := log o ++ log o' |}
  | Throw e => {| value := Throw e; after := after o; log := log o |}
  end.

Definition get : Handler State := fun s => {| value := Ok s; after := s; log := [] |}.
Definition modify (f : State -> State) : Handler unit := fun s =>
  {| value := Ok tt; after := f s; log := [] |}.
Definition emit (e : Effect) : Handler unit := fun s =>
  {| value := Ok tt; after := s; log := [e] |}.
Definition throw {A} (e : Exn) : Handler A := fun s =>
  {| value := Throw e; after := s; log := [] |}.
Definition lift {A} (r : result A) : Handler A := fun s =>
  {| value := r; after := s; log := [] |}.
Definition when (b : bool) (h : Handler unit) : Handler unit :=
  if b then h else mret tt.

(** [ref.current!] followed by a property access: a [TypeError] on [null]. *)
Definition deref (r : option nat) : Handler nat :=
  match r with
  | Some x => mret x
  | None => throw TypeError
  end.

(** Assignments to one field of the state. *)
Definition set_isListening (v : bool) (s : State) : State :=
  {| isListening := v; status := status s; transcripts := transcripts s;
     sessionPromiseRef := sessionPromiseRef s; mediaStreamRef := mediaStreamRef s;
     inputAudioContextRef := inputAudioContextRef s;
     outputAudioContextRef := outputAudioContextRef s;
     scriptProcessorRef := scriptProcessorRef s;
     mediaStreamSourceRef := mediaStreamSourceRef s;
     currentInputTranscription := currentInputTranscription s;
     currentOutputTranscription := currentOutputTranscription s;
     nextStartTime := nextStartTime s; sources := sources s; closed := closed s;
     fresh := fresh s |}.

Definition set_status (v : string) (s : State) : State :=
  {| isListening := isListening s; status := v; transcripts := transcripts s;
     sessionPromiseRef := sessionPromiseRef s; mediaStreamRef := mediaStreamRef s;
     inputAudioContextRef := inputAudioContextRef s;
     outputAudioContextRef := outputAudioContextRef s;
     scriptProcessorRef := scriptProcessorRef s;
     mediaStreamSourceRef := mediaStreamSourceRef s;
     currentInputTranscription := currentInputTranscription s;
     currentOutputTranscription := currentOutputTranscription s;
     nextStartTime := nextStartTime s; sources := sources s; closed := closed s;
     fresh := fresh s |}.

Definition set_transcripts (v : list JSObject) (s : State) : State :=
  {| isListening := isListening s; status := status s; transcripts := v;
     sessionPromiseRef := sessionPromiseRef s; mediaStreamRef := mediaStreamRef s;
     inputAudioContextRef := inputAudioContextRef s;
     outputAudioContextRef := outputAudioContextRef s;
     scriptProcessorRef := scriptProcessorRef s;
     mediaStreamSourceRef := mediaStreamSourceRef s;
     currentInputTranscription := currentInputTranscription s;
     currentOutputTranscription := currentOutputTranscription s;
     nextStartTime := nextStartTime s; sources := sources s; closed := closed s;
     fresh := fresh s |}.

Definition set_sessionPromiseRef (v : option nat) (s : State) : State :=
  {| isListening := isListening s; status := status s; transcripts := transcripts s;
     sessionPromiseRef := v; mediaStreamRef := mediaStreamRef s;
     inputAudioContextRef := inputAudioContextRef s;
     outputAudioContextRef := outputAudioContextRef s;
     scriptProcessorRef := scriptProcessorRef s;
     mediaStreamSourceRef := mediaStreamSourceRef s;
     currentInputTranscription := currentInputTranscription s;
     currentOutputTranscription := currentOutputTranscription s;
     nextStartTime := nextStartTime s; sources := sources s; closed := closed s;
     fresh := fresh s |}.

Definition set_mediaStreamRef (v : option nat) (s : State) : State :=
  {| isListening := isListening s; status := status s; transcripts := transcripts s;
     sessionPromiseRef := sessionPromiseRef s; mediaStreamRef := v;
     inputAudioContextRef := inputAudioContextRef s;
     outputAudioContextRef := outputAudioContextRef s;
     scriptProcessorRef := scriptProcessorRef s;
     mediaStreamSourceRef := mediaStreamSourceRef s;
     currentInputTranscription := currentInputTranscription s;
     currentOutputTranscription := currentOutputTranscription s;
     nextStartTime := nextStartTime s; sources := sources s; closed := closed s;
     fresh := fresh s |}.

Definition set_inputAudioContextRef (v : option nat) (s : State) : State :=
  {| isListening := isListening s; status := status s; transcripts := transcripts s;
     sessionPromiseRef := sessionPromiseRef s; mediaStreamRef := mediaStreamRef s;
     inputAudioContextRef := v; outputAudioContextRef := outputAudioContextRef s;
     scriptProcessorRef := scriptProcessorRef s;
     mediaStreamSourceRef := mediaStreamSourceRef s;
     currentInputTranscription := currentInputTranscription s;
     currentOutputTranscription := currentOutputTranscription s;
     nextStartTime := nextStartTime s; sources := sources s; closed := closed s;
     fresh := fresh s |}.

Definition set_outputAudioContextRef (v : option nat) (s : State) : State :=
  {| isListening := isListening s; status := status s; transcripts := transcripts s;
     sessionPromiseRef := sessionPromiseRef s; mediaStreamRef := mediaStreamRef s;
     inputAudioContextRef := inputAudioContextRef s; outputAudioContextRef := v;
     scriptProcessorRef := scriptProcessorRef s;
     mediaStreamSourceRef := mediaStreamSourceRef s;
     currentInputTranscription := currentInputTranscription s;
     currentOutputTranscription := currentOutputTranscription s;
     nextStartTime := nextStartTime s; sources := sources s; closed := closed s;
     fresh := fresh s |}.

Definition set_scriptProcessorRef (v : option nat) (s : State) : State :=
  {| isListening := isListening s; status := status s; transcripts := transcripts s;
     sessionPromiseRef := sessionPromiseRef s; mediaStreamRef := mediaStreamRef s;
     inputAudioContextRef := inputAudioContextRef s;
     outputAudioContextRef := outputAudioContextRef s; scriptProcessorRef := v;
     mediaStreamSourceRef := mediaStreamSourceRef s;
     currentInputTranscription := currentInputTranscription s;
     currentOutputTranscription := currentOutputTranscription s;
     nextStartTime := nextStartTime s; sources := sources s; closed := closed s;
     fresh := fresh s |}.

Definition set_mediaStreamSourceRef (v : option nat) (s : State) : State :=
  {| isListening := isListening s; status := status s; transcripts := transcripts s;
     sessionPromiseRef := sessionPromiseRef s; mediaStreamRef := mediaStreamRef s;
     inputAudioContextRef := inputAudioContextRef s;
     outputAudioContextRef := outputAudioContextRef s;
     scriptProcessorRef := scriptProcessorRef s; mediaStreamSourceRef := v;
     currentInputTranscription := currentInputTranscription s;
     currentOutputTranscription := currentOutputTranscription s;
     nextStartTime := nextStartTime s; sources := sources s; closed := closed s;
     fresh := fresh s |}.

Definition set_currentInputTranscription (v : string) (s : State) : State :=
  {| isListening := isListening s; status := status s; transcripts := transcripts s;
     sessionPromiseRef := sessionPromiseRef s; mediaStreamRef := mediaStreamRef s;
     inputAudioContextRef := inputAudioContextRef s;
     outputAudioContextRef := outputAudioContextRef s;
     scriptProcessorRef := scriptProcessorRef s;
     mediaStreamSourceRef := mediaStreamSourceRef s;
     currentInputTranscription := v;
     currentOutputTranscription := currentOutputTranscription s;
     nextStartTime := nextStartTime s; sources := sources s; closed := closed s;
     fresh := fresh s |}.

Definition set_currentOutputTranscription (v : string) (s : State) : State :=
  {| isListening := isListening s; status := status s; transcripts := transcripts s;
     sessionPromiseRef := sessionPromiseRef s; mediaStreamRef := mediaStreamRef s;
     inputAudioContextRef := inputAudioContextRef s;
     outputAudioContextRef := outputAudioContextRef s;
     scriptProcessorRef := scriptProcessorRef s;
     mediaStreamSourceRef := mediaStreamSourceRef s;
     currentInputTranscription := currentInputTranscription s;
     currentOutputTranscription := v; nextStartTime := nextStartTime s;
     sources := sources s; closed := closed s; fresh := fresh s |}.

Definition set_nextStartTime (v : Q) (s : State) : State :=
  {| isListening := isListening s; status := status s; transcripts := transcripts s;
     sessionPromiseRef := sessionPromiseRef s; mediaStreamRef := mediaStreamRef s;
     inputAudioContextRef := inputAudioContextRef s;
     outputAudioContextRef := outputAudioContextRef s;
     scriptProcessorRef := scriptProcessorRef s;
     mediaStreamSourceRef := mediaStreamSourceRef s;
     currentInputTranscription := currentInputTranscription s;
     currentOutputTranscription := currentOutputTranscription s;
     nextStartTime := v; sources := sources s; closed := closed s; fresh := fresh s |}.

Definition set_sources (v : list nat) (s : State) : State :=
  {| isListening := isListening s; status := status s; transcripts := transcripts s;
     sessionPromiseRef := sessionPromiseRef s; mediaStreamRef := mediaStreamRef s;
     inputAudioContextRef := inputAudioContextRef s;
     outputAudioContextRef := outputAudioContextRef s;
     scriptProcessorRef := scriptProcessorRef s;
     mediaStreamSourceRef := mediaStreamSourceRef s;
     currentInputTranscription := currentInputTranscription s;
     currentOutputTranscription := currentOutputTranscription s;
     nextStartTime := nextStartTime s; sources := v; closed := closed s;
     fresh := fresh s |}.

Definition set_fresh (v : nat) (s : State) : State :=
  {| isListening := isListening s; status := status s; transcripts := transcripts s;
     sessionPromiseRef := sessionPromiseRef s; mediaStreamRef := mediaStreamRef s;
     inputAudioContextRef := inputAudioContextRef s;
     outputAudioContextRef := outputAudioContextRef s;
     scriptProcessorRef := scriptProcessorRef s;
     mediaStreamSourceRef := mediaStreamSourceRef s;
     currentInputTranscription := currentInputTranscription s;
     currentOutputTranscription := currentOutputTranscription s;
     nextStartTime := nextStartTime s; sources := sources s; closed := closed s;
     fresh := v |}.

(** A new browser object. *)
Definition alloc : Handler nat := fun s =>
  {| value := Ok (fresh s); after := set_fresh (S (fresh s)) s; log := [] |}.

Fixpoint for_each {A} (l : list A) (body : A -> Handler unit) : Handler unit :=
  match l with
  | [] => mret tt
  | x :: r => body x;; for_each r body
  end.

(** A JavaScript string used as a condition. *)
Definition truthy (t : string) : bool := negb (String.eqb t "").

(** *** [stopConversation], lines 92-128 *)
Definition stopConversation : Handler unit :=
  s ← get;
  match sessionPromiseRef s with
  | Some session => emit (SessionClose session);; modify (set_sessionPromiseRef None)
  | None => mret tt
  end;;
  s ← get;
  match mediaStreamRef s with
  | Some stream => emit (TracksStop stream);; modify (set_mediaStreamRef None)
  | None => mret tt
  end;;
  s ← get;
  match scriptProcessorRef s with
  | Some node => emit (NodeDisconnect node);; modify (set_scriptProcessorRef None)
  | None => mret tt
  end;;
  s ← get;
  match mediaStreamSourceRef s with
  | Some node => emit (NodeDisconnect node);; modify (set_mediaStreamSourceRef None)
  | None => mret tt
  end;;
  s ← get;
  match inputAudioContextRef s with
  | Some ctx =>
      if decide (ctx ∈ closed s) then mret tt
      else emit (ContextClose ctx);; modify (set_inputAudioContextRef None)
  | None => mret tt
  end;;
  s ← get;
  match outputAudioContextRef s with
  | Some ctx =>
      if decide (ctx ∈ closed s) then mret tt
      else
        for_each (sources s) (fun source => emit (SourceStop source));;
        modify (set_sources []);;
        emit (ContextClose ctx);;
        modify (set_outputAudioContextRef None)
  | None => mret tt
  end;;
  modify (set_isListening false);;
  modify (set_status "Conversation ended.").

(** *** [startConversation], lines 134-257

    The function waits for [getUserMedia] (line 142); other handlers may run
    in between, so it is two handlers: the part before the wait, and the part
    that runs when the request settles. *)
Definition startConversation : Handler unit :=
  s ← get;
  if isListening s then mret tt
  else
    modify (set_isListening true);;
    modify (set_status "Connecting...");;
    modify (set_transcripts []);;
    emit RequestUserMedia.

Definition startConversation_settled (granted : bool) : Handler unit :=
  if granted then
    stream ← alloc;
    emit (MicrophoneAcquired stream);;
    modify (set_mediaStreamRef (Some stream));;
    ictx ← alloc;
    emit (NewAudioContext ictx 16000);;
    modify (set_inputAudioContextRef (Some ictx));;
    octx ← alloc;
    emit (NewAudioContext octx 24000);;
    modify (set_outputAudioContextRef (Some octx));;
    session ← alloc;
    emit (Connect session);;
    modify (set_sessionPromiseRef (Some session))
  else
    (* the [catch] block *)
    modify (set_status "Failed to get microphone access.");;
    modify (set_isListening false).

(** *** The callbacks of the connection, lines 165-249 *)
Definition onopen : Handler unit :=
  modify (set_status "Connected. You can start speaking now.");;
  s ← get;
  ictx ← deref (inputAudioContextRef s);
  source ← alloc;
  emit (CreateMediaStreamSource ictx source);;
  modify (set_mediaStreamSourceRef (Some source));;
  s ← get;
  ictx ← deref (inputAudioContextRef s);
  scriptProcessor ← alloc;
  emit (CreateScriptProcessor ictx scriptProcessor);;
  modify (set_scriptProcessorRef (Some scriptProcessor)).

Definition onaudioprocess (inputData : list Q) : Handler unit :=
  let pcmBlob := {| data := Some (pcm_data inputData);
                    mimeType := Some "audio/pcm;rate=16000"%string |} in
  s ← get;
  match sessionPromiseRef s with
  | Some session => emit (SendRealtimeInput session pcmBlob)
  | None => mret tt
  end.

(** [acc += transcription.text]; an absent [text] prints as ["undefined"]. *)
Definition append_text (acc : string) (t : Transcription) : string :=
  (acc ++ match text t with Some x => x | None => "undefined" end)%string.

(** [message.serverContent?.modelTurn?.parts[0]?.inlineData.data] *)
Definition base64Audio_of (message : LiveServerMessage) : result (option string) :=
  match serverContent message with
  | None => Ok None
  | Some content =>
      match modelTurn content with
      | None => Ok None
      | Some turn =>
          match parts turn with
          | None => Throw TypeError
          | Some [] => Ok None
          | Some (part :: _) =>
              match inlineData part with
              | None => Throw TypeError
              | Some blob => Ok (data blob)
              end
          end
      end
  end.

(** [sources.current.add(node)] and [sources.current.delete(node)] *)
Definition set_add (node : nat) (l : list nat) : list nat :=
  if decide (node ∈ l) then l else l ++ [node].
Definition set_delete (node : nat) (l : list nat) : list nat :=
  filter (fun x => x ≠ node) l.

(** Lines 205-217. *)
Definition on_turnComplete : Handler unit :=
  s ← get;
  let fullInput := currentInputTranscription s in
  let fullOutput := currentOutputTranscription s in
  modify (fun s =>
    let newTranscripts :=
      (if truthy fullInput then [entry "user" fullInput] else [])
        ++ (if truthy fullOutput then [entry "model" fullOutput] else []) in
    set_transcripts (transcripts s ++ newTranscripts) s);;
  modify (set_currentInputTranscription "");;
  modify (set_currentOutputTranscription "").

(** Lines 222-230; [now] is the reading of [currentTime] on line 222.  The
    output context is read again on lines 223 and 224; no other handler runs
    in between, so the first read decides. *)
Definition schedule (now : Q) (base64Audio : string) : Handler unit :=
  s ← get;
  _ ← deref (outputAudioContextRef s);
  modify (set_nextStartTime (Qmax (nextStartTime s) now));;
  audioBuffer ← lift (decode_chunk base64Audio);
  sourceNode ← alloc;
  s ← get;
  emit (SourceStart sourceNode (nextStartTime s) audioBuffer);;
  modify (set_nextStartTime (nextStartTime s + duration audioBuffer));;
  modify (fun s => set_sources (set_add sourceNode (sources s)) s).

(** Lines 233-239. *)
Definition on_interrupted : Handler unit :=
  s ← get;
  for_each (sources s) (fun source => emit (SourceStop source));;
  modify (set_sources []);;
  modify (set_nextStartTime 0).

(** [onmessage], lines 196-240: five conditionals in a row. *)
Definition on_outputTranscription (content : option LiveServerContent) : Handler unit :=
  match content ≫= outputTranscription with
  | Some t => modify (fun s => set_currentOutputTranscription
                                 (append_text (currentOutputTranscription s) t) s)
  | None => mret tt
  end.

Definition on_inputTranscription (content : option LiveServerContent) : Handler unit :=
  match content ≫= inputTranscription with
  | Some t => modify (fun s => set_currentInputTranscription
                                 (append_text (currentInputTranscription s) t) s)
  | None => mret tt
  end.

Definition on_audio (now : Q) (message : LiveServerMessage) : Handler unit :=
  base64Audio ← lift (base64Audio_of message);
  match base64Audio with
  | Some b => when (truthy b) (schedule now b)
  | None => mret tt
  end.

Definition onmessage (now : Q) (message : LiveServerMessage) : Handler unit :=
  let content := serverContent message in
  on_outputTranscription content;;
  on_inputTranscription content;;
  when (from_option turnComplete false content) on_turnComplete;;
  on_audio now message;;
  when (from_option interrupted false content) on_interrupted.

(** The listener of line 227. *)
Definition onended (sourceNode : nat) : Handler unit :=
  modify (fun s => set_sources (set_delete sourceNode (sources s)) s).

Definition onerror (message : string) : Handler unit :=
  modify (set_status ("Error: " ++ message ++ ". Please try again."));;
  stopConversation.

Definition onclose : Handler unit :=
  modify (set_status "Connection closed.");;
  modify (set_isListening false).

(** *** Events and runs *)
Inductive Event : Type :=
  | Start                                   (* a call of [startConversation] *)
  | UserMediaSettled (granted : bool)
  | Stop                                    (* a call of [stopConversation] *)
  | Open
  | AudioProcess (inputData : list Q)
  | Message (now : Q) (message : LiveServerMessage)
  | Ended (sourceNode : nat)
  | Error (message : string)
  | Close.

Definition handle (ev : Event) : Handler unit :=
  match ev with
  | Start => startConversation
  | UserMediaSettled granted => startConversation_settled granted
  | Stop => stopConversation
  | Open => onopen
  | AudioProcess inputData => onaudioprocess inputData
  | Message now message => onmessage now message
  | Ended sourceNode => onended sourceNode
  | Error message => onerror message
  | Close => onclose
  end.

(** An exception that leaves a handler ends that handler only: what it had
    already written stays, and the next event is handled as usual. *)
Fixpoint run (evs : list Event) (s : State) : State * list Effect :=
  match evs with
  | [] => (s, [])
  | ev :: rest =>
      let o := handle ev s in
      let '(s', l) := run rest (after o) in
      (s', log o ++ l)
  end.

End Live.

(** ** The chat assistant

    [ChatBot], lines 304-535 of features/LiveConvo.tsx, and the service call
    it makes, [getGroundedChatResponse], lines 34-58 of
    services/geminiService.ts. *)
Module ChatBot.

(** *** [String.prototype.split] with a separator that is not empty

    The string is read from left to right; where the separator is found the
    piece read so far ends, and reading goes on behind the separator.
    [skip] counts the characters of a separator that was found and is still
    being passed over. *)
Fixpoint split_from (separator s : string) (skip : nat) : list string :=
  match s with
  | EmptyString => [""%string]
  | String c rest =>
      match skip with
      | S k => split_from separator rest k
      | O =>
          if String.prefix separator s
          then ""%string :: split_from separator rest (String.length separator - 1)
          else match split_from separator rest 0 with
               | piece :: pieces => String c piece :: pieces
               | [] => [String c ""]
               end
      end
  end.

Definition split (separator s : string) : list string := split_from separator s 0.

(** *** [handleQuickAction], lines 377-402: the link of the download

    The same lines build the link in features/Resume.tsx, lines 21-32.
    Nothing between [try] and [catch] can raise: [split] returns at least one
    piece. *)
Definition direct_download : string := "https://drive.google.com/uc?export=download&id=".

Definition downloadUrl (resumePdfUrl : string) : string :=
  let urlParts := split "/d/" resumePdfUrl in
  if (1 <? length urlParts)%nat then
    match urlParts !! 1%nat with
    | Some part =>
        match split "/" part !! 0%nat with
        | Some fileId => (direct_download ++ fileId)%string
        | None => (direct_download ++ "undefined")%string
        end
    | None => resumePdfUrl
    end
  else resumePdfUrl.

(** *** Messages, responses and requests *)
Inductive Role : Set := user | model.

Record Source : Type := { uri : option string; title : option string }.

Record ChatMessage : Type := {
  role : Role;
  text : string;
  sources : option (list Source)
}.

Record GroundingChunk : Type := { web : option Source; maps : option Source }.
Record GroundingMetadata : Type := { groundingChunks : option (list GroundingChunk) }.
Record Candidate : Type := { groundingMetadata : option GroundingMetadata }.
Record GenerateContentResponse : Type := {
  response_text : string;
  candidates : option (list Candidate)
}.

Record ChatContent : Type := { content_role : Role; parts : list string }.
Inductive Tool : Set := googleSearch | googleMaps.
Record Request : Type := { contents : list ChatContent; tools : list Tool }.

(** [getGroundedChatResponse], geminiService.ts lines 34-58: the request
    passed to [generateContent]. *)
Definition getGroundedChatResponse (history : list ChatContent) (newMessage : string)
    (useMaps : bool) : Request :=
  {| contents := history ++ [ {| content_role := user; parts := [newMessage] |} ];
     tools := googleSearch :: (if useMaps then [googleMaps] else []) |}.

(** *** The component *)
Record ChatState : Type := {
  messages : list ChatMessage;
  input : string;
  isLoading : bool;
  useMaps : bool
}.

Definition greeting : ChatMessage :=
  {| role := model;
     text := "Hello! I'm ZOSO AI, Zarif's personal assistant. Ask me anything, "
             ++ "or use the quick actions below to navigate the site.";
     sources := None |}.

Definition chat_initial : ChatState :=
  {| messages := [greeting]; input := ""; isLoading := false; useMaps := false |}.

(** [String.prototype.trim], for text of code units below 256: the white
    space and line terminators of that range. *)
Definition white_space (c : ascii) : bool :=
  let n := nat_of_ascii c in
  (n =? 9)%nat || (n =? 10)%nat || (n =? 11)%nat || (n =? 12)%nat || (n =? 13)%nat
  || (n =? 32)%nat || (n =? 160)%nat.

Fixpoint trim_start (s : string) : string :=
  match s with
  | EmptyString => ""
  | String c rest => if white_space c then trim_start rest else s
  end.

Fixpoint trim_end (s : string) : string :=
  match s with
  | EmptyString => ""
  | String c rest =>
      match trim_end rest with
      | EmptyString => if white_space c then "" else String c ""
      | rest' => String c rest'
      end
  end.

Definition trim (s : string) : string := trim_end (trim_start s).

(** [handleSend], lines 405-441.  The function waits for the service
    (line 423); it is two steps: the part before the wait, which returns the
    request it makes, and the part that runs when the request settles
    ([None]: the promise was rejected). *)
Definition handleSend (messageText : option string) (s : ChatState)
    : ChatState * list Request :=
  let messageText := default (input s) messageText in
  if String.eqb (trim messageText) "" || isLoading s then (s, [])
  else
    let userMessage := {| role := user; text := messageText; sources := None |} in
    let history :=
      map (fun msg => {| content_role := role msg; parts := [text msg] |}) (messages s) in
    ({| messages := messages s ++ [userMessage];
        input := "";
        isLoading := true;
        useMaps := useMaps s |},
     [getGroundedChatResponse history messageText (useMaps s)]).

(** Lines 426-430. *)
Definition sources_of (response : GenerateContentResponse) : list Source :=
  match ((candidates response ≫= head) ≫= groundingMetadata) ≫= groundingChunks with
  | Some groundingChunks =>
      map (fun source => {| uri := uri source; title := title source |})
        (omap (fun chunk => match web chunk with
                            | Some source => Some source
                            | None => maps chunk
                            end) groundingChunks)
  | None => []
  end.

Definition handleSend_settled (response : option GenerateContentResponse)
    (s : ChatState) : ChatState :=
  let reply :=
    match response with
    | Some response =>
        {| role := model; text := response_text response;
           sources := Some (sources_of response) |}
    | None =>
        {| role := model; text := "Sorry, I encountered an error. Please try again.";
           sources := None |}
    end in
  {| messages := messages s ++ [reply];
     input := input s;
     isLoading := false;
     useMaps := useMaps s |}.

(** The send button, line 525, and the prompt starters, line 478. *)
Definition send_disabled (s : ChatState) : bool :=
  isLoading s || String.eqb (trim (input s)) "".

Definition starters_shown (s : ChatState) : bool :=
  (length (messages s) =? 1)%nat && negb (isLoading s).

(** *** Events and runs *)
Inductive ChatEvent : Type :=
  | Send (messageText : option string)     (* a call of [handleSend] *)
  | Settled (response : option GenerateContentResponse)
  | SetInput (value : string)
  | SetUseMaps (checked : bool).

Definition chat_handle (ev : ChatEvent) (s : ChatState) : ChatState * list Request :=
  match ev with
  | Send messageText => handleSend messageText s
  | Settled response => (handleSend_settled response s, [])
  | SetInput value =>
      ({| messages := messages s; input := value; isLoading := isLoading s;
          useMaps := useMaps s |}, [])
  | SetUseMaps checked =>
      ({| messages := messages s; input := input s; isLoading := isLoading s;
          useMaps := checked |}, [])
  end.

Fixpoint chat_run (evs : list ChatEvent) (s : ChatState) : ChatState * list Request :=
  match evs with
  | [] => (s, [])
  | ev :: rest =>
      let '(s1, l1) := chat_handle ev s in
      let '(s2, l2) := chat_run rest s1 in
      (s2, l1 ++ l2)
  end.

(** A request settles once, after it was made: [outstanding] counts the
    requests made and not yet settled. *)
Fixpoint timely (outstanding : nat) (evs : list ChatEvent) (s : ChatState) : bool :=
  match evs with
  | [] => true
  | ev :: rest =>
      let '(s1, l1) := chat_handle ev s in
      match ev with
      | Settled _ =>
          match outstanding with
          | O => false
          | S k => timely k rest s1
          end
      | _ => timely (outstanding + length l1) rest s1
      end
  end.

End ChatBot.

(** * Properties *)

(** ** Base64: [atob] inverts [btoa] *)
Module Base64Facts.
Import Base64.
Local Open Scope Z_scope.

Ltac divmod := Z.to_euclidean_division_equations; lia.

Definition is_byte (b : Z) : Prop := 0 <= b < 256.
Definition is_sextet (s : Z) : Prop := 0 <= s < 64.

(** A check of all 64 groups by computation. *)
Lemma each_sextet (P : Z -> bool) :
  forallb (fun n => P (Z.of_nat n)) (seq 0 64) = true ->
  forall s, is_sextet s -> P s = true.
Proof.
  intros H s Hs. rewrite forallb_forall in H.
  specialize (H (Z.to_nat s)). rewrite Z2Nat.id in H by (unfold is_sextet in Hs; lia).
  apply H, in_seq. unfold is_sextet in Hs. lia.
Qed.

Lemma char_sextet_sextet_char s :
  is_sextet s -> char_sextet (sextet_char s) = Some s.
Proof.
  intros Hs.
  pose proof (each_sextet
    (fun s => match char_sextet (sextet_char s) with
              | Some t => t =? s
              | None => false
              end)) as H.
  specialize (H ltac:(vm_compute; reflexivity) s Hs). cbv beta in H.
  destruct (char_sextet (sextet_char s)) as [t|]; [|discriminate].
  apply Z.eqb_eq in H. now subst.
Qed.

Lemma sextet_char_plain s :
  is_sextet s ->
  Ascii.eqb (sextet_char s) pad = false /\ is_ascii_whitespace (sextet_char s) = false.
Proof.
  intros Hs.
  pose proof (each_sextet
    (fun s => negb (Ascii.eqb (sextet_char s) pad)
              && negb (is_ascii_whitespace (sextet_char s)))) as H.
  specialize (H ltac:(vm_compute; reflexivity) s Hs). cbv beta in H.
  apply andb_true_iff in H as [H1 H2].
  now rewrite negb_true_iff in H1, H2.
Qed.

(** Lists are consumed three bytes at a time. *)
Lemma list_ind3 {A} (P : list A -> Prop) :
  P [] -> (forall a, P [a]) -> (forall a b, P [a; b]) ->
  (forall a b c l, P l -> P (a :: b :: c :: l)) ->
  forall l, P l.
Proof.
  intros H0 H1 H2 H3 l.
  enough (P l /\ (forall a, P (a :: l)) /\ (forall a b, P (a :: b :: l))) by tauto.
  induction l as [|x l (IH0 & IH1 & IH2)]; [now auto|].
  repeat split; auto.
Qed.

Lemma sextets_range l : Forall is_byte l -> Forall is_sextet (sextets l).
Proof.
  induction l as [| a | a b | a b c l IH] using list_ind3; intros H; simpl.
  - constructor.
  - inversion_clear H. unfold is_byte, is_sextet in *.
    repeat constructor; divmod.
  - inversion_clear H as [|? ? Ha H']. inversion_clear H' as [|? ? Hb _].
    unfold is_byte, is_sextet in *. repeat constructor; divmod.
  - inversion_clear H as [|? ? Ha H']. inversion_clear H' as [|? ? Hb H''].
    inversion_clear H'' as [|? ? Hc Hl].
    unfold is_byte, is_sextet in *.
    repeat (constructor; [divmod|]). now apply IH.
Qed.

Lemma unsextets_sextets l : Forall is_byte l -> unsextets (sextets l) = l.
Proof.
  induction l as [| a | a b | a b c l IH] using list_ind3; intros H; simpl.
  - reflexivity.
  - inversion_clear H. unfold is_byte in *. apply (f_equal2 cons); [divmod|reflexivity].
  - inversion_clear H as [|? ? Ha H']. inversion_clear H' as [|? ? Hb _].
    unfold is_byte in *. repeat (apply (f_equal2 cons); [divmod|]). reflexivity.
  - inversion_clear H as [|? ? Ha H']. inversion_clear H' as [|? ? Hb H''].
    inversion_clear H'' as [|? ? Hc Hl].
    unfold is_byte in *. rewrite IH by assumption.
    repeat (apply (f_equal2 cons); [divmod|]). reflexivity.
Qed.

Lemma all_sextets_chars ss :
  Forall is_sextet ss -> all_sextets (map sextet_char ss) = Some ss.
Proof.
  induction 1 as [|s ss Hs _ IH]; simpl; [reflexivity|].
  now rewrite char_sextet_sextet_char, IH.
Qed.

Lemma padding_step n : padding (S (S (S n))) = padding n.
Proof.
  unfold padding. replace (S (S (S n))) with (n + 1 * 3)%nat by lia.
  now rewrite Nat.Div0.mod_add.
Qed.

(** The number of groups, and the padding that completes it to a multiple
    of four characters. *)
Lemma sextets_length l :
  exists k r : nat,
    length (sextets l) = (4 * k + r)%nat /\
    ((r = 0%nat /\ padding (length l) = []) \/
     (r = 2%nat /\ padding (length l) = [pad; pad]) \/
     (r = 3%nat /\ padding (length l) = [pad])).
Proof.
  induction l as [| a | a b | a b c l (k & r & Hlen & Hpad)] using list_ind3.
  - exists 0%nat, 0%nat. auto.
  - exists 0%nat, 2%nat. auto.
  - exists 0%nat, 3%nat. auto.
  - exists (S k), r. split.
    + simpl. simpl in Hlen. lia.
    + change (length (a :: b :: c :: l)) with (S (S (S (length l)))).
      now rewrite padding_step.
Qed.

Lemma mod4_multiple k : ((4 * k) mod 4 = 0)%nat.
Proof. rewrite Nat.mul_comm. apply Nat.Div0.mod_mul. Qed.

Lemma mod4_rest k r : ((4 * k + r) mod 4 = r mod 4)%nat.
Proof. rewrite Nat.add_comm, (Nat.mul_comm 4 k). apply Nat.Div0.mod_add. Qed.

Lemma strip_padding_app (X p : list ascii) :
  Forall (fun c => Ascii.eqb c pad = false) X ->
  p = [] \/ p = [pad] \/ p = [pad; pad] ->
  strip_padding (X ++ p) = X.
Proof.
  intros HX Hp. unfold strip_padding. rewrite rev_app_distr.
  assert (Hrev : Forall (fun c => Ascii.eqb c pad = false) (rev X))
    by now apply List.Forall_rev.
  assert (HXX : rev (rev X) = X) by apply rev_involutive.
  destruct Hp as [-> | [-> | ->]]; simpl.
  - rewrite app_nil_r.
    destruct (rev X) as [|c1 [|c2 r]]; [reflexivity| |];
      inversion_clear Hrev as [|? ? Hc1 _]; now rewrite Hc1.
  - destruct (rev X) as [|c2 r]; [now subst X|].
    inversion_clear Hrev as [|? ? Hc2 _]. now rewrite Hc2.
  - exact HXX.
Qed.

Lemma filter_plain (X p : list ascii) :
  Forall (fun c => is_ascii_whitespace c = false) (X ++ p) ->
  filter (fun c => negb (is_ascii_whitespace c)) (X ++ p) = X ++ p.
Proof.
  generalize (X ++ p). intros l. induction 1 as [|c l Hc _ IH]; [reflexivity|].
  rewrite filter_cons_True by (rewrite Hc; exact I). now rewrite IH.
Qed.

Lemma char_of_code_code c : char_of_code (code c) = c.
Proof. unfold char_of_code, code. rewrite N2Z.id. apply ascii_N_embedding. Qed.

Lemma code_char_of_code b : is_byte b -> code (char_of_code b) = b.
Proof.
  intros Hb. unfold char_of_code, code, is_byte in *.
  rewrite N_ascii_embedding by lia. lia.
Qed.

Lemma code_is_byte c : is_byte (code c).
Proof.
  unfold is_byte, code. pose proof (N_ascii_bounded c). lia.
Qed.

(** [atob(btoa(s)) = s] for every binary string [s]. *)
Lemma atob_btoa (binary : string) : atob (btoa binary) = Some binary.
Proof.
  unfold atob, btoa. rewrite list_ascii_of_string_of_list_ascii.
  set (bytes := map code (list_ascii_of_string binary)).
  assert (Hbytes : Forall is_byte bytes)
    by (apply List.Forall_forall; intros b Hb; apply in_map_iff in Hb as (c & <- & _);
        apply code_is_byte).
  pose proof (sextets_range _ Hbytes) as Hrange.
  destruct (sextets_length bytes) as (k & r & Hlen & Hpad).
  set (X := map sextet_char (sextets bytes)) in *.
  assert (HlenX : length X = (4 * k + r)%nat) by (unfold X; now rewrite length_map).
  assert (HXpad : Forall (fun c => Ascii.eqb c pad = false) X).
  { apply List.Forall_forall. intros c Hc. apply in_map_iff in Hc as (s & <- & Hs).
    rewrite List.Forall_forall in Hrange. now apply sextet_char_plain, Hrange. }
  assert (HXws : Forall (fun c => is_ascii_whitespace c = false) X).
  { apply List.Forall_forall. intros c Hc. apply in_map_iff in Hc as (s & <- & Hs).
    rewrite List.Forall_forall in Hrange. now apply sextet_char_plain, Hrange. }
  assert (Hp : padding (length bytes) = [] \/ padding (length bytes) = [pad]
               \/ padding (length bytes) = [pad; pad]) by tauto.
  rewrite filter_plain.
  2:{ apply Forall_app. split; [exact HXws|].
      destruct Hp as [-> | [-> | ->]]; repeat constructor. }
  assert (Hmod : (length (X ++ padding (length bytes)) mod 4 = 0)%nat).
  { rewrite length_app, HlenX.
    destruct Hpad as [[-> ->] | [[-> ->] | [-> ->]]]; simpl length.
    - replace (4 * k + 0 + 0)%nat with (4 * k)%nat by lia. apply mod4_multiple.
    - replace (4 * k + 2 + 2)%nat with (4 * S k)%nat by lia. apply mod4_multiple.
    - replace (4 * k + 3 + 1)%nat with (4 * S k)%nat by lia. apply mod4_multiple. }
  rewrite Hmod. change (0 =? 0)%nat with true. cbv iota.
  rewrite strip_padding_app by assumption.
  assert (Hmod' : (length X mod 4 =? 1)%nat = false).
  { rewrite HlenX, mod4_rest.
    destruct Hpad as [[-> _] | [[-> _] | [-> _]]]; reflexivity. }
  rewrite Hmod'. unfold X. rewrite all_sextets_chars by assumption.
  rewrite unsextets_sextets by assumption.
  unfold bytes. rewrite map_map.
  rewrite (map_ext _ (fun c => c)) by (intros c; apply char_of_code_code).
  now rewrite map_id, string_of_list_ascii_of_string.
Qed.

End Base64Facts.

(** ** The codec *)
Module CodecFacts.
Import Base64 Base64Facts Codec.
Local Open Scope Z_scope.

Definition is_int16 (v : Z) : Prop := -32768 <= v < 32768.

(** The value [decodeAudioData] stores for a 16-bit sample. *)
Definition sample (v : Z) : Q := inject_Z v / 32768.

(** *** [encode] and [decode] *)
Lemma append_String c (a b : string) : (String c a ++ b = String c (a ++ b))%string.
Proof. reflexivity. Qed.

Lemma append_empty_r (a : string) : (a ++ "" = a)%string.
Proof. induction a as [|c a IH]; [reflexivity|]. now rewrite append_String, IH. Qed.

Lemma append_assoc (a b c : string) : ((a ++ b) ++ c = a ++ (b ++ c))%string.
Proof.
  induction a as [|x a IH]; [reflexivity|]. now rewrite !append_String, IH.
Qed.

Lemma binary_loop (bytes : list Z) (acc : string) :
  fold_left (fun binary b => (binary ++ fromCharCode b)%string) bytes acc
  = (acc ++ string_of_list_ascii (map char_of_code bytes))%string.
Proof.
  revert acc. induction bytes as [|b bytes IH]; intros acc; simpl.
  - now rewrite append_empty_r.
  - rewrite IH, append_assoc. reflexivity.
Qed.

Lemma encode_btoa bytes :
  encode bytes = btoa (string_of_list_ascii (map char_of_code bytes)).
Proof. unfold encode. now rewrite binary_loop. Qed.

Lemma decode_encode bytes : Forall is_byte bytes -> decode (encode bytes) = Ok bytes.
Proof.
  intros H. unfold decode. rewrite encode_btoa, atob_btoa.
  rewrite list_ascii_of_string_of_list_ascii, map_map. f_equal.
  induction H as [|b bytes Hb _ IH]; simpl; [reflexivity|].
  rewrite IH, code_char_of_code by assumption.
  unfold ToUint8, is_byte in *. f_equal. divmod.
Qed.

(** *** 16-bit samples and the bytes of their buffer *)
Lemma wrap_int16_id v : is_int16 v -> wrap_int16 v = v.
Proof.
  unfold is_int16, wrap_int16. intros H. cbv zeta.
  destruct (Z.leb_spec 32768 (v mod 65536)); divmod.
Qed.

Lemma int16_view_bytes l :
  Forall is_int16 l -> int16_view (Uint8Array_of_Int16Array l) = l.
Proof.
  unfold Uint8Array_of_Int16Array.
  induction 1 as [|v l Hv _ IH]; simpl; [reflexivity|].
  rewrite IH. f_equal. unfold is_int16, wrap_int16 in *. cbv zeta.
  destruct (Z.leb_spec 32768
              (((v mod 65536) mod 256 + 256 * (v mod 65536 / 256)) mod 65536)); divmod.
Qed.

Lemma length_bytes l : length (Uint8Array_of_Int16Array l) = (2 * length l)%nat.
Proof.
  unfold Uint8Array_of_Int16Array. induction l as [|v l IH]; simpl; [reflexivity|].
  rewrite IH. lia.
Qed.

Lemma bytes_are_bytes l : Forall is_byte (Uint8Array_of_Int16Array l).
Proof.
  unfold Uint8Array_of_Int16Array. induction l as [|v l IH]; simpl; [constructor|].
  repeat (constructor; [unfold is_byte; divmod|]). exact IH.
Qed.

Lemma even_double n : Nat.even (2 * n) = true.
Proof. rewrite Nat.even_spec. now exists n. Qed.

Lemma Int16Array_of_bytes l :
  Forall is_int16 l -> Int16Array_of_buffer (Uint8Array_of_Int16Array l) = Ok l.
Proof.
  intros H. unfold Int16Array_of_buffer.
  now rewrite length_bytes, even_double, int16_view_bytes.
Qed.

(** *** [decodeAudioData] with one channel *)

(** The loop over [i] writes every cell once, in order. *)
Lemma fill_loop (f : nat -> Q) (m j : nat) (d : list Q) :
  length d = (j + m)%nat ->
  fold_left (fun data i => <[ i := f i ]> data) (seq j m) d
  = take j d ++ map f (seq j m).
Proof.
  revert j d. induction m as [|m IH]; intros j d Hlen; simpl.
  - rewrite app_nil_r, take_ge; [reflexivity|lia].
  - rewrite IH by (rewrite length_insert; lia).
    rewrite (take_S_r _ _ (f j)) by (apply list_lookup_insert_eq; lia).
    rewrite take_insert_ge by lia. now rewrite <- app_assoc.
Qed.

Lemma map_nth_seq {A B} (g : A -> B) (d : A) (l : list A) :
  map (fun i => g (nth i l d)) (seq 0 (length l)) = map g l.
Proof.
  induction l as [|x l IH]; simpl; [reflexivity|].
  f_equal. now rewrite <- seq_shift, map_map.
Qed.

Lemma fill_channel_mono (dataInt16 : list Z) :
  fill_channel dataInt16 1 (length dataInt16) 0 (repeat 0%Q (length dataInt16))
  = map sample dataInt16.
Proof.
  unfold fill_channel.
  rewrite (fill_loop (fun i => (inject_Z (nth (i * 1 + 0)%nat dataInt16 0%Z) / 32768)%Q))
    by (rewrite repeat_length; lia).
  rewrite take_0. simpl app.
  rewrite <- (map_nth_seq sample 0 dataInt16).
  apply map_ext. intros i. now rewrite Nat.mul_1_r, Nat.add_0_r.
Qed.

Lemma list_ind2 {A} (P : list A -> Prop) :
  P [] -> (forall a, P [a]) -> (forall a b l, P l -> P (a :: b :: l)) ->
  forall l, P l.
Proof.
  intros H0 H1 H2 l.
  enough (P l /\ forall a, P (a :: l)) by tauto.
  induction l as [|x l [IH0 IH1]]; auto.
Qed.

Lemma half_step n : (S (S n) / 2 = S (n / 2))%nat.
Proof.
  replace (S (S n)) with (n + 1 * 2)%nat by lia.
  rewrite Nat.div_add by discriminate. lia.
Qed.

Lemma length_int16_view data : length (int16_view data) = (length data / 2)%nat.
Proof.
  induction data as [| a | a b data IH] using list_ind2; try reflexivity.
  cbn [int16_view length]. now rewrite IH, half_step.
Qed.

Lemma half_zero n : Nat.even n = true -> (n / 2 =? 0)%nat = (n =? 0)%nat.
Proof.
  destruct n as [|[|n]]; try reflexivity; [discriminate|].
  intros _. now rewrite half_step.
Qed.

(** What [decodeAudioData] returns for one channel, by the byte length. *)
Lemma decodeAudioData_mono (data : list Z) (rate : Z) :
  0 < rate ->
  decodeAudioData data rate 1 =
    if Nat.even (length data) then
      if (length data =? 0)%nat then Throw NotSupportedError
      else Ok {| numberOfChannels := 1;
                 frames := length data / 2;
                 sampleRate := rate;
                 channelData := [map sample (int16_view data)] |}
    else Throw RangeError.
Proof.
  intros Hrate. apply Z.leb_gt in Hrate.
  unfold decodeAudioData, Int16Array_of_buffer.
  destruct (Nat.even (length data)) eqn:Heven; [|reflexivity].
  cbn [mbind result_bind]. rewrite Nat.div_1_r. unfold createBuffer.
  rewrite length_int16_view, (half_zero _ Heven), Hrate.
  destruct (length data =? 0)%nat eqn:Hzero; [reflexivity|].
  cbn [orb Nat.eqb mbind result_bind numberOfChannels frames sampleRate channelData repeat imap].
  f_equal. f_equal. f_equal.
  rewrite <- length_int16_view. apply fill_channel_mono.
Qed.

(** *** Quantisation *)
Lemma Qtrunc_bounds (q : Q) :
  ((0 <= q -> inject_Z (Qtrunc q) <= q /\ q < inject_Z (Qtrunc q) + 1) /\
   (q < 0 -> inject_Z (Qtrunc q) - 1 < q /\ q <= inject_Z (Qtrunc q)))%Q.
Proof.
  unfold Qtrunc. destruct (Qle_bool 0 q) eqn:E.
  - apply Qle_bool_iff in E. split; [intros _|intros H; exfalso; lra].
    split; [apply Qfloor_le|].
    pose proof (Qlt_floor q) as H. now rewrite inject_Z_plus in H.
  - assert (Hneg : (q < 0)%Q).
    { destruct (Qlt_le_dec q 0) as [H|H]; [exact H|].
      apply Qle_bool_iff in H. congruence. }
    split; [intros H; exfalso; lra|intros _]. split; [|apply Qle_ceiling].
    pose proof (Qceiling_lt q) as H.
    unfold Z.sub in H. now rewrite inject_Z_plus in H.
Qed.

Definition unit_sample (x : Q) : Prop := (-1 <= x /\ x < 1)%Q.

(** A sample in [[-1, 1)] is stored without wrap-around, and is read back
    within one quantisation step. *)
Lemma quantize_sample (x : Q) :
  unit_sample x ->
  is_int16 (ToInt16 (x * 32768)) /\
  (Qabs (x - sample (ToInt16 (x * 32768))) <= 1 / 32768)%Q.
Proof.
  intros [Hlo Hhi]. unfold ToInt16.
  destruct (Qtrunc_bounds (x * 32768)) as [Hpos Hneg].
  set (t := Qtrunc (x * 32768)) in *.
  assert (Ht : is_int16 t /\ (-1 <= x * 32768 - inject_Z t <= 1)%Q).
  { unfold is_int16.
    destruct (Qlt_le_dec (x * 32768) 0) as [Hy|Hy].
    - destruct (Hneg Hy) as [H1 H2].
      assert (H3 : (inject_Z (-32768) <= inject_Z t)%Q) by (change (inject_Z (-32768)) with (-32768)%Q; lra).
      assert (H4 : (inject_Z t < inject_Z 1)%Q) by (change (inject_Z 1) with 1%Q; lra).
      rewrite <- Zle_Qle in H3. rewrite <- Zlt_Qlt in H4.
      split; [lia|lra].
    - destruct (Hpos Hy) as [H1 H2].
      assert (H3 : (inject_Z (-1) < inject_Z t)%Q) by (change (inject_Z (-1)) with (-1)%Q; lra).
      assert (H4 : (inject_Z t < inject_Z 32768)%Q) by (change (inject_Z 32768) with 32768%Q; lra).
      rewrite <- Zlt_Qlt in H3, H4.
      split; [lia|lra]. }
  destruct Ht as [Hint Hstep]. rewrite (wrap_int16_id _ Hint).
  split; [exact Hint|].
  apply Qabs_Qle_condition. unfold sample, Qdiv.
  change (/ 32768)%Q with (1 # 32768)%Q. lra.
Qed.

(** Reading a decoded sample back as a 16-bit integer returns the integer:
    the division by 32768 loses nothing. *)
Lemma requantize_sample (v : Z) : is_int16 v -> ToInt16 (sample v * 32768) = v.
Proof.
  intros Hv. unfold ToInt16.
  assert (Hq : (sample v * 32768 == inject_Z v)%Q).
  { unfold sample, Qdiv. change (/ 32768)%Q with (1 # 32768)%Q. lra. }
  assert (Ht : Qtrunc (sample v * 32768) = v).
  { unfold Qtrunc. destruct (Qle_bool 0 (sample v * 32768)).
    - rewrite (Qfloor_comp _ _ Hq). apply Qfloor_Z.
    - rewrite (Qceiling_comp _ _ Hq). apply Qceiling_Z. }
  rewrite Ht. now apply wrap_int16_id.
Qed.

(** *** The round trip through both ends of the audio path *)

(** The chunk made from the frame [x] decodes to one channel that has the
    length of [x] and is within one quantisation step of it. *)
Definition round_trip (x : list Q) : Prop :=
  exists (buffer : AudioBuffer) (ys : list Q),
    decode_chunk (pcm_data x) = Ok buffer /\
    channelData buffer = [ys] /\
    length ys = length x /\
    Forall2 (fun a b => (Qabs (a - b) <= 1 / 32768)%Q) x ys.

Lemma quantize_range x : Forall unit_sample x -> Forall is_int16 (quantize x).
Proof.
  unfold quantize. induction 1 as [|a x Ha _ IH]; simpl; constructor; [|exact IH].
  now apply quantize_sample.
Qed.

Lemma quantize_close x :
  Forall unit_sample x ->
  Forall2 (fun a b => (Qabs (a - b) <= 1 / 32768)%Q) x (map sample (quantize x)).
Proof.
  unfold quantize. induction 1 as [|a x Ha _ IH]; simpl; constructor; [|exact IH].
  now apply quantize_sample.
Qed.

Lemma decode_chunk_pcm_data x :
  Forall unit_sample x ->
  decode_chunk (pcm_data x) =
    if (length x =? 0)%nat then Throw NotSupportedError
    else Ok {| numberOfChannels := 1;
               frames := length x;
               sampleRate := 24000;
               channelData := [map sample (quantize x)] |}.
Proof.
  intros Hx. unfold decode_chunk, pcm_data. cbv zeta.
  rewrite decode_encode by apply bytes_are_bytes.
  cbn [mbind result_bind]. rewrite decodeAudioData_mono by reflexivity.
  rewrite length_bytes, even_double, int16_view_bytes by now apply quantize_range.
  replace (2 * length (quantize x) / 2)%nat with (length (quantize x))
    by (rewrite Nat.mul_comm, Nat.div_mul; [reflexivity|discriminate]).
  unfold quantize at 1 2. rewrite length_map.
  destruct x; reflexivity.
Qed.

(** C1, as stated, fails on the empty frame: [createBuffer] rejects a
    buffer of zero frames, so the decoding end raises [NotSupportedError]
    instead of returning an empty array. *)
Lemma codec_round_trip_empty_frame :
  Forall unit_sample [] /\ ~ round_trip [].
Proof.
  split; [constructor|].
  intros (buffer & ys & Hdec & _). vm_compute in Hdec. discriminate Hdec.
Qed.

(** C1 (amended) - codec round trip: for every non-empty array [x] of
    samples with each value in [[-1, 1)], what [onaudioprocess] encodes
    (float to 16-bit integer to bytes to base64) is decoded by the receiving
    end (base64 to bytes to 16-bit integers, each divided by 32768) into one
    channel of the same length, each element of which differs from the
    corresponding element of [x] by at most 1/32768. *)
Theorem codec_round_trip (x : list Q) :
  x <> [] -> Forall unit_sample x -> round_trip x.
Proof.
  intros Hne Hx. unfold round_trip. rewrite (decode_chunk_pcm_data x Hx).
  destruct x as [|a x]; [congruence|]. cbn [length Nat.eqb].
  eexists _, _. split; [reflexivity|]. cbn [channelData].
  split; [reflexivity|]. split.
  - unfold quantize. now rewrite !length_map.
  - now apply quantize_close.
Qed.

Lemma codec_round_trip_witness :
  let x := [1 # 2; -1; 0; 32767 # 32768; -(1 # 3)]%Q in
  (x <> [] /\ Forall unit_sample x) /\ round_trip x.
Proof.
  cbv zeta.
  assert (H : Forall unit_sample [1 # 2; -1; 0; 32767 # 32768; -(1 # 3)]%Q)
    by (repeat constructor; vm_compute; congruence).
  split; [split; [discriminate|exact H]|].
  apply codec_round_trip; [discriminate|exact H].
Defined.

(** C10 - lossless transport coding: for every byte array [b], [decode]
    of [encode b] returns [b] exactly.  Around it, for every array [v] of
    16-bit samples, the bytes of [v] sent through [encode] and [decode] and
    read again as 16-bit integers are [v] exactly, and each of them is
    recovered from the float that [decodeAudioData] stores for it.  So the
    only step of the audio path that loses information is the quantisation
    of the captured samples. *)
Theorem transport_coding_lossless (b v : list Z) :
  Forall is_byte b -> Forall is_int16 v ->
  decode (encode b) = Ok b /\
  (decode (encode (Uint8Array_of_Int16Array v)) ≫= Int16Array_of_buffer) = Ok v /\
  map (fun y => ToInt16 (y * 32768)) (map sample v) = v.
Proof.
  intros Hb Hv. split; [now apply decode_encode|]. split.
  - rewrite decode_encode by apply bytes_are_bytes.
    cbn [mbind result_bind]. now apply Int16Array_of_bytes.
  - rewrite map_map. induction Hv as [|x v Hx _ IH]; [reflexivity|].
    cbn [map]. now rewrite IH, requantize_sample.
Qed.

Lemma transport_coding_lossless_witness :
  let b := [0; 127; 255; 10]%Z in
  let v := [-32768; 0; 32767; -1]%Z in
  (Forall is_byte b /\ Forall is_int16 v) /\
  (decode (encode b) = Ok b /\
   (decode (encode (Uint8Array_of_Int16Array v)) ≫= Int16Array_of_buffer) = Ok v /\
   map (fun y => ToInt16 (y * 32768)) (map sample v) = v).
Proof.
  cbv zeta.
  assert (Hb : Forall is_byte [0; 127; 255; 10]%Z)
    by (repeat constructor; unfold is_byte; lia).
  assert (Hv : Forall is_int16 [-32768; 0; 32767; -1]%Z)
    by (repeat constructor; unfold is_int16; lia).
  split; [split; assumption|].
  apply transport_coding_lossless; assumption.
Defined.

End CodecFacts.


(** ** The component *)
Module LiveFacts.
Import Codec CodecFacts Live.

(** *** Running handlers *)
Definition ok (s : State) (l : list Effect) : Outcome unit :=
  {| value := Ok tt; after := s; log := l |}.

Lemma bind_at {A B} (h : Handler A) (k : A -> Handler B) (s : State) :
  (h ≫= k) s =
    match value (h s) with
    | Ok a => {| value := value (k a (after (h s)));
                 after := after (k a (after (h s)));
                 log := log (h s) ++ log (k a (after (h s))) |}
    | Throw e => {| value := Throw e; after := after (h s); log := log (h s) |}
    end.
Proof. reflexivity. Qed.

(** Stopping every node of a list: one [SourceStop] each, nothing else. *)
Lemma for_each_emit {A} (g : A -> Effect) (l : list A) (s : State) :
  for_each l (fun x => emit (g x)) s = ok s (map g l).
Proof.
  revert s. induction l as [|x l IH]; intros s; [reflexivity|].
  cbn [for_each]. rewrite bind_at. cbn [emit value after log].
  rewrite IH. reflexivity.
Qed.

(** *** The stages of [onmessage] *)

(** The state after the three transcript conditionals. *)
Definition after_transcripts (message : LiveServerMessage) (s : State) : State :=
  let content := serverContent message in
  let s1 := match content ≫= outputTranscription with
            | Some t => set_currentOutputTranscription
                          (append_text (currentOutputTranscription s) t) s
            | None => s
            end in
  let s2 := match content ≫= inputTranscription with
            | Some t => set_currentInputTranscription
                          (append_text (currentInputTranscription s1) t) s1
            | None => s1
            end in
  if from_option turnComplete false content then
    let fullInput := currentInputTranscription s2 in
    let fullOutput := currentOutputTranscription s2 in
    set_currentOutputTranscription ""
      (set_currentInputTranscription ""
         (set_transcripts
            (transcripts s2
               ++ ((if truthy fullInput then [entry "user" fullInput] else [])
                   ++ (if truthy fullOutput then [entry "model" fullOutput] else [])))
            s2))
  else s2.

Lemma onmessage_stages (now : Q) (message : LiveServerMessage) (s : State) :
  onmessage now message s
  = (on_audio now message;;
     when (from_option interrupted false (serverContent message)) on_interrupted)
      (after_transcripts message s).
Proof.
  unfold onmessage, after_transcripts, on_outputTranscription, on_inputTranscription.
  cbv zeta.
  destruct (serverContent message ≫= outputTranscription),
           (serverContent message ≫= inputTranscription),
           (from_option turnComplete false (serverContent message));
    reflexivity.
Qed.

(** The transcript conditionals touch the transcript fields only. *)
Lemma after_transcripts_frame (message : LiveServerMessage) (s : State) :
  let s' := after_transcripts message s in
  isListening s' = isListening s /\ status s' = status s /\
  sessionPromiseRef s' = sessionPromiseRef s /\
  mediaStreamRef s' = mediaStreamRef s /\
  inputAudioContextRef s' = inputAudioContextRef s /\
  outputAudioContextRef s' = outputAudioContextRef s /\
  scriptProcessorRef s' = scriptProcessorRef s /\
  mediaStreamSourceRef s' = mediaStreamSourceRef s /\
  nextStartTime s' = nextStartTime s /\ sources s' = sources s /\
  closed s' = closed s /\ fresh s' = fresh s.
Proof.
  unfold after_transcripts. cbv zeta.
  destruct (serverContent message ≫= outputTranscription),
           (serverContent message ≫= inputTranscription),
           (from_option turnComplete false (serverContent message));
    repeat split; reflexivity.
Qed.

(** The state after a chunk has been scheduled. *)
Definition scheduled (now : Q) (buffer : AudioBuffer) (s : State) : State :=
  let start := Qmax (nextStartTime s) now in
  set_sources (set_add (fresh s) (sources s))
    (set_nextStartTime (start + duration buffer)
       (set_fresh (S (fresh s)) s)).

Lemma schedule_at (now : Q) (b : string) (s : State) :
  schedule now b s =
    match outputAudioContextRef s with
    | None => {| value := Throw TypeError; after := s; log := [] |}
    | Some _ =>
        match decode_chunk b with
        | Throw e => {| value := Throw e;
                        after := set_nextStartTime (Qmax (nextStartTime s) now) s;
                        log := [] |}
        | Ok buffer =>
            ok (scheduled now buffer s)
               [SourceStart (fresh s) (Qmax (nextStartTime s) now) buffer]
        end
    end.
Proof.
  unfold schedule. rewrite bind_at. cbn [get value after log].
  destruct (outputAudioContextRef s) as [ctx|] eqn:Hctx; [|reflexivity].
  cbn -[decode_chunk Qmax Qplus].
  destruct (decode_chunk b) as [buffer|e]; reflexivity.
Qed.

Lemma on_audio_at (now : Q) (message : LiveServerMessage) (s : State) :
  on_audio now message s =
    match base64Audio_of message with
    | Throw e => {| value := Throw e; after := s; log := [] |}
    | Ok (Some b) => if truthy b then schedule now b s else ok s []
    | Ok None => ok s []
    end.
Proof.
  unfold on_audio. rewrite bind_at. cbn [lift value after log].
  destruct (base64Audio_of message) as [[b|]|e]; try reflexivity.
  unfold when. destruct (truthy b); reflexivity.
Qed.

Lemma on_interrupted_at (s : State) :
  on_interrupted s
  = ok (set_nextStartTime 0 (set_sources [] s)) (map SourceStop (sources s)).
Proof.
  unfold on_interrupted. rewrite bind_at. cbn [get value after log].
  rewrite bind_at, for_each_emit. cbn. now rewrite app_nil_r.
Qed.

Definition interrupts (message : LiveServerMessage) : bool :=
  from_option interrupted false (serverContent message).

Lemma onmessage_at (now : Q) (message : LiveServerMessage) (s : State) :
  onmessage now message s =
    let a := on_audio now message (after_transcripts message s) in
    match value a with
    | Ok _ =>
        if interrupts message then
          ok (set_nextStartTime 0 (set_sources [] (after a)))
             (log a ++ map SourceStop (sources (after a)))
        else ok (after a) (log a)
    | Throw e => {| value := Throw e; after := after a; log := log a |}
    end.
Proof.
  rewrite onmessage_stages, bind_at. cbv zeta. unfold interrupts.
  destruct (value (on_audio now message (after_transcripts message s))) as [[]|e];
    [|reflexivity].
  destruct (from_option interrupted false (serverContent message)); unfold when.
  - now rewrite on_interrupted_at.
  - cbn. now rewrite app_nil_r.
Qed.

(** The buffer a message makes the handler schedule, if any. *)
Definition chunk_buffer (message : LiveServerMessage) : option AudioBuffer :=
  match base64Audio_of message with
  | Ok (Some b) =>
      if truthy b then
        match decode_chunk b with
        | Ok buffer => Some buffer
        | Throw _ => None
        end
      else None
  | _ => None
  end.

(** A message without audio: the handler cannot fail. *)
Lemma onmessage_quiet (now : Q) (message : LiveServerMessage) (s : State) :
  base64Audio_of message = Ok None ->
  onmessage now message s =
    let s1 := after_transcripts message s in
    if interrupts message then
      ok (set_nextStartTime 0 (set_sources [] s1)) (map SourceStop (sources s1))
    else ok s1 [].
Proof.
  intros H. rewrite onmessage_at, on_audio_at, H. reflexivity.
Qed.

(** A message with a well-formed chunk, while the output context exists. *)
Lemma onmessage_playable (now : Q) (message : LiveServerMessage) (s : State)
    (ctx : nat) (buffer : AudioBuffer) :
  outputAudioContextRef s = Some ctx ->
  chunk_buffer message = Some buffer ->
  onmessage now message s =
    let s1 := after_transcripts message s in
    let start := SourceStart (fresh s) (Qmax (nextStartTime s) now) buffer in
    if interrupts message then
      ok (set_nextStartTime 0 (set_sources [] (scheduled now buffer s1)))
         (start :: map SourceStop (set_add (fresh s) (sources s)))
    else ok (scheduled now buffer s1) [start].
Proof.
  intros Hctx Hbuf. unfold chunk_buffer in Hbuf.
  destruct (after_transcripts_frame message s)
    as (_ & _ & _ & _ & _ & Hout & _ & _ & Hnext & Hsrc & _ & Hfresh).
  rewrite onmessage_at, on_audio_at.
  destruct (base64Audio_of message) as [[b|]|e]; try discriminate.
  destruct (truthy b); [|discriminate].
  rewrite schedule_at, Hout, Hctx.
  destruct (decode_chunk b) as [buffer'|e]; [|discriminate].
  injection Hbuf as ->. cbv zeta. cbn [value after log ok].
  rewrite Hnext, Hfresh.
  destruct (interrupts message); [|reflexivity].
  cbn [app scheduled sources set_sources set_nextStartTime set_fresh].
  now rewrite Hsrc, Hfresh.
Qed.

(** A message whose chunk does not decode, while the output context exists. *)
Lemma onmessage_malformed (now : Q) (message : LiveServerMessage) (s : State)
    (ctx : nat) (b : string) (e : Exn) :
  outputAudioContextRef s = Some ctx ->
  base64Audio_of message = Ok (Some b) -> truthy b = true ->
  decode_chunk b = Throw e ->
  onmessage now message s =
    {| value := Throw e;
       after := set_nextStartTime (Qmax (nextStartTime s) now)
                  (after_transcripts message s);
       log := [] |}.
Proof.
  intros Hctx Hb Htruthy Hdec.
  destruct (after_transcripts_frame message s)
    as (_ & _ & _ & _ & _ & Hout & _ & _ & Hnext & _).
  rewrite onmessage_at, on_audio_at, Hb, Htruthy, schedule_at, Hout, Hctx, Hdec.
  cbn [value after log]. now rewrite Hnext.
Qed.

(** *** Concrete messages and states *)
Definition interrupt_signal : LiveServerMessage :=
  {| serverContent := Some {| modelTurn := None; turnComplete := false;
                              interrupted := true;
                              inputTranscription := None;
                              outputTranscription := None |} |}.

Definition audio_message (b : string) : LiveServerMessage :=
  {| serverContent :=
       Some {| modelTurn :=
                 Some {| parts := Some [ {| inlineData :=
                                              Some {| data := Some b;
                                                      mimeType := Some "audio/pcm;rate=24000" |} |} ] |};
               turnComplete := false; interrupted := false;
               inputTranscription := None; outputTranscription := None |} |}.

Definition messages (l : list (Q * LiveServerMessage)) : list Event :=
  map (fun nm => Message nm.1 nm.2) l.

(** A session that was started, granted the microphone and opened. *)
Definition connected : State := (run [Start; UserMediaSettled true; Open] initial).1.

(** The same session with two chunks of three frames scheduled at time 1. *)
Definition playing : State :=
  (run (messages [(1%Q, audio_message "AAABAAIA"); (1%Q, audio_message "AAABAAIA")])
     connected).1.

(** The start time and buffer of every node started in a log. *)
Definition starts (l : list Effect) : list (Q * AudioBuffer) :=
  omap (fun e => match e with
                 | SourceStart _ t buffer => Some (t, buffer)
                 | _ => None
                 end) l.

Lemma elem_of_set_add (x node : nat) (l : list nat) :
  x ∈ set_add node l <-> x = node \/ x ∈ l.
Proof.
  unfold set_add. case_decide.
  - split; [now right|]. intros [->|]; assumption.
  - rewrite elem_of_app, list_elem_of_singleton. tauto.
Qed.

Lemma elem_of_stops (node : nat) (l : list nat) :
  SourceStop node ∈ map SourceStop l <-> node ∈ l.
Proof.
  rewrite !list_elem_of_In, in_map_iff. split.
  - intros (x & [= ->] & Hx). exact Hx.
  - intros H. now exists node.
Qed.

Lemma start_not_in_stops (node : nat) (t : Q) (buffer : AudioBuffer) (l : list nat) :
  SourceStart node t buffer ∉ map SourceStop l.
Proof.
  rewrite list_elem_of_In, in_map_iff. intros (x & Hx & _). discriminate Hx.
Qed.

(** After the audio conditional, the active set holds what it held and the
    node that was started, if one was. *)
Lemma on_audio_sources (now : Q) (message : LiveServerMessage) (s : State) :
  let a := on_audio now message s in
  (forall node, node ∈ sources s -> node ∈ sources (after a)) /\
  (forall node t buffer, SourceStart node t buffer ∈ log a -> node ∈ sources (after a)).
Proof.
  cbv zeta. rewrite on_audio_at.
  destruct (base64Audio_of message) as [[b|]|e];
    try (split; [now auto|cbn; intros ? ? ? H; now apply elem_of_nil in H]).
  destruct (truthy b);
    try (split; [now auto|cbn; intros ? ? ? H; now apply elem_of_nil in H]).
  rewrite schedule_at.
  destruct (outputAudioContextRef s);
    try (split; [now auto|cbn; intros ? ? ? H; now apply elem_of_nil in H]).
  destruct (decode_chunk b) as [buffer|e];
    try (split; [now auto|cbn; intros ? ? ? H; now apply elem_of_nil in H]).
  cbn. split.
  - intros node H. apply elem_of_set_add. now right.
  - intros node t buf H. apply list_elem_of_singleton in H. injection H as -> _ _.
    apply elem_of_set_add. now left.
Qed.

(** The lifecycle part of the state: the flag, the status line and every
    reference to a session or device. *)
Definition same_session (s s' : State) : Prop :=
  isListening s' = isListening s /\ status s' = status s /\
  sessionPromiseRef s' = sessionPromiseRef s /\
  mediaStreamRef s' = mediaStreamRef s /\
  inputAudioContextRef s' = inputAudioContextRef s /\
  outputAudioContextRef s' = outputAudioContextRef s /\
  scriptProcessorRef s' = scriptProcessorRef s /\
  mediaStreamSourceRef s' = mediaStreamSourceRef s /\
  closed s' = closed s.

Lemma same_session_refl s : same_session s s.
Proof. repeat split. Qed.

Lemma same_session_trans s1 s2 s3 :
  same_session s1 s2 -> same_session s2 s3 -> same_session s1 s3.
Proof.
  unfold same_session. intros H1 H2.
  decompose [and] H1. decompose [and] H2. repeat split; congruence.
Qed.

(** [onmessage] never touches the lifecycle part, whether it returns or
    raises. *)
Lemma onmessage_same_session (now : Q) (message : LiveServerMessage) (s : State) :
  same_session s (after (onmessage now message s)).
Proof.
  apply same_session_trans with (after_transcripts message s).
  { pose proof (after_transcripts_frame message s) as H. cbv zeta in H.
    unfold same_session. tauto. }
  rewrite onmessage_at, on_audio_at. cbv zeta.
  generalize (after_transcripts message s). intros s1.
  destruct (base64Audio_of message) as [[b|]|e]; cbn;
    [destruct (truthy b); [rewrite schedule_at;
       destruct (outputAudioContextRef s1) eqn:Hout;
         [destruct (decode_chunk b)|]|]| |];
    cbn; try destruct (interrupts message); cbn; repeat split; try assumption.
Qed.

(** *** C3: the interrupt signal *)

(** The conditional for [interrupted] is the last of the handler: it runs
    unless the audio conditional before it raised.  It stops the nodes the
    set held and the node this message started, empties the set, and leaves
    0 in the cursor. *)
Lemma onmessage_interrupted (now : Q) (message : LiveServerMessage) (s : State) :
  interrupts message = true ->
  value (onmessage now message s) = Ok tt ->
  let o := onmessage now message s in
  (forall node,
      node ∈ sources s \/ (exists t buffer, SourceStart node t buffer ∈ log o) ->
      SourceStop node ∈ log o) /\
  sources (after o) = [] /\
  nextStartTime (after o) = 0%Q.
Proof.
  intros Hint Hok. cbv zeta.
  rewrite onmessage_at in *. cbv zeta in *. rewrite Hint in *.
  destruct (after_transcripts_frame message s)
    as (_ & _ & _ & _ & _ & _ & _ & _ & _ & Hsrc & _).
  destruct (on_audio_sources now message (after_transcripts message s)) as [Hold Hnew].
  destruct (value (on_audio now message (after_transcripts message s))) as [[]|e];
    [|discriminate].
  cbn [value after log ok sources nextStartTime set_nextStartTime set_sources].
  repeat split; try reflexivity.
  intros node H. apply elem_of_app. right. apply elem_of_stops.
  destruct H as [H | (t & buffer & H)].
  - apply Hold. now rewrite Hsrc.
  - apply elem_of_app in H as [H|H]; [now apply Hnew in H|].
    now apply start_not_in_stops in H.
Qed.

(** What handling a message that carries the interrupt signal achieves, with
    [reset] the value left in the cursor. *)
Definition interrupt_handled (reset : Q) (now : Q) (message : LiveServerMessage)
    (s : State) : Prop :=
  let o := onmessage now message s in
  (forall node,
      node ∈ sources s \/ (exists t buffer, SourceStart node t buffer ∈ log o) ->
      SourceStop node ∈ log o) /\
  sources (after o) = [] /\
  (nextStartTime (after o) == reset)%Q.

(** A message that carries the interrupt signal together with a chunk. *)
Definition interrupting_chunk (b : string) : LiveServerMessage :=
  {| serverContent :=
       Some {| modelTurn :=
                 Some {| parts := Some [ {| inlineData :=
                                              Some {| data := Some b;
                                                      mimeType := Some "audio/pcm;rate=24000" |} |} ] |};
               turnComplete := false; interrupted := true;
               inputTranscription := None; outputTranscription := None |} |}.

(** When the handler raises, it is the audio conditional that raised:
    nothing was started or stopped, the set is the one before, and the
    cursor has its value or the maximum of it and the clock. *)
Lemma onmessage_raised (now : Q) (message : LiveServerMessage) (s : State) (e : Exn) :
  value (onmessage now message s) = Throw e ->
  let o := onmessage now message s in
  value (on_audio now message (after_transcripts message s)) = Throw e /\
  log o = [] /\
  sources (after o) = sources s /\
  (nextStartTime (after o) = nextStartTime s
   \/ nextStartTime (after o) = Qmax (nextStartTime s) now).
Proof.
  cbv zeta. rewrite onmessage_at. cbv zeta.
  destruct (after_transcripts_frame message s)
    as (_ & _ & _ & _ & _ & _ & _ & _ & Hnext & Hsrc & _).
  rewrite <- Hnext, <- Hsrc. clear Hnext Hsrc. rewrite on_audio_at.
  generalize (after_transcripts message s). intros s1.
  destruct (base64Audio_of message) as [[b|]|e'];
    [destruct (truthy b); [rewrite schedule_at;
       destruct (outputAudioContextRef s1);
         [destruct (decode_chunk b)|]|]| |];
    cbn [value after log ok]; try destruct (interrupts message);
    cbn [value after log ok sources nextStartTime set_nextStartTime];
    intros H; try discriminate H; auto.
Qed.

(** C3, as stated, fails: with the output clock at 5, the cursor is left
    at 0, not at 5.  And when the audio of the message that carries the
    signal cannot be decoded, the handler is left before the signal is
    looked at: nothing is stopped and the set is kept. *)
Lemma interrupt_does_not_reset_to_now :
  (interrupts interrupt_signal = true /\
   value (onmessage 5 interrupt_signal playing) = Ok tt /\
   ~ interrupt_handled 5 5 interrupt_signal playing) /\
  (interrupts (interrupting_chunk "AA==") = true /\
   value (onmessage 5 (interrupting_chunk "AA==") playing) = Throw RangeError /\
   log (onmessage 5 (interrupting_chunk "AA==") playing) = [] /\
   sources (after (onmessage 5 (interrupting_chunk "AA==") playing)) = [6; 7]%nat /\
   forall reset, ~ interrupt_handled reset 5 (interrupting_chunk "AA==") playing).
Proof.
  split.
  - split; [reflexivity|]. split; [reflexivity|].
    intros (_ & _ & H). vm_compute in H. discriminate H.
  - do 4 (split; [reflexivity|]).
    intros reset (_ & H & _). vm_compute in H. discriminate H.
Qed.

(** C3 (amended) - interrupt semantics: handling the Interrupted signal
    stops every node of the active set (those that were playing or scheduled
    and the one this message started), clears the set, and resets the
    [nextStartTime] cursor to 0.  The signal is handled whenever the handler
    of the message that carries it returns; the handler raises only when the
    audio of the same message does (a part without data, no output context,
    a chunk that cannot be decoded), and then the signal is not handled:
    nothing is started or stopped, the set is kept, and the cursor keeps its
    value or is raised to the clock reading. *)
Theorem interrupt_semantics (now : Q) (message : LiveServerMessage) (s : State) :
  interrupts message = true ->
  let o := onmessage now message s in
  match value o with
  | Ok _ =>
      interrupt_handled 0 now message s /\ nextStartTime (after o) = 0%Q
  | Throw e =>
      value (on_audio now message (after_transcripts message s)) = Throw e /\
      log o = [] /\
      sources (after o) = sources s /\
      (nextStartTime (after o) = nextStartTime s
       \/ nextStartTime (after o) = Qmax (nextStartTime s) now)
  end.
Proof.
  intros Hint. cbv zeta.
  destruct (value (onmessage now message s)) as [[]|e] eqn:Hvalue.
  - unfold interrupt_handled.
    destruct (onmessage_interrupted now message s Hint Hvalue) as (H1 & H2 & H3).
    cbv zeta in *. rewrite H3. repeat split; assumption || reflexivity.
  - exact (onmessage_raised now message s e Hvalue).
Qed.

Lemma interrupt_semantics_witness :
  (interrupts interrupt_signal = true /\
   interrupt_handled 0 5 interrupt_signal playing /\
   nextStartTime (after (onmessage 5 interrupt_signal playing)) = 0%Q) /\
  (interrupts (interrupting_chunk "AA==") = true /\
   log (onmessage 5 (interrupting_chunk "AA==") playing) = [] /\
   sources (after (onmessage 5 (interrupting_chunk "AA==") playing)) = sources playing).
Proof.
  split.
  - split; [reflexivity|].
    exact (interrupt_semantics 5 interrupt_signal playing eq_refl).
  - split; [reflexivity|].
    destruct (interrupt_semantics 5 (interrupting_chunk "AA==") playing eq_refl)
      as (_ & Hlog & Hsources & _).
    split; [exact Hlog|exact Hsources].
Defined.

(** *** C4: the enqueue that follows an interrupt *)
Lemma run_cons (ev : Event) (rest : list Event) (s : State) :
  run (ev :: rest) s
  = ((run rest (after (handle ev s))).1,
     log (handle ev s) ++ (run rest (after (handle ev s))).2).
Proof. cbn [run]. now destruct (run rest (after (handle ev s))). Qed.

Definition quiet_message (nm : Q * LiveServerMessage) : Prop :=
  base64Audio_of nm.2 = Ok None.

(** Messages without audio leave a cursor that is 0 at 0. *)
Lemma run_quiet (quiet : list (Q * LiveServerMessage)) (s : State) :
  Forall quiet_message quiet ->
  nextStartTime s = 0%Q ->
  same_session s (run (messages quiet) s).1 /\
  nextStartTime (run (messages quiet) s).1 = 0%Q.
Proof.
  intros H. revert s. induction H as [|[now m] quiet Hm _ IH]; intros s Hs.
  - split; [apply same_session_refl|exact Hs].
  - unfold messages. cbn [map]. rewrite run_cons. cbn [fst snd handle].
    fold (messages quiet).
    assert (Hnext : nextStartTime (after (onmessage now m s)) = 0%Q).
    { unfold quiet_message in Hm. cbn [snd] in Hm.
      rewrite (onmessage_quiet _ _ _ Hm). cbv zeta.
      destruct (after_transcripts_frame m s)
        as (_ & _ & _ & _ & _ & _ & _ & _ & Hn & _).
      destruct (interrupts m); cbn; [reflexivity|congruence]. }
    destruct (IH _ Hnext) as [Hsame Hzero]. split; [|exact Hzero].
    eapply same_session_trans; [apply onmessage_same_session|exact Hsame].
Qed.

Lemma starts_playable (now : Q) (message : LiveServerMessage) (s : State)
    (ctx : nat) (buffer : AudioBuffer) :
  outputAudioContextRef s = Some ctx ->
  chunk_buffer message = Some buffer ->
  starts (log (onmessage now message s)) = [(Qmax (nextStartTime s) now, buffer)].
Proof.
  intros Hctx Hbuf. rewrite (onmessage_playable _ _ _ _ _ Hctx Hbuf). cbv zeta.
  destruct (interrupts message); [|reflexivity].
  cbn [log ok starts omap list_omap]. f_equal.
  induction (set_add (fresh s) (sources s)) as [|x l IH]; [reflexivity|exact IH].
Qed.

(** C4 - interruption resets the cursor as the next enqueue observes it:
    after a message with the Interrupted signal has been handled, and after
    any messages without audio, the next chunk is started at the reading of
    the output clock taken when it is enqueued (a reading of [currentTime] is
    never negative), whatever the cursor was before the interrupt. *)
Theorem interruption_resets_cursor (s : State) (ctx : nat)
    (now0 : Q) (signal : LiveServerMessage)
    (quiet : list (Q * LiveServerMessage))
    (now : Q) (message : LiveServerMessage) (buffer : AudioBuffer) :
  outputAudioContextRef s = Some ctx ->
  interrupts signal = true ->
  value (onmessage now0 signal s) = Ok tt ->
  Forall quiet_message quiet ->
  chunk_buffer message = Some buffer ->
  (0 <= now)%Q ->
  let s1 := after (onmessage now0 signal s) in
  let s2 := (run (messages quiet) s1).1 in
  exists t, starts (log (onmessage now message s2)) = [(t, buffer)] /\ (t == now)%Q.
Proof.
  intros Hctx Hint Hok Hquiet Hbuf Hnow s1 s2.
  destruct (onmessage_interrupted _ _ _ Hint Hok) as (_ & _ & Hzero). fold s1 in Hzero.
  destruct (run_quiet quiet s1 Hquiet Hzero) as [Hsame Hzero2]. fold s2 in Hsame, Hzero2.
  assert (Hctx2 : outputAudioContextRef s2 = Some ctx).
  { pose proof (onmessage_same_session now0 signal s) as H1. fold s1 in H1.
    unfold same_session in Hsame, H1. decompose [and] Hsame. decompose [and] H1.
    congruence. }
  exists (Qmax (nextStartTime s2) now). split.
  - now apply starts_playable with ctx.
  - rewrite Hzero2. now apply Q.max_r.
Qed.

Lemma interruption_resets_cursor_witness :
  let quiet := [(6, interrupt_signal)]%Q in
  (outputAudioContextRef playing = Some 2%nat /\
   interrupts interrupt_signal = true /\
   value (onmessage 5 interrupt_signal playing) = Ok tt /\
   Forall quiet_message quiet /\
   chunk_buffer (audio_message "AAABAAIA") =
     Some {| numberOfChannels := 1; frames := 3; sampleRate := 24000;
             channelData := [[0 # 32768; 1 # 32768; 2 # 32768]]%Q |} /\
   (0 <= 7 # 10)%Q) /\
  exists t,
    starts (log (onmessage (7 # 10) (audio_message "AAABAAIA")
                   (run (messages quiet) (after (onmessage 5 interrupt_signal playing))).1))
    = [(t, {| numberOfChannels := 1; frames := 3; sampleRate := 24000;
              channelData := [[0 # 32768; 1 # 32768; 2 # 32768]]%Q |})] /\
    (t == 7 # 10)%Q.
Proof.
  cbv zeta.
  assert (Hq : Forall quiet_message [(6, interrupt_signal)]%Q)
    by (repeat constructor).
  assert (Hnow : (0 <= 7 # 10)%Q) by (vm_compute; discriminate).
  split; [repeat split; (reflexivity || assumption)|].
  exact (interruption_resets_cursor playing 2 5 interrupt_signal
           [(6, interrupt_signal)]%Q (7 # 10) (audio_message "AAABAAIA") _
           eq_refl eq_refl eq_refl Hq eq_refl Hnow).
Defined.

(** *** C5: a chunk that does not decode *)
Lemma odd_not_even n : Nat.odd n = true <-> Nat.even n = false.
Proof. unfold Nat.odd. now destruct (Nat.even n). Qed.

(** When the decoding of a chunk's bytes fails, with the one channel of the
    handler. *)
Lemma decode_chunk_bytes (b : string) (bytes : list Z) :
  decode b = Ok bytes ->
  (decode_chunk b = Throw RangeError <-> Nat.odd (length bytes) = true) /\
  (decode_chunk b = Throw NotSupportedError <-> length bytes = 0%nat) /\
  ((exists buffer, decode_chunk b = Ok buffer)
   <-> Nat.even (length bytes) = true /\ length bytes <> 0%nat).
Proof.
  intros Hb. unfold decode_chunk. rewrite Hb. cbn [mbind result_bind].
  rewrite decodeAudioData_mono, odd_not_even by reflexivity.
  destruct (Nat.even (length bytes)) eqn:Heven.
  - destruct (Nat.eqb_spec (length bytes) 0) as [Hz|Hz]; split; [| split | | split].
    + split; discriminate.
    + split; auto.
    + split; [intros [? H]; discriminate H|intros [_ H]; contradiction].
    + split; discriminate.
    + split; [discriminate|contradiction].
    + split; [auto|eexists; reflexivity].
  - assert (Hz : length bytes <> 0%nat)
      by (intros Hz; rewrite Hz in Heven; discriminate).
    split; [|split].
    + split; reflexivity.
    + split; [discriminate|contradiction].
    + split; [intros [? H]; discriminate H|intros [H _]; discriminate H].
Qed.

(** C5, as stated, fails: a chunk of one byte makes the decoding raise
    [RangeError], and the exception leaves the message handler. *)
Lemma malformed_chunk_leaves_handler :
  decode "AA==" = Ok [0%Z] /\
  (length [0%Z] mod (2 * 1) <> 0)%nat /\
  outputAudioContextRef connected = Some 2%nat /\
  value (onmessage 1 (audio_message "AA==") connected) = Throw RangeError /\
  ~ value (onmessage 1 (audio_message "AA==") connected) = Ok tt.
Proof.
  repeat split; try reflexivity; discriminate.
Qed.

(** C5 (amended) - malformed chunks: with the single channel the handler
    uses, decoding the bytes of a chunk raises [RangeError] exactly when
    their number is odd, and [NotSupportedError] exactly when there are none.
    No failure of the decoding is caught: the exception leaves the message
    handler; nothing is started or stopped, so the chunk is dropped and the
    conditional for [interrupted] of the same message is skipped; the cursor
    has already been raised to the maximum of itself and the clock; the
    session, the devices, the active set and the listening flag are as
    before, and later messages are handled as usual. *)
Theorem malformed_chunk_raises (now : Q) (message : LiveServerMessage) (s : State)
    (ctx : nat) (b : string) :
  outputAudioContextRef s = Some ctx ->
  base64Audio_of message = Ok (Some b) -> truthy b = true ->
  (forall bytes, decode b = Ok bytes ->
     (decode_chunk b = Throw RangeError <-> Nat.odd (length bytes) = true) /\
     (decode_chunk b = Throw NotSupportedError <-> length bytes = 0%nat) /\
     ((exists buffer, decode_chunk b = Ok buffer)
      <-> Nat.even (length bytes) = true /\ length bytes <> 0%nat)) /\
  (forall e, decode_chunk b = Throw e ->
     let o := onmessage now message s in
     value o = Throw e /\ log o = [] /\
     same_session s (after o) /\
     sources (after o) = sources s /\ fresh (after o) = fresh s /\
     nextStartTime (after o) = Qmax (nextStartTime s) now).
Proof.
  intros Hctx Hb Htruthy. split; [apply decode_chunk_bytes|].
  intros e He o. pose proof (onmessage_same_session now message s) as Hsame.
  fold o in Hsame. subst o.
  rewrite (onmessage_malformed _ _ _ _ _ _ Hctx Hb Htruthy He) in *.
  destruct (after_transcripts_frame message s)
    as (_ & _ & _ & _ & _ & _ & _ & _ & _ & Hsrc & _ & Hfresh).
  cbn. repeat split; try assumption; apply Hsame.
Qed.

Lemma malformed_chunk_raises_witness :
  (outputAudioContextRef connected = Some 2%nat /\
   base64Audio_of (audio_message "AA==") = Ok (Some "AA=="%string) /\
   truthy "AA==" = true /\
   decode "AA==" = Ok [0%Z] /\
   decode_chunk "AA==" = Throw RangeError) /\
  (Nat.odd (length [0%Z]) = true /\
   value (onmessage 1 (audio_message "AA==") connected) = Throw RangeError /\
   log (onmessage 1 (audio_message "AA==") connected) = [] /\
   sources (after (onmessage 1 (audio_message "AA==") connected)) = sources connected).
Proof.
  split; [repeat split|].
  destruct (malformed_chunk_raises 1 (audio_message "AA==") connected 2 "AA=="
              eq_refl eq_refl eq_refl) as [Hwhen Hthen].
  destruct (Hwhen [0%Z] eq_refl) as (Hodd & _ & _).
  destruct (Hthen RangeError eq_refl) as (Hv & Hl & _ & Hs & _).
  split; [now apply Hodd|]. split; [exact Hv|]. split; [exact Hl|exact Hs].
Defined.

(** *** C2: start times of consecutive chunks *)

(** A message that makes the handler schedule a chunk and carries no
    interrupt. *)
Definition playable (nm : Q * LiveServerMessage) : Prop :=
  is_Some (chunk_buffer nm.2) /\ interrupts nm.2 = false.

(** The start times the handler computes from a cursor, and the cursor it
    leaves. *)
Fixpoint plan (cursor : Q) (chunks : list (Q * LiveServerMessage)) : list (Q * AudioBuffer) :=
  match chunks with
  | [] => []
  | (now, message) :: rest =>
      match chunk_buffer message with
      | Some buffer =>
          let start := Qmax cursor now in
          (start, buffer) :: plan (start + duration buffer) rest
      | None => plan cursor rest
      end
  end.

Fixpoint cursor_after (cursor : Q) (chunks : list (Q * LiveServerMessage)) : Q :=
  match chunks with
  | [] => cursor
  | (now, message) :: rest =>
      match chunk_buffer message with
      | Some buffer => cursor_after (Qmax cursor now + duration buffer) rest
      | None => cursor_after cursor rest
      end
  end.

Lemma starts_start (node : nat) (t : Q) (buffer : AudioBuffer) (l : list Effect) :
  starts (SourceStart node t buffer :: l) = (t, buffer) :: starts l.
Proof. reflexivity. Qed.

Lemma run_playable (chunks : list (Q * LiveServerMessage)) (s : State) (ctx : nat) :
  outputAudioContextRef s = Some ctx ->
  Forall playable chunks ->
  starts (run (messages chunks) s).2 = plan (nextStartTime s) chunks /\
  nextStartTime (run (messages chunks) s).1 = cursor_after (nextStartTime s) chunks.
Proof.
  intros Hctx H. revert s Hctx.
  induction H as [|[now m] chunks [[buffer Hbuf] Hint] _ IH]; intros s Hctx.
  - split; reflexivity.
  - unfold messages. cbn [map]. rewrite run_cons. fold (messages chunks).
    cbn [fst snd handle plan cursor_after] in *. rewrite Hbuf.
    pose proof (onmessage_same_session now m s) as Hsame.
    rewrite (onmessage_playable _ _ _ _ _ Hctx Hbuf) in *. cbv zeta in *.
    rewrite Hint in *. cbn [after log ok] in *.
    destruct (after_transcripts_frame m s)
      as (_ & _ & _ & _ & _ & Hout & _ & _ & Hnext & _).
    assert (Hctx' : outputAudioContextRef (scheduled now buffer (after_transcripts m s))
                    = Some ctx) by (cbn; congruence).
    destruct (IH _ Hctx') as [IH1 IH2].
    cbn [app]. rewrite starts_start, IH1, IH2.
    cbn [scheduled nextStartTime set_sources set_nextStartTime].
    rewrite Hnext. split; reflexivity.
Qed.

Lemma chunk_buffer_duration (message : LiveServerMessage) (buffer : AudioBuffer) :
  chunk_buffer message = Some buffer -> (0 <= duration buffer)%Q.
Proof.
  unfold chunk_buffer, decode_chunk.
  destruct (base64Audio_of message) as [[b|]|]; try discriminate.
  destruct (truthy b); [|discriminate].
  destruct (decode b) as [bytes|]; [|discriminate].
  cbn [mbind result_bind]. rewrite decodeAudioData_mono by reflexivity.
  destruct (Nat.even (length bytes)); [|discriminate].
  destruct (length bytes =? 0)%nat; [discriminate|].
  intros [= <-]. unfold duration. cbn [frames sampleRate].
  apply Qle_shift_div_l; [reflexivity|].
  unfold Qle. cbn. lia.
Qed.

Lemma plan_length (cursor : Q) (chunks : list (Q * LiveServerMessage)) :
  Forall playable chunks -> length (plan cursor chunks) = length chunks.
Proof.
  intros H. revert cursor.
  induction H as [|[now m] chunks [[buffer Hbuf] _] _ IH]; intros cursor;
    [reflexivity|].
  cbn [snd] in Hbuf. cbn [plan]. rewrite Hbuf. cbn [length]. now rewrite IH.
Qed.

Lemma plan_lookup (cursor : Q) (chunks : list (Q * LiveServerMessage)) (i : nat)
    (now t : Q) (m : LiveServerMessage) (buffer : AudioBuffer) :
  Forall playable chunks ->
  chunks !! i = Some (now, m) ->
  plan cursor chunks !! i = Some (t, buffer) ->
  chunk_buffer m = Some buffer /\ (now <= t)%Q /\ (i = 0%nat -> t = Qmax cursor now).
Proof.
  intros H. revert cursor i.
  induction H as [|[now0 m0] chunks [[buffer0 Hbuf] _] _ IH]; intros cursor i Hi Hp;
    [discriminate|].
  cbn [snd] in Hbuf. cbn [plan] in Hp. rewrite Hbuf in Hp. destruct i as [|i].
  - cbn in Hi, Hp. injection Hi as -> ->. injection Hp as <- <-.
    split; [exact Hbuf|]. split; [apply Q.le_max_r|reflexivity].
  - cbn in Hi, Hp. destruct (IH _ _ Hi Hp) as (H1 & H2 & _).
    split; [exact H1|]. split; [exact H2|discriminate].
Qed.

Lemma plan_consecutive (cursor : Q) (chunks : list (Q * LiveServerMessage)) (i : nat)
    (t now' t' : Q) (m' : LiveServerMessage) (buffer buffer' : AudioBuffer) :
  Forall playable chunks ->
  plan cursor chunks !! i = Some (t, buffer) ->
  chunks !! S i = Some (now', m') ->
  plan cursor chunks !! S i = Some (t', buffer') ->
  t' = Qmax (t + duration buffer) now'.
Proof.
  intros H. revert cursor i.
  induction H as [|[now0 m0] chunks [[buffer0 Hbuf] _] Hrest IH]; intros cursor i Hi Hn Hp;
    [discriminate|].
  cbn [snd] in Hbuf. cbn [plan] in Hi, Hp. rewrite Hbuf in Hi, Hp. destruct i as [|i].
  - cbn in Hi, Hn, Hp. injection Hi as <- <-.
    now destruct (plan_lookup _ _ _ _ _ _ _ Hrest Hn Hp) as (_ & _ & ->).
  - cbn in Hi, Hn, Hp. exact (IH _ _ Hi Hn Hp).
Qed.

Lemma cursor_after_le (cursor : Q) (chunks : list (Q * LiveServerMessage)) :
  Forall playable chunks -> (cursor <= cursor_after cursor chunks)%Q.
Proof.
  intros H. revert cursor.
  induction H as [|[now m] chunks [[buffer Hbuf] _] _ IH]; intros cursor.
  - apply Qle_refl.
  - cbn [snd] in Hbuf. cbn [cursor_after]. rewrite Hbuf.
    eapply Qle_trans; [|apply IH].
    pose proof (chunk_buffer_duration _ _ Hbuf). pose proof (Q.le_max_l cursor now).
    lra.
Qed.

(** The claim of C2 on a list of start times: each node starts where the
    one before it ends. *)
Definition gapless (sts : list (Q * AudioBuffer)) : Prop :=
  forall i t buffer t' buffer',
    sts !! i = Some (t, buffer) -> sts !! S i = Some (t', buffer') ->
    (t' == t + duration buffer)%Q.

(** C2, as stated, fails: a chunk of three frames enqueued at clock 1 ends
    at 1 + 3/24000; the next one, enqueued at clock 5, starts at 5. *)
Lemma late_chunk_leaves_a_gap :
  let chunks := [(1, audio_message "AAABAAIA"); (5, audio_message "AAABAAIA")]%Q in
  outputAudioContextRef connected = Some 2%nat /\
  Forall playable chunks /\
  ~ gapless (starts (run (messages chunks) connected).2).
Proof.
  cbv zeta. split; [reflexivity|]. split.
  - repeat constructor; eexists; reflexivity.
  - intros H. specialize (H 0%nat _ _ _ _ eq_refl eq_refl).
    vm_compute in H. discriminate H.
Qed.

(** C2 (amended) - playback ordering: for any sequence of chunks enqueued
    without an intervening interrupt, chunk [i+1] starts at the maximum of
    the end of chunk [i], [start(i) + d(i)], and the reading of the output
    clock when chunk [i+1] is enqueued.  So it never starts before chunk [i]
    ends, and starts exactly there whenever it is enqueued no later than
    that; every chunk starts at or after the clock reading of its own
    enqueue; and the [nextStartTime] cursor is never decreased. *)
Theorem playback_ordering (s : State) (ctx : nat) (chunks : list (Q * LiveServerMessage)) :
  outputAudioContextRef s = Some ctx ->
  Forall playable chunks ->
  let r := run (messages chunks) s in
  let sts := starts r.2 in
  length sts = length chunks /\
  (forall i now m t buffer,
      chunks !! i = Some (now, m) -> sts !! i = Some (t, buffer) ->
      chunk_buffer m = Some buffer /\ (now <= t)%Q) /\
  (forall i t buffer now' m' t' buffer',
      sts !! i = Some (t, buffer) ->
      chunks !! S i = Some (now', m') -> sts !! S i = Some (t', buffer') ->
      t' = Qmax (t + duration buffer) now' /\
      (t + duration buffer <= t')%Q /\
      ((now' <= t + duration buffer)%Q -> (t' == t + duration buffer)%Q)) /\
  (nextStartTime s <= nextStartTime r.1)%Q.
Proof.
  intros Hctx Hplay r sts.
  destruct (run_playable chunks s ctx Hctx Hplay) as [Hsts Hcur].
  subst sts r. rewrite Hsts, Hcur. split; [now apply plan_length|].
  split; [|split].
  - intros i now m t buffer Hi Hp.
    destruct (plan_lookup _ _ _ _ _ _ _ Hplay Hi Hp) as (H1 & H2 & _). now split.
  - intros i t buffer now' m' t' buffer' Hi Hn Hp.
    rewrite (plan_consecutive _ _ _ _ _ _ _ _ _ Hplay Hi Hn Hp).
    split; [reflexivity|]. split; [apply Q.le_max_l|apply Q.max_l].
  - now apply cursor_after_le.
Qed.

Lemma playback_ordering_witness :
  let chunks := [(1, audio_message "AAABAAIA"); (5, audio_message "AAABAAIA");
                 (5, audio_message "AAABAAIA")]%Q in
  let sts := starts (run (messages chunks) connected).2 in
  (outputAudioContextRef connected = Some 2%nat /\ Forall playable chunks) /\
  (length sts = 3%nat /\
   (forall t buffer t' buffer',
       sts !! 1%nat = Some (t, buffer) -> sts !! 2%nat = Some (t', buffer') ->
       t' = Qmax (t + duration buffer) 5) /\
   (nextStartTime connected <= nextStartTime (run (messages chunks) connected).1)%Q).
Proof.
  cbv zeta.
  assert (Hplay : Forall playable
            [(1, audio_message "AAABAAIA"); (5, audio_message "AAABAAIA");
             (5, audio_message "AAABAAIA")]%Q)
    by (repeat constructor; eexists; reflexivity).
  split; [split; [reflexivity|exact Hplay]|].
  destruct (playback_ordering connected 2 _ eq_refl Hplay) as (Hlen & _ & Hnext & Hcur).
  split; [exact Hlen|]. split; [|exact Hcur].
  intros t buffer t' buffer' H1 H2.
  exact (proj1 (Hnext 1%nat t buffer 5%Q (audio_message "AAABAAIA") t' buffer'
                  H1 eq_refl H2)).
Defined.

(** *** What [stopConversation] does *)

(** A context reference that [stopConversation] will close: set, and not
    yet closed. *)
Definition open_context (r : option nat) (s : State) : option nat :=
  match r with
  | Some ctx => if decide (ctx ∈ closed s) then None else Some ctx
  | None => None
  end.

(** What one call of [stopConversation] releases, in order. *)
Definition released (s : State) : list Effect :=
  option_list (SessionClose <$> sessionPromiseRef s)
  ++ option_list (TracksStop <$> mediaStreamRef s)
  ++ option_list (NodeDisconnect <$> scriptProcessorRef s)
  ++ option_list (NodeDisconnect <$> mediaStreamSourceRef s)
  ++ option_list (ContextClose <$> open_context (inputAudioContextRef s) s)
  ++ match open_context (outputAudioContextRef s) s with
     | Some ctx => map SourceStop (sources s) ++ [ContextClose ctx]
     | None => []
     end.

(** The state it leaves. *)
Definition stopped (s : State) : State :=
  {| isListening := false;
     status := "Conversation ended.";
     transcripts := transcripts s;
     sessionPromiseRef := None;
     mediaStreamRef := None;
     inputAudioContextRef :=
       match open_context (inputAudioContextRef s) s with
       | Some _ => None
       | None => inputAudioContextRef s
       end;
     outputAudioContextRef :=
       match open_context (outputAudioContextRef s) s with
       | Some _ => None
       | None => outputAudioContextRef s
       end;
     scriptProcessorRef := None;
     mediaStreamSourceRef := None;
     currentInputTranscription := currentInputTranscription s;
     currentOutputTranscription := currentOutputTranscription s;
     nextStartTime := nextStartTime s;
     sources := match open_context (outputAudioContextRef s) s with
                | Some _ => []
                | None => sources s
                end;
     closed := closed s;
     fresh := fresh s |}.

(** Equations for running a handler one step at a time. *)
Definition prepend {A} (l : list Effect) (o : Outcome A) : Outcome A :=
  {| value := value o; after := after o; log := l ++ log o |}.

Lemma get_bind {B} (k : State -> Handler B) (s : State) : (get ≫= k) s = k s s.
Proof. reflexivity. Qed.

Lemma ret_bind {A B} (a : A) (k : A -> Handler B) (s : State) : (mret a ≫= k) s = k a s.
Proof. reflexivity. Qed.

Lemma modify_bind {B} (f : State -> State) (k : unit -> Handler B) (s : State) :
  (modify f ≫= k) s = k tt (f s).
Proof. reflexivity. Qed.

Lemma emit_bind {B} (e : Effect) (k : unit -> Handler B) (s : State) :
  (emit e ≫= k) s = prepend [e] (k tt s).
Proof. reflexivity. Qed.

Lemma for_each_emit_bind {A B} (g : A -> Effect) (l : list A) (k : unit -> Handler B)
    (s : State) :
  (for_each l (fun x => emit (g x)) ≫= k) s = prepend (map g l) (k tt s).
Proof. rewrite bind_at, for_each_emit. reflexivity. Qed.

Lemma bind_assoc {A B C} (h : Handler A) (k : A -> Handler B) (k' : B -> Handler C)
    (s : State) :
  ((h ≫= k) ≫= k') s = (h ≫= (fun a => k a ≫= k')) s.
Proof.
  rewrite !bind_at. destruct (value (h s)) as [a|e]; [|reflexivity].
  cbn [value after log]. rewrite bind_at.
  destruct (value (k a (after (h s)))) as [b|e]; [|reflexivity].
  cbn [value after log]. now rewrite app_assoc.
Qed.

Lemma prepend_prepend {A} (l l' : list Effect) (o : Outcome A) :
  prepend l (prepend l' o) = prepend (l ++ l') o.
Proof. unfold prepend. cbn [value after log]. now rewrite app_assoc. Qed.

Lemma prepend_ok (l l' : list Effect) (s : State) : prepend l (ok s l') = ok s (l ++ l').
Proof. reflexivity. Qed.

Lemma modify_at (f : State -> State) (s : State) : modify f s = ok (f s) [].
Proof. reflexivity. Qed.

Ltac run_handler :=
  repeat first
    [ rewrite get_bind | rewrite ret_bind | rewrite modify_bind | rewrite emit_bind
    | rewrite for_each_emit_bind | rewrite bind_assoc | rewrite prepend_prepend
    | rewrite modify_at | rewrite prepend_ok
    | progress cbn -[for_each decide mbind mret get modify emit prepend ok app] ].

Lemma stopConversation_at (s : State) :
  stopConversation s = ok (stopped s) (released s).
Proof.
  unfold stopConversation, stopped, released, open_context.
  destruct s as [il st tr sp ms ic oc scp mss cit cot nst src cl fr].
  run_handler;
    repeat (match goal with
            | |- context [match ?r with Some _ => _ | None => _ end] =>
                is_var r; destruct r
            | _ => case_decide
            end; run_handler);
    cbn; rewrite ?app_nil_r; reflexivity.
Qed.





Definition once (b : bool) : nat := if b then 1 else 0.





(** *** C6: transcript turns *)
Inductive Speaker : Set := User | Model.

Definition fragment (sp : Speaker) (t : string) : LiveServerMessage :=
  {| serverContent :=
       Some {| modelTurn := None; turnComplete := false; interrupted := false;
               inputTranscription :=
                 match sp with User => Some {| text := Some t |} | Model => None end;
               outputTranscription :=
                 match sp with Model => Some {| text := Some t |} | User => None end |} |}.

Definition turn_complete : LiveServerMessage :=
  {| serverContent := Some {| modelTurn := None; turnComplete := true;
                              interrupted := false;
                              inputTranscription := None;
                              outputTranscription := None |} |}.

Definition fragments (frs : list (Q * Speaker * string)) : list Event :=
  map (fun f => Message f.1.1 (fragment f.1.2 f.2)) frs.

(** What one speaker said in a sequence of fragments, in order of arrival. *)
Fixpoint spoken (sp : Speaker) (frs : list (Q * Speaker * string)) : string :=
  match frs with
  | [] => ""
  | (_, sp', t) :: rest =>
      match sp, sp' with
      | User, User | Model, Model => t ++ spoken sp rest
      | _, _ => spoken sp rest
      end
  end.

(** The entries a completed turn adds to the log. *)
Definition turn_entries (fullInput fullOutput : string) : list JSObject :=
  (if truthy fullInput then [entry "user" fullInput] else [])
    ++ (if truthy fullOutput then [entry "model" fullOutput] else []).

Lemma onmessage_fragment (now : Q) (sp : Speaker) (t : string) (s : State) :
  onmessage now (fragment sp t) s
  = ok match sp with
       | User => set_currentInputTranscription (currentInputTranscription s ++ t) s
       | Model => set_currentOutputTranscription (currentOutputTranscription s ++ t) s
       end [].
Proof.
  rewrite onmessage_quiet by now destruct sp. now destruct sp.
Qed.

Lemma onmessage_turn_complete (now : Q) (s : State) :
  onmessage now turn_complete s
  = ok (set_currentOutputTranscription ""
          (set_currentInputTranscription ""
             (set_transcripts
                (transcripts s
                   ++ turn_entries (currentInputTranscription s)
                        (currentOutputTranscription s)) s))) [].
Proof. now rewrite onmessage_quiet. Qed.

Lemma run_fragments (frs : list (Q * Speaker * string)) (rest : list Event) (s : State) :
  run (fragments frs ++ rest) s
  = run rest
      (set_currentOutputTranscription (currentOutputTranscription s ++ spoken Model frs)
         (set_currentInputTranscription (currentInputTranscription s ++ spoken User frs)
            s)).
Proof.
  revert s. induction frs as [|[[now sp] t] frs IH]; intros s.
  - cbn [fragments map app spoken]. now rewrite !append_empty_r.
  - cbn [fragments map app]. fold (fragments frs). rewrite run_cons.
    cbn [fst snd handle]. rewrite onmessage_fragment.
    cbn [after log ok app]. rewrite IH, <- surjective_pairing.
    destruct sp;
      cbn [spoken currentInputTranscription currentOutputTranscription
           set_currentInputTranscription set_currentOutputTranscription];
      now rewrite append_assoc.
Qed.

(** The entry the claim describes: speaker, text and turn index. *)
Definition indexed_entry (sp t : string) (turn : Z) : JSObject :=
  <[ "turn"%string := JSNumber turn ]> (entry sp t).

(** C6, as stated, fails: the entries of the log hold a speaker and a
    text and nothing else; no turn index is kept anywhere. *)
Lemma transcript_entries_have_no_turn :
  let frs := [(0%Q, User, "a"%string); (0%Q, Model, "c"%string); (0%Q, User, "b"%string)] in
  let r := run (fragments frs ++ [Message 0 turn_complete]) connected in
  transcripts r.1 = transcripts connected ++ [entry "user" "ab"; entry "model" "c"] /\
  transcripts r.1
  <> transcripts connected ++ [indexed_entry "user" "ab" 0; indexed_entry "model" "c" 0].
Proof.
  cbv zeta. split; [reflexivity|].
  intros H. apply (f_equal (fun l => l !! 0%nat ≫= (.!! "turn"%string))) in H.
  vm_compute in H. discriminate H.
Qed.

(** C6 (amended) - transcript turn aggregation: whatever the order in
    which the fragments of the two speakers arrive, when the turn completes
    the log gains the user's entry (the user's fragments joined in order)
    and then the model's entry, each only if its text is not empty; an entry
    holds the speaker and the text, no turn index; both accumulators are
    empty afterwards.  For User:"a", User:"b", Model:"c" in any interleaving
    the log gains [{user,"ab"}, {model,"c"}]. *)
Theorem transcript_turn (frs : list (Q * Speaker * string)) (now : Q) (s : State) :
  let r := run (fragments frs ++ [Message now turn_complete]) s in
  let fullInput := (currentInputTranscription s ++ spoken User frs)%string in
  let fullOutput := (currentOutputTranscription s ++ spoken Model frs)%string in
  r.2 = [] /\
  transcripts r.1 = transcripts s ++ turn_entries fullInput fullOutput /\
  (forall e, e ∈ turn_entries fullInput fullOutput -> e !! "turn"%string = None) /\
  currentInputTranscription r.1 = ""%string /\
  currentOutputTranscription r.1 = ""%string.
Proof.
  cbv zeta. rewrite run_fragments, run_cons. cbn [run fst snd handle].
  rewrite onmessage_turn_complete. cbn [after log ok app].
  cbn [transcripts currentInputTranscription currentOutputTranscription
       set_transcripts set_currentInputTranscription set_currentOutputTranscription].
  repeat split; try reflexivity.
  intros e He. unfold turn_entries in He.
  apply elem_of_app in He as [He|He];
    [destruct (truthy (currentInputTranscription s ++ spoken User frs))
    |destruct (truthy (currentOutputTranscription s ++ spoken Model frs))];
    try (now apply elem_of_nil in He);
    apply list_elem_of_singleton in He; subst e; reflexivity.
Qed.

(** The three interleavings of the example of C6. *)
Example transcript_turn_interleavings :
  let turn frs := transcripts (run (fragments frs ++ [Message 0 turn_complete]) connected).1 in
  turn [(0%Q, User, "a"%string); (0%Q, User, "b"%string); (0%Q, Model, "c"%string)]
    = [entry "user" "ab"; entry "model" "c"] /\
  turn [(0%Q, User, "a"%string); (0%Q, Model, "c"%string); (0%Q, User, "b"%string)]
    = [entry "user" "ab"; entry "model" "c"] /\
  turn [(0%Q, Model, "c"%string); (0%Q, User, "a"%string); (0%Q, User, "b"%string)]
    = [entry "user" "ab"; entry "model" "c"].
Proof. repeat split. Qed.

(** *** C7: one session at a time *)

(** The events that leave a session active: everything but a stop, an
    error, a close, and the settling of an earlier microphone request. *)
Definition calm (ev : Event) : bool :=
  match ev with
  | Start | Open | AudioProcess _ | Message _ _ | Ended _ => true
  | UserMediaSettled _ | Stop | Error _ | Close => false
  end.

(** The effects that acquire the microphone or open a connection. *)
Definition acquires (e : Effect) : bool :=
  match e with
  | RequestUserMedia | MicrophoneAcquired _ | NewAudioContext _ _ | Connect _ => true
  | _ => false
  end.

(** [startConversation] while listening: nothing happens. *)
Lemma start_while_listening (s : State) :
  isListening s = true -> startConversation s = ok s [].
Proof.
  intros H. unfold startConversation. rewrite get_bind, H. reflexivity.
Qed.

Lemma onmessage_log (now : Q) (message : LiveServerMessage) (s : State) :
  Forall (fun e => acquires e = false) (log (onmessage now message s)).
Proof.
  assert (Hstops : forall l, Forall (fun e => acquires e = false) (map SourceStop l))
    by (intros l; induction l; constructor; auto).
  rewrite onmessage_at, on_audio_at. cbv zeta.
  generalize (after_transcripts message s). intros s1.
  destruct (base64Audio_of message) as [[b|]|e]; cbn;
    [destruct (truthy b); [rewrite schedule_at;
       destruct (outputAudioContextRef s1) eqn:Hout;
         [destruct (decode_chunk b)|]|]| |];
    cbn; try destruct (interrupts message); cbn;
    repeat constructor; apply Hstops.
Qed.

Lemma onopen_at (s : State) :
  onopen s =
    match inputAudioContextRef s with
    | Some ictx =>
        ok (set_scriptProcessorRef (Some (S (fresh s)))
              (set_fresh (S (S (fresh s)))
                 (set_mediaStreamSourceRef (Some (fresh s))
                    (set_status "Connected. You can start speaking now." s))))
           [CreateMediaStreamSource ictx (fresh s);
            CreateScriptProcessor ictx (S (fresh s))]
    | None =>
        {| value := Throw TypeError;
           after := set_status "Connected. You can start speaking now." s;
           log := [] |}
    end.
Proof.
  destruct s as [il st tr sp ms ic oc scp mss cit cot nst src cl fr].
  destruct ic; reflexivity.
Qed.

Lemma onaudioprocess_at (inputData : list Q) (s : State) :
  onaudioprocess inputData s =
    ok s match sessionPromiseRef s with
         | Some session =>
             [SendRealtimeInput session
                {| data := Some (pcm_data inputData);
                   mimeType := Some "audio/pcm;rate=16000"%string |}]
         | None => []
         end.
Proof.
  unfold onaudioprocess. cbv zeta. rewrite get_bind.
  destruct (sessionPromiseRef s); reflexivity.
Qed.

Lemma handle_calm (ev : Event) (s : State) :
  calm ev = true -> isListening s = true ->
  let o := handle ev s in
  isListening (after o) = true /\
  sessionPromiseRef (after o) = sessionPromiseRef s /\
  mediaStreamRef (after o) = mediaStreamRef s /\
  Forall (fun e => acquires e = false) (log o).
Proof.
  intros Hcalm Hs. destruct ev as [| | | |inputData|now message|node| |];
    try discriminate Hcalm; cbn [handle]; cbv zeta.
  - rewrite (start_while_listening s Hs). repeat split; [exact Hs|constructor].
  - rewrite onopen_at.
    destruct (inputAudioContextRef s); cbn; repeat split; try exact Hs;
      repeat constructor.
  - rewrite onaudioprocess_at.
    destruct (sessionPromiseRef s) eqn:Hsession; cbn -[pcm_data];
      repeat split; try exact Hs; try exact Hsession; repeat constructor.
  - pose proof (onmessage_same_session now message s) as H.
    unfold same_session in H. decompose [and] H.
    repeat split; try congruence. apply onmessage_log.
  - cbn. repeat split; [exact Hs|constructor].
Qed.

(** The guard while the flag is set: while the component is listening,
    [startConversation] returns at once, changing nothing and asking for
    nothing; and as long as the session is neither stopped nor closed nor
    failed, and no earlier microphone request settles, whatever else happens
    (further clicks on start, messages, audio frames, ended nodes), the
    component keeps listening to the same session with the same microphone
    stream, and never requests the microphone or opens a connection again. *)
Lemma start_is_guarded_while_listening (s : State) (evs : list Event) :
  isListening s = true ->
  Forall (fun ev => calm ev = true) evs ->
  startConversation s = ok s [] /\
  isListening (run evs s).1 = true /\
  sessionPromiseRef (run evs s).1 = sessionPromiseRef s /\
  mediaStreamRef (run evs s).1 = mediaStreamRef s /\
  Forall (fun e => acquires e = false) (run evs s).2.
Proof.
  intros Hs Hcalm. split; [now apply start_while_listening|].
  revert s Hs. induction Hcalm as [|ev evs Hev _ IH]; intros s Hs.
  - repeat split; [exact Hs|constructor].
  - rewrite run_cons. cbn [fst snd].
    destruct (handle_calm ev s Hev Hs) as (H1 & H2 & H3 & H4).
    destruct (IH _ H1) as (I1 & I2 & I3 & I4).
    repeat split; try congruence. apply Forall_app. now split.
Qed.

Lemma start_is_guarded_while_listening_example :
  let evs := [Start; Message 1 (audio_message "AAABAAIA"); Start;
              AudioProcess [1 # 2; -(1 # 4)]%Q; Ended 6; Message 2 interrupt_signal;
              Start] in
  (isListening connected = true /\ Forall (fun ev => calm ev = true) evs) /\
  (startConversation connected = ok connected [] /\
   isListening (run evs connected).1 = true /\
   sessionPromiseRef (run evs connected).1 = sessionPromiseRef connected /\
   mediaStreamRef (run evs connected).1 = mediaStreamRef connected /\
   Forall (fun e => acquires e = false) (run evs connected).2).
Proof.
  cbv zeta.
  assert (Hcalm : Forall (fun ev => calm ev = true)
            [Start; Message 1 (audio_message "AAABAAIA"); Start;
             AudioProcess [1 # 2; -(1 # 4)]%Q; Ended 6; Message 2 interrupt_signal;
             Start])
    by (repeat constructor).
  split; [split; [reflexivity|exact Hcalm]|].
  exact (start_is_guarded_while_listening connected _ eq_refl Hcalm).
Defined.

(** C7 - single active session, where the code departs from it.  The
    guard of [startConversation] reads the listening flag, and the flag does
    not tell whether a session exists: a stop that comes while the
    microphone request of a start is pending clears the flag, and nothing
    after the wait looks at it again.  A start, a stop before the request
    settles, then the grant: the stream is acquired and the connection made
    and opened while the component shows itself idle.  A second start is
    then not rejected: it acquires the microphone again and makes a second
    connection beside the first, which nothing has closed.  The references
    now lead to the second session only, and the stop that follows gives back
    the second stream, session, nodes and contexts; the first stay. *)
Theorem second_session_beside_the_first :
  (let r := run [Start; Stop; UserMediaSettled true; Open] initial in
   r.2 = [RequestUserMedia; MicrophoneAcquired 0; NewAudioContext 1 16000;
          NewAudioContext 2 24000; Connect 3;
          CreateMediaStreamSource 1 4; CreateScriptProcessor 1 5] /\
   isListening r.1 = false /\
   mediaStreamRef r.1 = Some 0%nat /\ sessionPromiseRef r.1 = Some 3%nat /\
   value (startConversation r.1) = Ok tt /\
   log (startConversation r.1) = [RequestUserMedia]) /\
  (let r := run [Start; Stop; UserMediaSettled true; Open;
                 Start; UserMediaSettled true; Open] initial in
   List.filter acquires r.2
   = [RequestUserMedia; MicrophoneAcquired 0; NewAudioContext 1 16000;
      NewAudioContext 2 24000; Connect 3;
      RequestUserMedia; MicrophoneAcquired 6; NewAudioContext 7 16000;
      NewAudioContext 8 24000; Connect 9] /\
   List.filter (fun e => negb (acquires e)) r.2
   = [CreateMediaStreamSource 1 4; CreateScriptProcessor 1 5;
      CreateMediaStreamSource 7 10; CreateScriptProcessor 7 11] /\
   isListening r.1 = true /\
   mediaStreamRef r.1 = Some 6%nat /\ sessionPromiseRef r.1 = Some 9%nat) /\
  (run [Start; Stop; UserMediaSettled true; Open;
        Start; UserMediaSettled true; Open; Stop] initial).2
  = [RequestUserMedia; MicrophoneAcquired 0; NewAudioContext 1 16000;
     NewAudioContext 2 24000; Connect 3;
     CreateMediaStreamSource 1 4; CreateScriptProcessor 1 5;
     RequestUserMedia; MicrophoneAcquired 6; NewAudioContext 7 16000;
     NewAudioContext 8 24000; Connect 9;
     CreateMediaStreamSource 7 10; CreateScriptProcessor 7 11;
     SessionClose 9; TracksStop 6; NodeDisconnect 11; NodeDisconnect 10;
     ContextClose 7; ContextClose 8].
Proof.
  split; [cbv zeta; repeat split|]. split; [cbv zeta; repeat split|]. reflexivity.
Qed.

(** *** C9: the exits of a session *)

(** [onclose] releases nothing, whatever the state. *)
Lemma onclose_at (s : State) :
  onclose s = ok (set_isListening false (set_status "Connection closed." s)) [].
Proof. reflexivity. Qed.

(** C9 - release on every exit path, where the code departs from it: a
    session with two chunks scheduled is closed by the remote end.  [onclose]
    releases nothing, in any state: the microphone stream, both audio
    contexts, the processing nodes and the scheduled nodes are still held
    while the component shows itself idle.  A transport error on the same
    state releases all of them, through [stopConversation].  After the
    close, a new session overwrites the references; the first microphone
    stream (0) and the first contexts (1 and 2) are then out of reach, and a
    later stop releases only the second ones. *)
Theorem remote_close_releases_nothing :
  (forall s, log (onclose s) = [] /\
             mediaStreamRef (after (onclose s)) = mediaStreamRef s /\
             inputAudioContextRef (after (onclose s)) = inputAudioContextRef s /\
             outputAudioContextRef (after (onclose s)) = outputAudioContextRef s /\
             sources (after (onclose s)) = sources s /\
             isListening (after (onclose s)) = false) /\
  (let r := run [Close] playing in
   r.2 = [] /\ isListening r.1 = false /\
   mediaStreamRef r.1 = Some 0%nat /\
   inputAudioContextRef r.1 = Some 1%nat /\ outputAudioContextRef r.1 = Some 2%nat /\
   scriptProcessorRef r.1 = Some 5%nat /\ mediaStreamSourceRef r.1 = Some 4%nat /\
   sources r.1 = [6; 7]%nat) /\
  (run [Error "lost"] playing).2
  = [SessionClose 3; TracksStop 0; NodeDisconnect 5; NodeDisconnect 4; ContextClose 1;
     SourceStop 6; SourceStop 7; ContextClose 2] /\
  (run [Close; Start; UserMediaSettled true; Open; Stop] playing).2
  = [RequestUserMedia; MicrophoneAcquired 8; NewAudioContext 9 16000;
     NewAudioContext 10 24000; Connect 11;
     CreateMediaStreamSource 9 12; CreateScriptProcessor 9 13;
     SessionClose 11; TracksStop 8; NodeDisconnect 13; NodeDisconnect 12;
     ContextClose 9; SourceStop 6; SourceStop 7; ContextClose 10].
Proof.
  split; [intros s; rewrite onclose_at; repeat split|].
  split; [cbv zeta; repeat split|]. split; reflexivity.
Qed.

End LiveFacts.


(** * Further properties *)

(** ** The codec: quantisation, text shape, channels, durations *)
Module CodecMore.
Import Base64 Base64Facts Codec CodecFacts.
Local Open Scope Z_scope.

(** *** Quantisation of captured samples *)
Lemma Qtrunc_le (a b : Q) : (a <= b)%Q -> Qtrunc a <= Qtrunc b.
Proof.
  intros Hab.
  destruct (Qtrunc_bounds a) as [Hpa Hna], (Qtrunc_bounds b) as [Hpb Hnb].
  destruct (Qlt_le_dec a 0) as [Ha|Ha], (Qlt_le_dec b 0) as [Hb|Hb].
  - destruct (Hna Ha) as [H1 _], (Hnb Hb) as [_ H2].
    assert (H : (inject_Z (Qtrunc a) < inject_Z (Qtrunc b + 1))%Q)
      by (rewrite inject_Z_plus; change (inject_Z 1) with 1%Q; lra).
    rewrite <- Zlt_Qlt in H. lia.
  - destruct (Hna Ha) as [H1 _], (Hpb Hb) as [_ H2].
    assert (H : (inject_Z (Qtrunc a) < inject_Z 1)%Q)
      by (change (inject_Z 1) with 1%Q; lra).
    assert (H' : (inject_Z (-1) < inject_Z (Qtrunc b))%Q)
      by (change (inject_Z (-1)) with (-1)%Q; lra).
    rewrite <- Zlt_Qlt in H, H'. lia.
  - exfalso. lra.
  - destruct (Hpa Ha) as [H1 _], (Hpb (Qle_trans _ _ _ Ha Hab)) as [_ H2].
    assert (H : (inject_Z (Qtrunc a) < inject_Z (Qtrunc b + 1))%Q)
      by (rewrite inject_Z_plus; change (inject_Z 1) with 1%Q; lra).
    rewrite <- Zlt_Qlt in H. lia.
Qed.

Lemma wrap_int16_range (n : Z) : is_int16 (wrap_int16 n).
Proof.
  unfold is_int16, wrap_int16. cbv zeta.
  destruct (Z.leb_spec 32768 (n mod 65536)); divmod.
Qed.

Lemma Qtrunc_below (y : Q) (m : Z) :
  (0 <= y)%Q -> (y < inject_Z m)%Q -> Qtrunc y < m.
Proof.
  intros H0 Hm. destruct (Qtrunc_bounds y) as [Hpos _].
  destruct (Hpos H0) as [H1 _].
  assert (H : (inject_Z (Qtrunc y) < inject_Z m)%Q) by lra.
  now rewrite <- Zlt_Qlt in H.
Qed.

Lemma Qtrunc_unit (z : Q) : unit_sample z -> is_int16 (Qtrunc (z * 32768)).
Proof.
  intros [Hlo Hhi]. unfold is_int16. split.
  - pose proof (Qtrunc_le (-32768) (z * 32768) ltac:(lra)) as H.
    now change (Qtrunc (-32768)) with (-32768) in H.
  - destruct (Qlt_le_dec (z * 32768) 0) as [Hy|Hy].
    + pose proof (Qtrunc_le (z * 32768) 0 ltac:(lra)) as H.
      change (Qtrunc 0) with 0 in H. lia.
    + apply Qtrunc_below; [exact Hy|]. change (inject_Z 32768) with 32768%Q. lra.
Qed.

(** X1 - quantisation never enlarges a sample: a sample in [[-1, 1)] is
    truncated toward zero, so what is read back lies between zero and the
    sample, on the sample's side. *)
Theorem quantize_toward_zero (x : Q) :
  unit_sample x ->
  ((0 <= x -> 0 <= sample (ToInt16 (x * 32768)) /\ sample (ToInt16 (x * 32768)) <= x) /\
   (x <= 0 -> x <= sample (ToInt16 (x * 32768)) /\ sample (ToInt16 (x * 32768)) <= 0))%Q.
Proof.
  intros Hx. unfold ToInt16. destruct (Qtrunc_bounds (x * 32768)) as [Hpos Hneg].
  rewrite (wrap_int16_id _ (Qtrunc_unit x Hx)). destruct Hx as [Hlo Hhi].
  unfold sample, Qdiv. change (/ 32768)%Q with (1 # 32768)%Q.
  set (t := inject_Z (Qtrunc (x * 32768))) in *.
  split; intros H0.
  - destruct (Hpos ltac:(lra)) as [H1 H2].
    assert (Ht : (0 <= t)%Q).
    { pose proof (Qtrunc_le 0 (x * 32768) ltac:(lra)) as H3.
      change (Qtrunc 0) with 0 in H3. subst t.
      change 0%Q with (inject_Z 0). now rewrite <- Zle_Qle. }
    lra.
  - assert (Ht : (t <= 0)%Q).
    { pose proof (Qtrunc_le (x * 32768) 0 ltac:(lra)) as H3.
      change (Qtrunc 0) with 0 in H3. subst t.
      change 0%Q with (inject_Z 0). now rewrite <- Zle_Qle. }
    destruct (Qlt_le_dec (x * 32768) 0) as [Hy|Hy].
    + destruct (Hneg Hy) as [H1 H2]. lra.
    + destruct (Hpos Hy) as [H1 H2].
      assert (Ht' : (0 <= t)%Q).
      { pose proof (Qtrunc_le 0 (x * 32768) Hy) as H3.
        change (Qtrunc 0) with 0 in H3. subst t.
        change 0%Q with (inject_Z 0). now rewrite <- Zle_Qle. }
      lra.
Qed.

Lemma quantize_toward_zero_witness :
  unit_sample (-(1 # 3)) /\
  ((0 <= -(1 # 3) -> 0 <= sample (ToInt16 (-(1 # 3) * 32768))
                     /\ sample (ToInt16 (-(1 # 3) * 32768)) <= -(1 # 3)) /\
   (-(1 # 3) <= 0 -> -(1 # 3) <= sample (ToInt16 (-(1 # 3) * 32768))
                     /\ sample (ToInt16 (-(1 # 3) * 32768)) <= 0))%Q.
Proof.
  assert (H : unit_sample (-(1 # 3))) by (split; vm_compute; congruence).
  split; [exact H|]. exact (quantize_toward_zero _ H).
Defined.

(** X2 - quantisation keeps the order of samples: of two samples in
    [[-1, 1)], the larger never gets the smaller 16-bit value. *)
Theorem quantize_monotone (x y : Q) :
  unit_sample x -> unit_sample y -> (x <= y)%Q ->
  ToInt16 (x * 32768) <= ToInt16 (y * 32768).
Proof.
  intros Hx Hy Hxy.
  unfold ToInt16.
  rewrite (wrap_int16_id _ (Qtrunc_unit x Hx)), (wrap_int16_id _ (Qtrunc_unit y Hy)).
  apply Qtrunc_le. lra.
Qed.

Lemma quantize_monotone_witness :
  (unit_sample (-(1 # 3)) /\ unit_sample (1 # 7) /\ (-(1 # 3) <= 1 # 7)%Q) /\
  ToInt16 (-(1 # 3) * 32768) <= ToInt16 ((1 # 7) * 32768).
Proof.
  assert (H1 : unit_sample (-(1 # 3))) by (split; vm_compute; congruence).
  assert (H2 : unit_sample (1 # 7)) by (split; vm_compute; congruence).
  assert (H3 : (-(1 # 3) <= 1 # 7)%Q) by (vm_compute; congruence).
  split; [repeat split; assumption|]. exact (quantize_monotone _ _ H1 H2 H3).
Defined.

(** X3 - no clamping: a sample at or above full scale, in [[1, 2)], is
    not limited to 32767; its 16-bit value wraps around and comes out
    negative, 65536 below the truncated product. *)
Theorem quantize_wraps (x : Q) :
  (1 <= x)%Q -> (x < 2)%Q ->
  ToInt16 (x * 32768) = Qtrunc (x * 32768) - 65536 /\
  -32768 <= ToInt16 (x * 32768) < 0.
Proof.
  intros Hlo Hhi. unfold ToInt16.
  pose proof (Qtrunc_le 32768 (x * 32768) ltac:(lra)) as H1.
  change (Qtrunc 32768) with 32768 in H1.
  assert (H2 : Qtrunc (x * 32768) < 65536)
    by (apply Qtrunc_below; [|change (inject_Z 65536) with 65536%Q]; lra).
  unfold wrap_int16. cbv zeta.
  destruct (Z.leb_spec 32768 (Qtrunc (x * 32768) mod 65536)); divmod.
Qed.

Lemma quantize_wraps_witness :
  ((1 <= 1)%Q /\ (1 < 2)%Q) /\
  (ToInt16 (1 * 32768) = Qtrunc (1 * 32768) - 65536 /\
   -32768 <= ToInt16 (1 * 32768) < 0).
Proof.
  assert (H1 : (1 <= 1)%Q) by (vm_compute; congruence).
  assert (H2 : (1 < 2)%Q) by reflexivity.
  split; [split; assumption|]. exact (quantize_wraps 1 H1 H2).
Defined.

(** *** The text [encode] produces *)
Lemma third_step n : ((S (S (S n)) + 2) / 3 = S ((n + 2) / 3))%nat.
Proof.
  replace (S (S (S n)) + 2)%nat with ((n + 2) + 1 * 3)%nat by lia.
  rewrite Nat.div_add by discriminate. lia.
Qed.

Lemma btoa_length (l : list Z) :
  (length (sextets l) + length (padding (length l)) = 4 * ((length l + 2) / 3))%nat.
Proof.
  induction l as [| a | a b | a b c l IH] using list_ind3; try reflexivity.
  change (length (a :: b :: c :: l)) with (S (S (S (length l)))).
  rewrite padding_step, third_step. cbn [sextets length app]. cbn [length] in IH. lia.
Qed.

Lemma length_string_of_list (l : list ascii) :
  String.length (string_of_list_ascii l) = length l.
Proof. induction l as [|c l IH]; [reflexivity|]. cbn. now rewrite IH. Qed.

Definition base64_char (c : ascii) : Prop := In c alphabet \/ c = pad.

Lemma sextet_char_base64 (s : Z) : base64_char (sextet_char s).
Proof.
  unfold base64_char, sextet_char.
  destruct (nth_in_or_default (Z.to_nat s) alphabet pad); auto.
Qed.

Lemma encode_length (bytes : list Z) :
  String.length (encode bytes) = (4 * ((length bytes + 2) / 3))%nat.
Proof.
  rewrite encode_btoa. unfold btoa.
  rewrite length_string_of_list, !list_ascii_of_string_of_list_ascii.
  rewrite length_app, (length_map sextet_char), btoa_length. now rewrite !length_map.
Qed.

(** X4 - the text of [encode]: for every byte array of [n] bytes the
    result has exactly [4 * ceil(n / 3)] characters, each of them one of the
    64 characters of the base64 alphabet or the padding character. *)
Theorem encode_shape (bytes : list Z) :
  String.length (encode bytes) = (4 * ((length bytes + 2) / 3))%nat /\
  Forall base64_char (list_ascii_of_string (encode bytes)).
Proof.
  split; [apply encode_length|].
  rewrite encode_btoa. unfold btoa. rewrite !list_ascii_of_string_of_list_ascii.
  - apply Forall_app. split.
    + apply List.Forall_forall. intros c Hc.
      apply in_map_iff in Hc as (x & <- & _). apply sextet_char_base64.
    + rewrite !length_map. unfold padding.
      destruct (length bytes mod 3)%nat as [|[|[|?]]];
        repeat (apply List.Forall_cons; [now right|]); apply List.Forall_nil.
Qed.




(** *** What a received chunk decodes to *)
Lemma int16_view_range (data : list Z) : Forall is_int16 (int16_view data).
Proof.
  induction data as [| a | a b data IH] using list_ind2; cbn [int16_view];
    constructor; [apply wrap_int16_range|exact IH].
Qed.

Lemma sample_unit (v : Z) : is_int16 v -> unit_sample (sample v).
Proof.
  unfold is_int16, unit_sample, sample, Qdiv. intros [Hlo Hhi].
  change (/ 32768)%Q with (1 # 32768)%Q.
  assert (H1 : (inject_Z (-32768) <= inject_Z v)%Q) by now rewrite <- Zle_Qle.
  assert (H2 : (inject_Z v < inject_Z 32768)%Q) by now rewrite <- Zlt_Qlt.
  change (inject_Z (-32768)) with (-32768)%Q in H1.
  change (inject_Z 32768) with 32768%Q in H2.
  set (t := inject_Z v) in *. lra.
Qed.

Lemma decode_chunk_ok (b : string) (bytes : list Z) (buffer : AudioBuffer) :
  decode b = Ok bytes -> decode_chunk b = Ok buffer ->
  Nat.even (length bytes) = true /\
  buffer = {| numberOfChannels := 1;
              frames := length bytes / 2;
              sampleRate := 24000;
              channelData := [map sample (int16_view bytes)] |}.
Proof.
  intros Hb. unfold decode_chunk. rewrite Hb. cbn [mbind result_bind].
  rewrite decodeAudioData_mono by reflexivity.
  destruct (Nat.even (length bytes)); [|discriminate].
  destruct (length bytes =? 0)%nat; [discriminate|].
  intros H. split; [reflexivity|]. congruence.
Qed.

Lemma half_double (k : nat) : (2 * k / 2 = k)%nat.
Proof. rewrite Nat.mul_comm. apply Nat.div_mul. discriminate. Qed.

(** X6 - what a chunk decodes to: whenever the text of a chunk decodes, to
    [n] bytes say, the buffer has one channel of [n / 2] frames at 24000 Hz,
    every sample of it lies in [[-1, 1)], and it plays for [n / 48000]
    seconds. *)
Theorem decode_chunk_buffer (b : string) (bytes : list Z) (buffer : AudioBuffer) :
  decode b = Ok bytes -> decode_chunk b = Ok buffer ->
  numberOfChannels buffer = 1%nat /\
  frames buffer = (length bytes / 2)%nat /\
  sampleRate buffer = 24000 /\
  (exists channel, channelData buffer = [channel] /\
                   length channel = (length bytes / 2)%nat /\
                   Forall unit_sample channel) /\
  (duration buffer == inject_Z (Z.of_nat (length bytes)) / 48000)%Q.
Proof.
  intros Hb Hbuf. destruct (decode_chunk_ok b bytes buffer Hb Hbuf) as [Heven ->].
  unfold duration. cbn [numberOfChannels frames sampleRate channelData].
  split; [reflexivity|]. split; [reflexivity|]. split; [reflexivity|]. split.
  - eexists. split; [reflexivity|]. split.
    + now rewrite length_map, length_int16_view.
    + apply List.Forall_forall. intros y Hy.
      apply in_map_iff in Hy as (v & <- & Hv). apply sample_unit.
      pose proof (int16_view_range bytes) as Hr.
      rewrite List.Forall_forall in Hr. now apply Hr.
  - apply Nat.even_spec in Heven as [k Hk]. rewrite Hk, half_double.
    rewrite Nat2Z.inj_mul, inject_Z_mult. change (inject_Z (Z.of_nat 2)) with 2%Q.
    unfold Qdiv. change (/ inject_Z 24000)%Q with (1 # 24000)%Q.
    change (/ 48000)%Q with (1 # 48000)%Q.
    set (t := inject_Z (Z.of_nat k)). lra.
Qed.

Lemma decode_chunk_buffer_witness :
  let buffer := {| numberOfChannels := 1; frames := 3; sampleRate := 24000;
                   channelData := [[0 # 32768; 1 # 32768; 2 # 32768]]%Q |} in
  (decode "AAABAAIA" = Ok [0; 0; 1; 0; 2; 0]%Z /\ decode_chunk "AAABAAIA" = Ok buffer) /\
  (frames buffer = (length [0; 0; 1; 0; 2; 0]%Z / 2)%nat /\
   (duration buffer == inject_Z (Z.of_nat (length [0; 0; 1; 0; 2; 0]%Z)) / 48000)%Q).
Proof.
  cbv zeta. split; [split; reflexivity|].
  destruct (decode_chunk_buffer "AAABAAIA" [0; 0; 1; 0; 2; 0]%Z _ eq_refl eq_refl)
    as (_ & H2 & _ & _ & H5).
  split; [exact H2|exact H5].
Defined.

(** X7 - a frame on the wire: whatever the samples of a frame are, in
    range or not, what [onaudioprocess] sends for it is a base64 text of
    [4 * ceil(2n/3)] characters that [decode] accepts; it decodes to two
    bytes for each sample, which read again as 16-bit integers are the
    quantised samples, each within the 16-bit range. *)
Theorem frame_on_the_wire (inputData : list Q) :
  String.length (pcm_data inputData) = (4 * ((2 * length inputData + 2) / 3))%nat /\
  decode (pcm_data inputData) = Ok (Uint8Array_of_Int16Array (quantize inputData)) /\
  length (Uint8Array_of_Int16Array (quantize inputData)) = (2 * length inputData)%nat /\
  (decode (pcm_data inputData) ≫= Int16Array_of_buffer) = Ok (quantize inputData) /\
  Forall is_int16 (quantize inputData).
Proof.
  assert (Hrange : Forall is_int16 (quantize inputData)).
  { unfold quantize. apply List.Forall_forall. intros v Hv.
    apply in_map_iff in Hv as (x & <- & _). apply wrap_int16_range. }
  assert (Hlen : length (quantize inputData) = length inputData)
    by (unfold quantize; apply length_map).
  unfold pcm_data. cbv zeta.
  rewrite encode_length.
  rewrite decode_encode by apply bytes_are_bytes.
  rewrite length_bytes, Hlen. cbn [mbind result_bind].
  rewrite Int16Array_of_bytes by exact Hrange.
  repeat split; try reflexivity; exact Hrange.
Qed.

End CodecMore.


(** ** The component: exits, late events, transcript log *)
Module LiveMore.
Import Codec CodecFacts Live LiveFacts.

(** *** A transport error *)
Lemma onerror_at (message : string) (s : State) :
  onerror message s = ok (stopped s) (released s).
Proof. unfold onerror. now rewrite modify_bind, stopConversation_at. Qed.

(** X8 - a transport error is a stop: [onerror] releases what
    [stopConversation] releases and leaves the same state; in particular the
    status line ends as "Conversation ended.", and the error text that
    [onerror] wrote into it first does not remain. *)
Theorem onerror_is_stop (message : string) (s : State) :
  onerror message s = stopConversation s /\
  status (after (onerror message s)) = "Conversation ended."%string.
Proof.
  rewrite onerror_at, stopConversation_at. split; reflexivity.
Qed.

(** *** Microphone frames after the session has ended *)

(** X9 - frames after an exit: once [stopConversation] has run, by the
    button or through [onerror], a frame of the microphone is encoded but
    sent nowhere; after a close by the remote end the frame is still sent to
    the session that was closed, because [onclose] keeps the reference. *)
Theorem frames_after_exit (inputData : list Q) (message : string) (session : nat)
    (s : State) :
  sessionPromiseRef s = Some session ->
  log (onaudioprocess inputData (after (stopConversation s))) = [] /\
  log (onaudioprocess inputData (after (onerror message s))) = [] /\
  log (onaudioprocess inputData (after (onclose s)))
  = [SendRealtimeInput session
       {| data := Some (pcm_data inputData);
          mimeType := Some "audio/pcm;rate=16000"%string |}].
Proof.
  intros Hs. rewrite !onaudioprocess_at, onerror_at, stopConversation_at, onclose_at.
  cbn [after log ok sessionPromiseRef stopped set_isListening set_status].
  now rewrite Hs.
Qed.

Lemma frames_after_exit_witness :
  sessionPromiseRef playing = Some 3%nat /\
  (log (onaudioprocess [1 # 2]%Q (after (stopConversation playing))) = [] /\
   log (onaudioprocess [1 # 2]%Q (after (onerror "lost" playing))) = [] /\
   log (onaudioprocess [1 # 2]%Q (after (onclose playing)))
   = [SendRealtimeInput 3
        {| data := Some (pcm_data [1 # 2]%Q);
           mimeType := Some "audio/pcm;rate=16000"%string |}]).
Proof.
  split; [reflexivity|].
  exact (frames_after_exit [1 # 2]%Q "lost" 3 playing eq_refl).
Defined.

(** *** Chunks that arrive after a stop *)

(** X10 - a chunk after the stop: when [stopConversation] has closed the
    output context, a message that still carries audio makes the handler
    raise [TypeError] on the missing context; nothing is started and the
    cursor and the active set stay as the stop left them. *)
Theorem late_chunk_after_stop (now : Q) (message : LiveServerMessage) (b : string)
    (s : State) :
  (forall ctx, outputAudioContextRef s = Some ctx -> ctx ∉ closed s) ->
  base64Audio_of message = Ok (Some b) -> truthy b = true ->
  let s1 := after (stopConversation s) in
  let o := onmessage now message s1 in
  value o = Throw TypeError /\ log o = [] /\
  nextStartTime (after o) = nextStartTime s1 /\ sources (after o) = sources s1.
Proof.
  intros Hopen Hb Htruthy. cbv zeta. rewrite stopConversation_at.
  cbn [after ok].
  assert (Hout : outputAudioContextRef (stopped s) = None).
  { unfold stopped, open_context. cbn [outputAudioContextRef].
    destruct (outputAudioContextRef s) as [ctx|]; [|reflexivity].
    specialize (Hopen ctx eq_refl). now case_decide. }
  generalize dependent (stopped s). intros s1 Hout.
  destruct (after_transcripts_frame message s1)
    as (_ & _ & _ & _ & _ & Hout' & _ & _ & Hnext & Hsrc & _).
  rewrite onmessage_at, on_audio_at, Hb, Htruthy, schedule_at, Hout', Hout.
  cbn [value after log]. repeat split; assumption.
Qed.

Lemma late_chunk_after_stop_witness :
  ((forall ctx, outputAudioContextRef playing = Some ctx -> ctx ∉ closed playing) /\
   base64Audio_of (audio_message "AAABAAIA") = Ok (Some "AAABAAIA"%string) /\
   truthy "AAABAAIA" = true) /\
  value (onmessage 9 (audio_message "AAABAAIA") (after (stopConversation playing)))
  = Throw TypeError /\
  log (onmessage 9 (audio_message "AAABAAIA") (after (stopConversation playing))) = [].
Proof.
  assert (H : forall ctx, outputAudioContextRef playing = Some ctx -> ctx ∉ closed playing)
    by (intros ctx _; apply not_elem_of_empty).
  split; [split; [exact H|split; reflexivity]|].
  destruct (late_chunk_after_stop 9 (audio_message "AAABAAIA") "AAABAAIA" playing
              H eq_refl eq_refl) as (H1 & H2 & _).
  split; [exact H1|exact H2].
Defined.

(** *** Start times and the clock *)
Definition not_before (now cursor : Q) (e : Effect) : Prop :=
  match e with
  | SourceStart _ t _ => (now <= t)%Q /\ (cursor <= t)%Q
  | _ => True
  end.

(** X11 - nothing is scheduled in the past: in every state and for every
    message, with or without an interrupt, whether the handler returns or
    raises, a node that the handler starts is started at or after the
    reading of the output clock, and at or after the cursor the handler
    found, so never inside what was scheduled before. *)
Theorem never_scheduled_in_the_past (now : Q) (message : LiveServerMessage) (s : State) :
  Forall (not_before now (nextStartTime s)) (log (onmessage now message s)).
Proof.
  destruct (after_transcripts_frame message s)
    as (_ & _ & _ & _ & _ & _ & _ & _ & Hnext & _).
  rewrite onmessage_at, on_audio_at. cbv zeta.
  revert Hnext. generalize (after_transcripts message s). intros s1 Hnext.
  generalize dependent (nextStartTime s). intros cursor Hnext.
  assert (Hstops : forall l, Forall (not_before now cursor) (map SourceStop l))
    by (intros l; induction l; constructor; cbn; auto).
  destruct (base64Audio_of message) as [[b|]|e]; cbn;
    [destruct (truthy b); [rewrite schedule_at;
       destruct (outputAudioContextRef s1) eqn:Hout;
         [destruct (decode_chunk b)|]|]| |];
    cbn; try destruct (interrupts message); cbn;
    repeat (apply List.Forall_cons;
            [cbn; rewrite Hnext; split; [apply Q.le_max_r|apply Q.le_max_l]|]);
    try apply Hstops; try apply List.Forall_nil.
Qed.

(** *** Messages and the lifecycle *)
Definition playback_effect (e : Effect) : bool :=
  match e with
  | SourceStart _ _ _ | SourceStop _ => true
  | _ => false
  end.

Lemma onmessage_playback (now : Q) (message : LiveServerMessage) (s : State) :
  Forall (fun e => playback_effect e = true) (log (onmessage now message s)).
Proof.
  assert (Hstops : forall l, Forall (fun e => playback_effect e = true) (map SourceStop l))
    by (intros l; induction l; constructor; auto).
  rewrite onmessage_at, on_audio_at. cbv zeta.
  generalize (after_transcripts message s). intros s1.
  destruct (base64Audio_of message) as [[b|]|e]; cbn;
    [destruct (truthy b); [rewrite schedule_at;
       destruct (outputAudioContextRef s1) eqn:Hout;
         [destruct (decode_chunk b)|]|]| |];
    cbn; try destruct (interrupts message); cbn;
    repeat constructor; apply Hstops.
Qed.

(** X12 - messages cannot end or change a session: whatever a sequence of
    messages contains, and whichever of their handlers raise, the listening
    flag, the status line and every reference to the session, the
    microphone, the contexts and the processing nodes stay as they were, and
    the only things done to the browser are starts and stops of playback
    nodes. *)
Theorem messages_keep_the_session (ms : list (Q * LiveServerMessage)) (s : State) :
  same_session s (run (messages ms) s).1 /\
  Forall (fun e => playback_effect e = true) (run (messages ms) s).2.
Proof.
  revert s. induction ms as [|[now m] ms IH]; intros s.
  - split; [apply same_session_refl|constructor].
  - unfold messages. cbn [map]. fold (messages ms). rewrite run_cons.
    cbn [fst snd handle]. destruct (IH (after (onmessage now m s))) as [H1 H2].
    split.
    + eapply same_session_trans; [apply onmessage_same_session|exact H1].
    + apply Forall_app. split; [apply onmessage_playback|exact H2].
Qed.

(** *** Starting a session *)
Lemma startConversation_at (s : State) :
  startConversation s =
    if isListening s then ok s []
    else ok (set_transcripts [] (set_status "Connecting..." (set_isListening true s)))
            [RequestUserMedia].
Proof.
  unfold startConversation. rewrite get_bind. destruct (isListening s); reflexivity.
Qed.

(** The state after the microphone was granted: four new objects. *)
Definition granted (s : State) : State :=
  set_sessionPromiseRef (Some (S (S (S (fresh s)))))
    (set_outputAudioContextRef (Some (S (S (fresh s))))
       (set_inputAudioContextRef (Some (S (fresh s)))
          (set_mediaStreamRef (Some (fresh s))
             (set_fresh (S (S (S (S (fresh s))))) s)))).

Lemma settled_granted_at (s : State) :
  startConversation_settled true s
  = ok (granted s)
       [MicrophoneAcquired (fresh s); NewAudioContext (S (fresh s)) 16000;
        NewAudioContext (S (S (fresh s))) 24000; Connect (S (S (S (fresh s))))].
Proof. reflexivity. Qed.

Lemma settled_denied_at (s : State) :
  startConversation_settled false s
  = ok (set_isListening false (set_status "Failed to get microphone access." s)) [].
Proof. reflexivity. Qed.

Lemma onended_at (node : nat) (s : State) :
  onended node s = ok (set_sources (set_delete node (sources s)) s) [].
Proof. reflexivity. Qed.

Lemma run_app (evs evs' : list Event) (s : State) :
  run (evs ++ evs') s
  = ((run evs' (run evs s).1).1, (run evs s).2 ++ (run evs' (run evs s).1).2).
Proof.
  revert s. induction evs as [|ev evs IH]; intros s.
  - cbn [app run fst snd]. now rewrite <- surjective_pairing.
  - cbn [app]. rewrite !run_cons, IH. cbn [fst snd]. now rewrite app_assoc.
Qed.

(** X13 - a refused microphone: when the request of a start is refused,
    nothing was acquired and nothing is held that was not held before; the
    component is idle again with the failure in its status line, and the
    transcript log of the conversation before has been cleared all the
    same. *)
Theorem refused_microphone (s : State) :
  isListening s = false ->
  let r := run [Start; UserMediaSettled false] s in
  r.2 = [RequestUserMedia] /\
  isListening r.1 = false /\
  status r.1 = "Failed to get microphone access."%string /\
  transcripts r.1 = [] /\
  sessionPromiseRef r.1 = sessionPromiseRef s /\
  mediaStreamRef r.1 = mediaStreamRef s /\
  inputAudioContextRef r.1 = inputAudioContextRef s /\
  outputAudioContextRef r.1 = outputAudioContextRef s /\
  sources r.1 = sources s.
Proof.
  intros Hidle. cbv zeta. rewrite !run_cons. cbn [run handle fst snd].
  rewrite startConversation_at, Hidle, settled_denied_at.
  repeat split.
Qed.

Lemma refused_microphone_witness :
  let s := (run [Close] playing).1 in
  isListening s = false /\
  (run [Start; UserMediaSettled false] s).2 = [RequestUserMedia] /\
  transcripts (run [Start; UserMediaSettled false] s).1 = [] /\
  mediaStreamRef (run [Start; UserMediaSettled false] s).1 = Some 0%nat.
Proof.
  cbv zeta.
  destruct (refused_microphone (run [Close] playing).1 eq_refl)
    as (H1 & _ & _ & H4 & _ & H6 & _).
  split; [reflexivity|]. split; [exact H1|]. split; [exact H4|exact H6].
Defined.

(** *** What a stop leaves behind *)

(** No context was closed behind the component, and without an output
    context no node is active. *)
Definition tidy (s : State) : Prop :=
  closed s = ∅ /\ (outputAudioContextRef s = None -> sources s = []).

Lemma open_context_tidy (r : option nat) (s : State) :
  closed s = ∅ -> open_context r s = r.
Proof.
  intros H. unfold open_context. destruct r as [ctx|]; [|reflexivity].
  rewrite H. case_decide as Hin; [|reflexivity]. now apply not_elem_of_empty in Hin.
Qed.

Lemma stopped_tidy (s : State) :
  tidy s ->
  tidy (stopped s) /\
  sessionPromiseRef (stopped s) = None /\ mediaStreamRef (stopped s) = None /\
  inputAudioContextRef (stopped s) = None /\ outputAudioContextRef (stopped s) = None /\
  scriptProcessorRef (stopped s) = None /\ mediaStreamSourceRef (stopped s) = None /\
  sources (stopped s) = [] /\ isListening (stopped s) = false.
Proof.
  intros [Hclosed Hsources]. unfold tidy, stopped.
  cbn [closed outputAudioContextRef inputAudioContextRef sources sessionPromiseRef
       mediaStreamRef scriptProcessorRef mediaStreamSourceRef isListening].
  rewrite !(open_context_tidy _ s Hclosed).
  destruct (inputAudioContextRef s), (outputAudioContextRef s);
    repeat split; auto.
Qed.

Lemma onmessage_tidy (now : Q) (message : LiveServerMessage) (s : State) :
  tidy s -> tidy (after (onmessage now message s)).
Proof.
  intros [Hclosed Hsources]. unfold tidy.
  destruct (after_transcripts_frame message s)
    as (_ & _ & _ & _ & _ & Hout & _ & _ & _ & Hsrc & Hcl & _).
  rewrite onmessage_at, on_audio_at. cbv zeta.
  rewrite <- Hout in Hsources. rewrite <- Hsrc in Hsources. rewrite <- Hcl in Hclosed.
  revert Hclosed Hsources. generalize (after_transcripts message s).
  intros s1 Hclosed Hsources.
  destruct (base64Audio_of message) as [[b|]|e]; cbn;
    [destruct (truthy b); [rewrite schedule_at;
       destruct (outputAudioContextRef s1) eqn:Hout1;
         [destruct (decode_chunk b)|]|]| |];
    cbn; try destruct (interrupts message); cbn; rewrite ?Hout1;
    (split; [assumption|]); auto; try discriminate.
Qed.

Lemma handle_tidy (ev : Event) (s : State) : tidy s -> tidy (after (handle ev s)).
Proof.
  intros Hs. destruct ev as [|[]| | |inputData|now message|node|message|]; cbn [handle].
  - rewrite startConversation_at. destruct (isListening s); exact Hs.
  - rewrite settled_granted_at. destruct Hs as [Hclosed _].
    split; [exact Hclosed|discriminate].
  - exact Hs.
  - rewrite stopConversation_at. now apply stopped_tidy.
  - rewrite onopen_at. destruct (inputAudioContextRef s); exact Hs.
  - rewrite onaudioprocess_at. exact Hs.
  - now apply onmessage_tidy.
  - rewrite onended_at. destruct Hs as [Hclosed Hsources]. split; [exact Hclosed|].
    cbn. intros Hout. now rewrite (Hsources Hout).
  - rewrite onerror_at. now apply stopped_tidy.
  - exact Hs.
Qed.

Lemma run_tidy (evs : list Event) (s : State) : tidy s -> tidy (run evs s).1.
Proof.
  revert s. induction evs as [|ev evs IH]; intros s Hs; [exact Hs|].
  rewrite run_cons. cbn [fst]. now apply IH, handle_tidy.
Qed.

Definition nothing_held (s : State) : Prop :=
  sessionPromiseRef s = None /\ mediaStreamRef s = None /\
  inputAudioContextRef s = None /\ outputAudioContextRef s = None /\
  scriptProcessorRef s = None /\ mediaStreamSourceRef s = None /\
  sources s = [] /\ isListening s = false.

(** X14 - nothing is left after a stop: whatever has happened to the
    component since it was mounted, in whatever order (starts, refused or
    granted requests, opens, frames, messages that return or raise, ended
    nodes, closes, errors, earlier stops), once [stopConversation] has run,
    called by the button or the unmount or through [onerror], the component
    holds no session, no stream, no context and no node, the active set is
    empty and the component is idle.  (The contexts are closed by the
    component only.) *)
Theorem nothing_left_after_a_stop (evs : list Event) (message : string) :
  nothing_held (run (evs ++ [Stop]) initial).1 /\
  nothing_held (run (evs ++ [Error message]) initial).1.
Proof.
  assert (Htidy : tidy (run evs initial).1)
    by (apply run_tidy; split; [reflexivity|reflexivity]).
  rewrite !run_app. cbn [fst]. rewrite !run_cons. cbn [run fst handle].
  rewrite onerror_at, stopConversation_at. cbn [after ok].
  split; apply (stopped_tidy _ Htidy).
Qed.

(** *** One session from start to stop *)

(** What happens while a session is open: clicks on start, frames of the
    microphone, messages, ended nodes. *)
Definition traffic (ev : Event) : bool :=
  match ev with
  | Start | AudioProcess _ | Message _ _ | Ended _ => true
  | _ => false
  end.

(** The effects that give a session, a stream, a node or a context back. *)
Definition releases (e : Effect) : bool :=
  match e with
  | SessionClose _ | TracksStop _ | NodeDisconnect _ | ContextClose _ => true
  | _ => false
  end.

Lemma filter_none {A} (f : A -> bool) (l : list A) :
  Forall (fun x => f x = false) l -> List.filter f l = [].
Proof.
  induction 1 as [|x l Hx _ IH]; [reflexivity|]. cbn. now rewrite Hx.
Qed.

Lemma playback_not_release (l : list Effect) :
  Forall (fun e => playback_effect e = true) l -> Forall (fun e => releases e = false) l.
Proof.
  apply List.Forall_impl. intros e He. now destruct e.
Qed.

Lemma handle_traffic (ev : Event) (s : State) :
  traffic ev = true -> isListening s = true ->
  same_session s (after (handle ev s)) /\
  Forall (fun e => releases e = false) (log (handle ev s)).
Proof.
  intros Hev Hs. destruct ev as [| | | |inputData|now message|node| |];
    try discriminate Hev; cbn [handle].
  - rewrite startConversation_at, Hs. split; [apply same_session_refl|constructor].
  - rewrite onaudioprocess_at. split; [apply same_session_refl|].
    destruct (sessionPromiseRef s); repeat constructor.
  - split; [apply onmessage_same_session|].
    apply playback_not_release, onmessage_playback.
  - rewrite onended_at. split; [repeat split|constructor].
Qed.

Lemma run_traffic (evs : list Event) (s : State) :
  Forall (fun ev => traffic ev = true) evs -> isListening s = true ->
  same_session s (run evs s).1 /\
  Forall (fun e => releases e = false) (run evs s).2.
Proof.
  intros Hevs. revert s. induction Hevs as [|ev evs Hev _ IH]; intros s Hs.
  - split; [apply same_session_refl|constructor].
  - rewrite run_cons. cbn [fst snd].
    destruct (handle_traffic ev s Hev Hs) as [H1 H2].
    assert (Hs' : isListening (after (handle ev s)) = true)
      by (destruct H1 as (-> & _); exact Hs).
    destruct (IH _ Hs') as [I1 I2]. split.
    + eapply same_session_trans; eassumption.
    + apply Forall_app. now split.
Qed.

(** X15 - a session from start to stop: the component is idle; a start is
    granted the microphone, the connection opens, and any traffic follows
    (frames, messages that return or raise, ended nodes, further clicks on
    start).  Over the whole of it, what is acquired is acquired once, by
    this start, and what is given back is exactly that, each once: the
    session, the stream, the two processing nodes and the two contexts;
    nothing is held after the stop.  (A context closed from outside the
    component is one that exists already.) *)
Theorem session_is_released (s : State) (mid : list Event) :
  isListening s = false ->
  (forall ctx, ctx ∈ closed s -> ctx < fresh s) ->
  Forall (fun ev => traffic ev = true) mid ->
  let stream := fresh s in
  let r := run ([Start; UserMediaSettled true; Open] ++ mid ++ [Stop]) s in
  List.filter acquires r.2
  = [RequestUserMedia; MicrophoneAcquired stream; NewAudioContext (1 + stream) 16000;
     NewAudioContext (2 + stream) 24000; Connect (3 + stream)] /\
  List.filter releases r.2
  = [SessionClose (3 + stream); TracksStop stream;
     NodeDisconnect (5 + stream); NodeDisconnect (4 + stream);
     ContextClose (1 + stream); ContextClose (2 + stream)] /\
  nothing_held r.1.
Proof.
  intros Hidle Hclosed Hmid. cbv zeta.
  rewrite run_app. rewrite !run_cons. cbn [run fst snd handle].
  rewrite startConversation_at, Hidle. cbn [after log ok].
  rewrite settled_granted_at. cbn [after log ok].
  rewrite onopen_at. cbn [inputAudioContextRef granted set_sessionPromiseRef
    set_outputAudioContextRef set_inputAudioContextRef after log ok].
  set (s3 := set_scriptProcessorRef _ _).
  assert (H3 : isListening s3 = true) by reflexivity.
  assert (Hrefs : sessionPromiseRef s3 = Some (3 + fresh s)%nat /\
                  mediaStreamRef s3 = Some (fresh s) /\
                  inputAudioContextRef s3 = Some (1 + fresh s)%nat /\
                  outputAudioContextRef s3 = Some (2 + fresh s)%nat /\
                  scriptProcessorRef s3 = Some (5 + fresh s)%nat /\
                  mediaStreamSourceRef s3 = Some (4 + fresh s)%nat /\
                  closed s3 = closed s) by (repeat split).
  cbn [fresh set_status set_fresh set_mediaStreamRef set_transcripts set_isListening].
  clearbody s3.
  rewrite run_app, run_cons. cbn [run fst snd handle].
  destruct (run_traffic mid s3 Hmid H3) as [Hsame Hlog].
  assert (Hacq : Forall (fun e => acquires e = false) (run mid s3).2).
  { clear -Hmid H3. revert s3 H3.
    induction Hmid as [|ev evs Hev _ IH]; intros s' Hs'; [constructor|].
    rewrite run_cons. cbn [snd].
    assert (Hcalm : calm ev = true) by (now destruct ev).
    destruct (handle_calm ev s' Hcalm Hs') as (H1 & _ & _ & H4).
    apply Forall_app. split; [exact H4|now apply IH]. }
  rewrite stopConversation_at. cbn [after log ok]. rewrite app_nil_r.
  destruct (run mid s3) as [s4 l4]. cbn [fst snd] in *.
  destruct Hsame as (_ & _ & Hsession & Hstream & Hin & Hout & Hsp & Hmss & Hcl).
  destruct Hrefs as (R1 & R2 & R3 & R4 & R5 & R6 & R7).
  rewrite R1 in Hsession. rewrite R2 in Hstream. rewrite R3 in Hin.
  rewrite R4 in Hout. rewrite R5 in Hsp. rewrite R6 in Hmss. rewrite R7 in Hcl.
  assert (Hopen : forall k, open_context (Some (S k + fresh s)%nat) s4
                            = Some (S k + fresh s)%nat).
  { intros k. unfold open_context. rewrite Hcl. case_decide as Hc; [|reflexivity].
    apply Hclosed in Hc. lia. }
  assert (Hstops : forall f, (forall n, f (SourceStop n) = false) ->
                             List.filter f (map SourceStop (sources s4)) = []).
  { intros f Hf. induction (sources s4) as [|n l IH]; [reflexivity|].
    cbn [map List.filter]. now rewrite Hf. }
  assert (Hreleased : released s4
            = [SessionClose (3 + fresh s); TracksStop (fresh s);
               NodeDisconnect (5 + fresh s); NodeDisconnect (4 + fresh s);
               ContextClose (1 + fresh s)]
              ++ map SourceStop (sources s4) ++ [ContextClose (2 + fresh s)]).
  { unfold released. rewrite Hsession, Hstream, Hin, Hout, Hsp, Hmss.
    rewrite (Hopen 0%nat), (Hopen 1%nat). reflexivity. }
  split; [|split].
  - rewrite Hreleased. cbn [app List.filter acquires].
    rewrite List.filter_app, (filter_none _ _ Hacq). cbn [app List.filter acquires].
    rewrite !List.filter_app, Hstops by reflexivity. reflexivity.
  - rewrite Hreleased. cbn [app List.filter releases].
    rewrite List.filter_app, (filter_none _ _ Hlog). cbn [app List.filter releases].
    rewrite !List.filter_app, Hstops by reflexivity. reflexivity.
  - unfold nothing_held, stopped.
    cbn [sessionPromiseRef mediaStreamRef inputAudioContextRef outputAudioContextRef
         scriptProcessorRef mediaStreamSourceRef sources isListening].
    rewrite Hin, Hout, (Hopen 0%nat), (Hopen 1%nat). repeat split.
Qed.

Lemma session_is_released_witness :
  let mid := [Message 1 (audio_message "AAABAAIA"); AudioProcess [1 # 2]%Q; Start;
              Message 1 (audio_message "AA=="); Ended 6;
              Message 2 (audio_message "AAABAAIA")] in
  (isListening initial = false /\
   (forall ctx, ctx ∈ closed initial -> ctx < fresh initial) /\
   Forall (fun ev => traffic ev = true) mid) /\
  List.filter releases
    (run ([Start; UserMediaSettled true; Open] ++ mid ++ [Stop]) initial).2
  = [SessionClose 3; TracksStop 0; NodeDisconnect 5; NodeDisconnect 4;
     ContextClose 1; ContextClose 2].
Proof.
  cbv zeta.
  assert (Hclosed : forall ctx, ctx ∈ closed initial -> ctx < fresh initial)
    by (intros ctx H; now apply not_elem_of_empty in H).
  assert (Hmid : Forall (fun ev => traffic ev = true)
            [Message 1 (audio_message "AAABAAIA"); AudioProcess [1 # 2]%Q; Start;
             Message 1 (audio_message "AA=="); Ended 6;
             Message 2 (audio_message "AAABAAIA")])
    by (repeat constructor).
  split; [split; [reflexivity|split; [exact Hclosed|exact Hmid]]|].
  exact (proj1 (proj2 (session_is_released initial _ eq_refl Hclosed Hmid))).
Defined.

(** *** A stop while the microphone request is pending *)

Lemma elem_of_held {A} (g : A -> Effect) (r : option A) (e : Effect) :
  e ∈ option_list (g <$> r) -> exists x, r = Some x /\ e = g x.
Proof.
  destruct r as [x|]; cbn; intros H.
  - apply list_elem_of_singleton in H. eauto.
  - now apply elem_of_nil in H.
Qed.

Lemma open_context_Some (r : option nat) (s : State) (x : nat) :
  open_context r s = Some x -> r = Some x.
Proof.
  unfold open_context. destruct r; [|discriminate]. now case_decide.
Qed.

(** What [stopConversation] gives back is what the references hold. *)
Lemma released_from_refs (e : Effect) (s : State) :
  e ∈ released s ->
  match e with
  | SessionClose x => sessionPromiseRef s = Some x
  | TracksStop x => mediaStreamRef s = Some x
  | NodeDisconnect x => scriptProcessorRef s = Some x \/ mediaStreamSourceRef s = Some x
  | ContextClose x => inputAudioContextRef s = Some x \/ outputAudioContextRef s = Some x
  | SourceStop x => x ∈ sources s
  | _ => False
  end.
Proof.
  unfold released. rewrite !elem_of_app. intros [H|[H|[H|[H|[H|H]]]]].
  1-5: apply elem_of_held in H as (x & Hx & ->); auto.
  - left. now apply open_context_Some in Hx.
  - destruct (open_context (outputAudioContextRef s) s) as [ctx|] eqn:Hctx;
      [|now apply elem_of_nil in H].
    apply elem_of_app in H as [H|H].
    + apply list_elem_of_In, in_map_iff in H as (n & <- & Hn).
      now apply list_elem_of_In.
    + apply list_elem_of_singleton in H as ->. right.
      now apply open_context_Some in Hctx.
Qed.

(** X16 - a stop does not cancel a pending request: the component is
    idle and holds no stream and no session; a start asks for the
    microphone, and a stop comes before the request settles.  The stop finds
    nothing of the new start to give back.  When the request is then granted,
    the rest of [startConversation] runs all the same: the stream is
    acquired and the connection made while the component shows itself idle.
    A second start, granted in its turn, overwrites the references; the
    stop that follows gives back the second stream, and the stream and the
    session of the first are given back by none of these steps. *)
Theorem stop_does_not_cancel_the_request (s : State) :
  isListening s = false -> mediaStreamRef s = None -> sessionPromiseRef s = None ->
  let stream := fresh s in
  let r := run [Start; Stop; UserMediaSettled true] s in
  isListening r.1 = false /\
  mediaStreamRef r.1 = Some stream /\ sessionPromiseRef r.1 = Some (3 + stream)%nat /\
  MicrophoneAcquired stream ∈ r.2 /\ Connect (3 + stream)%nat ∈ r.2 /\
  let r' := run [Start; UserMediaSettled true; Stop] r.1 in
  mediaStreamRef (run [Start; UserMediaSettled true] r.1).1 = Some (4 + stream)%nat /\
  (TracksStop stream ∉ r.2 ++ r'.2) /\ (SessionClose (3 + stream)%nat ∉ r.2 ++ r'.2) /\
  TracksStop (4 + stream)%nat ∈ r'.2.
Proof.
  intros Hidle Hstream Hsession. cbv zeta.
  set (s1 := set_transcripts [] (set_status "Connecting..." (set_isListening true s))).
  set (s3 := granted (stopped s1)).
  set (s5 := granted (set_transcripts []
                        (set_status "Connecting..." (set_isListening true s3)))).
  assert (E : run [Start; Stop; UserMediaSettled true] s
              = (s3, RequestUserMedia
                       :: released s1
                       ++ [MicrophoneAcquired (fresh s);
                           NewAudioContext (1 + fresh s) 16000;
                           NewAudioContext (2 + fresh s) 24000;
                           Connect (3 + fresh s)])).
  { rewrite !run_cons. cbn [run fst snd handle].
    rewrite startConversation_at, Hidle. cbn [after log ok].
    rewrite stopConversation_at. cbn [after log ok].
    rewrite settled_granted_at. cbn [after log ok]. now rewrite app_nil_r. }
  assert (E5 : run [Start; UserMediaSettled true] s3
               = (s5, [RequestUserMedia; MicrophoneAcquired (4 + fresh s);
                       NewAudioContext (5 + fresh s) 16000;
                       NewAudioContext (6 + fresh s) 24000;
                       Connect (7 + fresh s)])).
  { rewrite !run_cons. cbn [run fst snd handle].
    rewrite startConversation_at.
    change (isListening s3) with false. cbn [after log ok].
    rewrite settled_granted_at. reflexivity. }
  assert (E' : run [Start; UserMediaSettled true; Stop] s3
               = (stopped s5,
                  [RequestUserMedia; MicrophoneAcquired (4 + fresh s);
                   NewAudioContext (5 + fresh s) 16000;
                   NewAudioContext (6 + fresh s) 24000;
                   Connect (7 + fresh s)] ++ released s5)).
  { change [Start; UserMediaSettled true; Stop]
      with ([Start; UserMediaSettled true] ++ [Stop]).
    rewrite run_app, E5, run_cons. cbn [run fst snd handle].
    rewrite stopConversation_at. cbn [after log ok]. now rewrite app_nil_r. }
  rewrite E. cbn [fst snd]. rewrite E', E5. cbn [fst snd].
  assert (Hnone : (TracksStop (fresh s) ∉ released s1) /\
                  (SessionClose (3 + fresh s) ∉ released s1)).
  { split; intros He; apply released_from_refs in He; cbn in He; congruence. }
  assert (Hlast : (TracksStop (fresh s) ∉ released s5) /\
                  (SessionClose (3 + fresh s) ∉ released s5)).
  { split; intros He; apply released_from_refs in He; cbn in He; injection He; lia. }
  assert (H5 : TracksStop (4 + fresh s) ∈ released s5).
  { unfold released.
    change (sessionPromiseRef s5) with (Some (7 + fresh s)%nat).
    change (mediaStreamRef s5) with (Some (4 + fresh s)%nat).
    cbn [fmap option_fmap option_map option_list app].
    apply elem_of_cons. right. apply elem_of_cons. now left. }
  split; [reflexivity|]. split; [reflexivity|]. split; [reflexivity|].
  split; [|split; [|split; [reflexivity|split; [|split]]]].
  - apply elem_of_cons. right. apply elem_of_app. right. apply elem_of_cons. now left.
  - apply elem_of_cons. right. apply elem_of_app. right.
    do 3 (apply elem_of_cons; right). apply elem_of_cons. now left.
  - intros H. repeat first [rewrite elem_of_cons in H | rewrite elem_of_app in H].
    decompose [or] H; clear H;
      try discriminate;
      try match goal with H : _ ∈ [] |- _ => now apply elem_of_nil in H end;
      try match goal with H : _ = _ |- _ => injection H; lia end.
    + match goal with H : _ ∈ released s1 |- _ => exact (proj1 Hnone H) end.
    + match goal with H : _ ∈ released s5 |- _ => exact (proj1 Hlast H) end.
  - intros H. repeat first [rewrite elem_of_cons in H | rewrite elem_of_app in H].
    decompose [or] H; clear H;
      try discriminate;
      try match goal with H : _ ∈ [] |- _ => now apply elem_of_nil in H end;
      try match goal with H : _ = _ |- _ => injection H; lia end.
    + match goal with H : _ ∈ released s1 |- _ => exact (proj2 Hnone H) end.
    + match goal with H : _ ∈ released s5 |- _ => exact (proj2 Hlast H) end.
  - apply elem_of_app. right. exact H5.
Qed.

Lemma stop_does_not_cancel_the_request_witness :
  (isListening initial = false /\ mediaStreamRef initial = None /\
   sessionPromiseRef initial = None) /\
  let r := run [Start; Stop; UserMediaSettled true] initial in
  isListening r.1 = false /\ mediaStreamRef r.1 = Some 0%nat /\
  (TracksStop 0 ∉ r.2 ++ (run [Start; UserMediaSettled true; Stop] r.1).2).
Proof.
  split; [repeat split|]. cbv zeta.
  destruct (stop_does_not_cancel_the_request initial eq_refl eq_refl eq_refl)
    as (H1 & H2 & _ & _ & _ & _ & H7 & _).
  split; [exact H1|]. split; [exact H2|exact H7].
Defined.

(** *** The transcript log *)

(** An entry as the display expects it: a speaker and a text that is not
    empty. *)
Definition well_formed_entry (e : JSObject) : Prop :=
  exists sp t, e = entry sp t /\ (sp = "user" \/ sp = "model")%string /\ t <> ""%string.

(** The messages that complete a turn. *)
Definition completes (ev : Event) : bool :=
  match ev with
  | Message _ message => from_option turnComplete false (serverContent message)
  | _ => false
  end.

Definition clears_log (ev : Event) : bool :=
  match ev with
  | Start => true
  | _ => false
  end.

Lemma turn_entries_well_formed (fullInput fullOutput : string) :
  Forall well_formed_entry (turn_entries fullInput fullOutput) /\
  length (turn_entries fullInput fullOutput) <= 2.
Proof.
  assert (Htruthy : forall t, truthy t = true -> t <> ""%string).
  { intros t Ht ->. discriminate Ht. }
  unfold turn_entries.
  destruct (truthy fullInput) eqn:Hin, (truthy fullOutput) eqn:Hout;
    (split; [|cbn; lia]);
    repeat (apply List.Forall_cons; [eexists _, _; split; [reflexivity|]; auto|]);
    apply List.Forall_nil.
Qed.

Lemma onmessage_transcripts (now : Q) (message : LiveServerMessage) (s : State) :
  transcripts (after (onmessage now message s))
  = transcripts (after_transcripts message s).
Proof.
  rewrite onmessage_at, on_audio_at. cbv zeta.
  generalize (after_transcripts message s). intros s1.
  destruct (base64Audio_of message) as [[b|]|e]; cbn;
    [destruct (truthy b); [rewrite schedule_at;
       destruct (outputAudioContextRef s1) eqn:Hout;
         [destruct (decode_chunk b)|]|]| |];
    cbn; try destruct (interrupts message); reflexivity.
Qed.

Lemma handle_transcripts (ev : Event) (s : State) :
  clears_log ev = false ->
  exists added,
    transcripts (after (handle ev s)) = transcripts s ++ added /\
    Forall well_formed_entry added /\
    length added <= 2 * once (completes ev).
Proof.
  intros Hev.
  assert (Hsame : forall s', transcripts s' = transcripts s ->
            exists added, transcripts s' = transcripts s ++ added /\
                          Forall well_formed_entry added /\
                          length added <= 2 * once (completes ev)).
  { intros s' ->. exists []. rewrite app_nil_r.
    split; [reflexivity|]. split; [constructor|cbn; lia]. }
  destruct ev as [|[]| | |inputData|now message|node|message|];
    try discriminate Hev; cbn [handle]; try (apply Hsame; reflexivity).
  - rewrite stopConversation_at. now apply Hsame.
  - rewrite onopen_at. destruct (inputAudioContextRef s); now apply Hsame.
  - rewrite onaudioprocess_at. now apply Hsame.
  - rewrite onmessage_transcripts. unfold after_transcripts, completes. cbv zeta.
    destruct (from_option turnComplete false (serverContent message)).
    + destruct (serverContent message ≫= outputTranscription),
               (serverContent message ≫= inputTranscription);
        (eexists; split; [reflexivity|apply turn_entries_well_formed]).
    + exists []. rewrite app_nil_r. split; [|split; [constructor|cbn; lia]].
      destruct (serverContent message ≫= outputTranscription),
               (serverContent message ≫= inputTranscription); reflexivity.
  - rewrite onerror_at. now apply Hsame.
Qed.

(** X17 - the transcript log only grows: over any sequence of events
    without a new start (messages that return or raise, frames, stops,
    errors, closes), the log keeps every entry it had, in place; the entries
    added all name the user or the model and carry a text that is not empty;
    and at most two are added for each message that completes a turn, so
    nothing of a turn is shown before the turn completes. *)
Theorem transcript_log_only_grows (evs : list Event) (s : State) :
  Forall (fun ev => clears_log ev = false) evs ->
  exists added,
    transcripts (run evs s).1 = transcripts s ++ added /\
    Forall well_formed_entry added /\
    length added <= 2 * length (List.filter completes evs).
Proof.
  intros Hevs. revert s. induction Hevs as [|ev evs Hev _ IH]; intros s.
  - exists []. rewrite app_nil_r. split; [reflexivity|]. split; [constructor|cbn; lia].
  - rewrite run_cons. cbn [fst].
    destruct (handle_transcripts ev s Hev) as (a1 & E1 & W1 & L1).
    destruct (IH (after (handle ev s))) as (a2 & E2 & W2 & L2).
    exists (a1 ++ a2). rewrite E2, E1, app_assoc. split; [reflexivity|].
    split; [apply Forall_app; now split|].
    rewrite length_app. cbn [List.filter].
    destruct (completes ev); cbn [once length] in *; lia.
Qed.

Lemma transcript_log_only_grows_witness :
  let evs := fragments [(0%Q, User, "a"%string); (0%Q, Model, "c"%string)]
             ++ [Message 0 turn_complete; Message 1 (audio_message "AA=="); Stop;
                 Message 2 turn_complete] in
  Forall (fun ev => clears_log ev = false) evs /\
  exists added,
    transcripts (run evs playing).1 = transcripts playing ++ added /\
    Forall well_formed_entry added /\
    length added <= 2 * length (List.filter completes evs).
Proof.
  cbv zeta.
  assert (H : Forall (fun ev => clears_log ev = false)
            (fragments [(0%Q, User, "a"%string); (0%Q, Model, "c"%string)]
             ++ [Message 0 turn_complete; Message 1 (audio_message "AA=="); Stop;
                 Message 2 turn_complete]))
    by (repeat constructor).
  split; [exact H|]. exact (transcript_log_only_grows _ playing H).
Defined.

(** X18 - an unfinished turn is carried into the next session: what was
    heard of a turn that did not complete stays in the accumulators over the
    stop; the next start clears the log but not the accumulators, so the
    first turn that completes in the new session begins with the text of the
    old one. *)
Theorem unfinished_turn_carries_over (frs : list (Q * Speaker * string)) (now : Q)
    (s : State) :
  let r := run (fragments frs
                ++ [Stop; Start; UserMediaSettled true; Open; Message now turn_complete])
             s in
  transcripts r.1
  = turn_entries (currentInputTranscription s ++ spoken User frs)
                 (currentOutputTranscription s ++ spoken Model frs).
Proof.
  cbv zeta. rewrite run_fragments, !run_cons. cbn [run fst snd handle].
  rewrite stopConversation_at. cbn [after ok].
  rewrite startConversation_at. cbn [isListening stopped after ok].
  rewrite settled_granted_at. cbn [after ok].
  rewrite onopen_at. cbn [inputAudioContextRef granted set_sessionPromiseRef
    set_outputAudioContextRef set_inputAudioContextRef after ok].
  rewrite onmessage_turn_complete. reflexivity.
Qed.

(** *** Nodes that have ended *)

(** A node that exists and is not in the active set. *)
Definition retired (node : nat) (s : State) : Prop :=
  (node ∉ sources s) /\ node < fresh s.

Lemma not_in_stops (node : nat) (l : list nat) :
  node ∉ l -> SourceStop node ∉ map SourceStop l.
Proof. intros H Hin. now apply elem_of_stops in Hin. Qed.

Lemma onmessage_retired (now : Q) (message : LiveServerMessage) (node : nat) (s : State) :
  retired node s ->
  retired node (after (onmessage now message s)) /\
  SourceStop node ∉ log (onmessage now message s).
Proof.
  intros [Hout Hlt]. unfold retired.
  destruct (after_transcripts_frame message s)
    as (_ & _ & _ & _ & _ & _ & _ & _ & _ & Hsrc & _ & Hfresh).
  rewrite onmessage_at, on_audio_at. cbv zeta.
  rewrite <- Hsrc in Hout. rewrite <- Hfresh in Hlt. clear Hsrc Hfresh.
  revert Hout Hlt. generalize (after_transcripts message s). intros s1 Hout Hlt.
  assert (Hnew : node ∉ set_add (fresh s1) (sources s1)).
  { rewrite elem_of_set_add. intros [->|H]; [lia|contradiction]. }
  pose proof (not_in_stops node _ Hout) as Hstops.
  pose proof (not_in_stops node _ Hnew) as Hstops'.
  destruct (base64Audio_of message) as [[b|]|e]; cbn;
    [destruct (truthy b); [rewrite schedule_at;
       destruct (outputAudioContextRef s1) eqn:Hctx;
         [destruct (decode_chunk b)|]|]| |];
    cbn -[set_add]; try destruct (interrupts message); cbn -[set_add];
    (split; [split; [first [apply not_elem_of_nil|assumption]|lia]|]);
    intros H;
    repeat first [apply elem_of_cons in H as [H|H]; [discriminate H|]
                 |apply elem_of_app in H as [H|H]];
    first [now apply elem_of_nil in H|contradiction].
Qed.

Lemma handle_retired (ev : Event) (node : nat) (s : State) :
  retired node s ->
  retired node (after (handle ev s)) /\ SourceStop node ∉ log (handle ev s).
Proof.
  intros Hs. pose proof Hs as [Hout Hlt].
  assert (Hstopped : retired node (stopped s) /\ SourceStop node ∉ released s).
  { split.
    - unfold retired, stopped. cbn [sources fresh]. split; [|exact Hlt].
      destruct (open_context (outputAudioContextRef s) s);
        [apply not_elem_of_nil|exact Hout].
    - intros H. now apply released_from_refs in H. }
  destruct ev as [|[]| | |inputData|now message|node'|message|]; cbn [handle].
  - rewrite startConversation_at. destruct (isListening s); cbn [after log ok].
    + split; [exact Hs|apply not_elem_of_nil].
    + split; [exact Hs|]. intros H. apply list_elem_of_singleton in H. discriminate H.
  - rewrite settled_granted_at. cbn [after log ok]. split.
    + split; [exact Hout|cbn; lia].
    + intros H. repeat (apply elem_of_cons in H as [H|H]; [discriminate H|]).
      now apply elem_of_nil in H.
  - rewrite settled_denied_at. split; [exact Hs|apply not_elem_of_nil].
  - rewrite stopConversation_at. exact Hstopped.
  - rewrite onopen_at. destruct (inputAudioContextRef s); cbn [after log ok].
    + split; [split; [exact Hout|cbn; lia]|].
      intros H. repeat (apply elem_of_cons in H as [H|H]; [discriminate H|]).
      now apply elem_of_nil in H.
    + split; [exact Hs|apply not_elem_of_nil].
  - rewrite onaudioprocess_at. cbn [after log ok]. split; [exact Hs|].
    destruct (sessionPromiseRef s); [|apply not_elem_of_nil].
    intros H. apply list_elem_of_singleton in H. discriminate H.
  - now apply onmessage_retired.
  - rewrite onended_at. cbn [after log ok]. split; [|apply not_elem_of_nil].
    split; [|exact Hlt]. cbn. unfold set_delete.
    rewrite list_elem_of_filter. tauto.
  - rewrite onerror_at. exact Hstopped.
  - split; [exact Hs|apply not_elem_of_nil].
Qed.

(** X19 - an ended node is left alone: once the listener of a node has
    run (a node that exists: its handle was given out before), the node is
    out of the active set for good; whatever follows, in whatever order
    (chunks, interrupts, stops, errors, new sessions), [stop()] is never
    called on it. *)
Theorem ended_node_is_left_alone (node : nat) (evs : list Event) (s : State) :
  node < fresh s ->
  let r := run (Ended node :: evs) s in
  (node ∉ sources r.1) /\ (SourceStop node ∉ r.2).
Proof.
  intros Hlt. cbv zeta. rewrite run_cons. cbn [fst snd handle].
  rewrite onended_at. cbn [after log ok app].
  assert (Hs : retired node (set_sources (set_delete node (sources s)) s)).
  { split; [|exact Hlt]. cbn. unfold set_delete. rewrite list_elem_of_filter. tauto. }
  revert Hs. generalize (set_sources (set_delete node (sources s)) s). clear s Hlt.
  induction evs as [|ev evs IH]; intros s Hs.
  - split; [apply Hs|apply not_elem_of_nil].
  - rewrite run_cons. cbn [fst snd].
    destruct (handle_retired ev node s Hs) as [H1 H2].
    destruct (IH _ H1) as [I1 I2]. split; [exact I1|].
    rewrite elem_of_app. tauto.
Qed.

Lemma ended_node_is_left_alone_witness :
  let evs := [Message 2 (audio_message "AAABAAIA"); Message 3 interrupt_signal; Stop] in
  6 < fresh playing /\
  (6 ∉ sources (run (Ended 6 :: evs) playing).1) /\
  (SourceStop 6 ∉ (run (Ended 6 :: evs) playing).2) /\
  SourceStop 7 ∈ (run (Ended 6 :: evs) playing).2.
Proof.
  cbv zeta.
  assert (H : 6 < fresh playing) by (vm_compute; lia).
  split; [exact H|].
  destruct (ended_node_is_left_alone 6
              [Message 2 (audio_message "AAABAAIA"); Message 3 interrupt_signal; Stop]
              playing H) as [H1 H2].
  split; [exact H1|]. split; [exact H2|].
  apply elem_of_cons. right. apply elem_of_cons. now left.
Defined.

(** *** A connection that opens after the stop *)

(** X20 - an open after the stop: when the connection opens after
    [stopConversation] has closed the input context, [onopen] writes
    "Connected. You can start speaking now." into the status line and then
    raises [TypeError] on the missing context: no node is created, nothing
    is captured, and the component stays idle under a status that says
    connected. *)
Theorem open_after_the_stop (s : State) :
  (forall ctx, inputAudioContextRef s = Some ctx -> ctx ∉ closed s) ->
  let o := onopen (after (stopConversation s)) in
  value o = Throw TypeError /\ log o = [] /\
  status (after o) = "Connected. You can start speaking now."%string /\
  isListening (after o) = false /\
  scriptProcessorRef (after o) = None /\ mediaStreamSourceRef (after o) = None.
Proof.
  intros Hopen. cbv zeta. rewrite stopConversation_at. cbn [after ok].
  assert (Hin : inputAudioContextRef (stopped s) = None).
  { unfold stopped, open_context. cbn [inputAudioContextRef].
    destruct (inputAudioContextRef s) as [ctx|]; [|reflexivity].
    specialize (Hopen ctx eq_refl). now case_decide. }
  rewrite onopen_at, Hin. repeat split.
Qed.

Lemma open_after_the_stop_witness :
  let s := (run [Start; UserMediaSettled true] initial).1 in
  (forall ctx, inputAudioContextRef s = Some ctx -> ctx ∉ closed s) /\
  value (onopen (after (stopConversation s))) = Throw TypeError /\
  status (after (onopen (after (stopConversation s))))
  = "Connected. You can start speaking now."%string /\
  isListening (after (onopen (after (stopConversation s)))) = false.
Proof.
  cbv zeta.
  assert (H : forall ctx,
             inputAudioContextRef (run [Start; UserMediaSettled true] initial).1 = Some ctx ->
             ctx ∉ closed (run [Start; UserMediaSettled true] initial).1)
    by (intros ctx _; apply not_elem_of_empty).
  split; [exact H|].
  destruct (open_after_the_stop _ H) as (H1 & _ & H3 & H4 & _).
  split; [exact H1|]. split; [exact H3|exact H4].
Defined.

(** *** C8: stopping twice *)



















End LiveMore.

(** ** The chat assistant: the download link and the conversation *)
Module ChatBotFacts.
Import ChatBot.

(** *** Occurrences of a separator *)

(** [separator] occurs in [s]. *)
Fixpoint occurs (separator s : string) : bool :=
  match s with
  | EmptyString => String.prefix separator ""
  | String _ rest => String.prefix separator s || occurs separator rest
  end.

Lemma append_cons (c : ascii) (a b : string) : (String c a ++ b = String c (a ++ b))%string.
Proof. reflexivity. Qed.

Lemma append_nil (a : string) : ("" ++ a = a)%string.
Proof. reflexivity. Qed.

Lemma prefix_nil (s : string) : String.prefix "" s = true.
Proof. now destruct s. Qed.

Lemma prefix_spec (separator s : string) :
  String.prefix separator s = true <-> exists post, s = (separator ++ post)%string.
Proof.
  revert s. induction separator as [|a separator IH]; intros s.
  - rewrite prefix_nil. split; [intros _; now exists s|reflexivity].
  - destruct s as [|b s]; cbn [String.prefix];
      [split; [discriminate|intros [post H]; discriminate H]|].
    destruct (Ascii.ascii_dec a b) as [->|Hne].
    + rewrite IH. split; intros [post H]; exists post.
      * now rewrite append_cons, H.
      * rewrite append_cons in H. now injection H.
    + split; [discriminate|]. intros [post H]. rewrite append_cons in H.
      injection H as H _. congruence.
Qed.

Lemma occurs_spec (separator s : string) :
  occurs separator s = true <-> exists pre post, s = (pre ++ separator ++ post)%string.
Proof.
  induction s as [|c s IH]; cbn [occurs].
  - rewrite prefix_spec. split.
    + intros [post H]. now exists ""%string, post.
    + intros (pre & post & H). destruct pre; [now exists post|discriminate H].
  - rewrite orb_true_iff, IH, prefix_spec. split.
    + intros [[post H]|(pre & post & H)].
      * now exists ""%string, post.
      * exists (String c pre), post. now rewrite append_cons, H.
    + intros (pre & post & H). destruct pre as [|a pre].
      * left. now exists post.
      * right. rewrite append_cons in H. injection H as _ H. now exists pre, post.
Qed.

(** *** [split] *)
Lemma split_from_pieces (separator s : string) (skip : nat) :
  exists piece pieces, split_from separator s skip = piece :: pieces.
Proof.
  revert skip. induction s as [|c s IH]; intros skip; cbn [split_from]; [eauto|].
  destruct skip as [|k]; [|apply IH].
  destruct (String.prefix separator (String c s)); [eauto|].
  destruct (IH 0%nat) as (piece & pieces & ->). eauto.
Qed.

(** Without an occurrence the string is the only piece. *)
Lemma split_without (separator s : string) :
  occurs separator s = false -> split separator s = [s].
Proof.
  unfold split. induction s as [|c s IH]; cbn [occurs split_from]; [reflexivity|].
  intros H. apply orb_false_iff in H as [-> H]. now rewrite (IH H).
Qed.

(** With an occurrence there are at least two pieces. *)
Lemma split_with (a : ascii) (separator s : string) :
  occurs (String a separator) s = true ->
  exists piece part pieces, split (String a separator) s = piece :: part :: pieces.
Proof.
  unfold split. induction s as [|c s IH]; cbn [occurs split_from]; [discriminate|].
  destruct (String.prefix (String a separator) (String c s)); cbn [orb].
  - intros _.
    destruct (split_from_pieces (String a separator) s
                (String.length (String a separator) - 1)) as (part & pieces & ->).
    eauto.
  - intros H. destruct (IH H) as (piece & part & pieces & ->). eauto.
Qed.

Lemma prefix_char (a c : ascii) (s s' : string) :
  String.prefix (String a "") (String c s) = String.prefix (String a "") (String c s').
Proof.
  cbn [String.prefix]. destruct (Ascii.ascii_dec a c); [|reflexivity].
  now rewrite !prefix_nil.
Qed.

(** The pieces between slashes hold no slash. *)
Lemma split_slash_pieces (s : string) (skip : nat) :
  Forall (fun piece => occurs "/" piece = false) (split_from "/" s skip).
Proof.
  revert skip. induction s as [|c s IH]; intros skip; cbn [split_from].
  - now constructor.
  - destruct skip as [|k]; [|apply IH].
    destruct (String.prefix "/" (String c s)) eqn:Hc.
    + constructor; [reflexivity|apply IH].
    + specialize (IH 0%nat).
      destruct (split_from "/" s 0) as [|piece pieces].
      * constructor; [|constructor]. cbn [occurs].
        now rewrite (prefix_char _ _ _ s), Hc.
      * apply List.Forall_cons_iff in IH as [Hp Hps]. constructor; [|exact Hps].
        cbn [occurs]. now rewrite Hp, orb_false_r, (prefix_char _ _ _ s), Hc.
Qed.

(** X21 - the link of the download: when the address of the resume holds
    no "/d/", the link is the address itself; when it does, the link is the
    direct-download address of Google Drive followed by a file id, and the
    file id holds no slash. *)
Theorem download_link_cases (resumePdfUrl : string) :
  if occurs "/d/" resumePdfUrl
  then exists fileId,
         downloadUrl resumePdfUrl = (direct_download ++ fileId)%string /\
         occurs "/" fileId = false
  else downloadUrl resumePdfUrl = resumePdfUrl.
Proof.
  unfold downloadUrl. cbv zeta.
  destruct (occurs "/d/" resumePdfUrl) eqn:Hd.
  - destruct (split_with _ _ _ Hd) as (piece & part & pieces & ->).
    cbn [length Nat.ltb Nat.leb lookup list_lookup].
    pose proof (split_slash_pieces part 0) as Hpieces. unfold split.
    destruct (split_from_pieces "/" part 0) as (fileId & rest & E).
    rewrite E in *. cbn [lookup list_lookup].
    apply List.Forall_cons_iff in Hpieces as [Hid _]. now exists fileId.
  - now rewrite (split_without _ _ Hd).
Qed.

(** The first "/d/" of an address cuts it in two. *)
Lemma prefix_d (c : ascii) (pre post : string) :
  String.prefix "/d/" (String c (pre ++ "/d/" ++ post))
  = String.prefix "/d/" (String c (pre ++ "/d")).
Proof.
  destruct pre as [|a [|b pre]]; rewrite ?append_cons, ?append_nil; cbn [String.prefix];
    repeat match goal with
           | |- context [Ascii.ascii_dec ?x ?y] => destruct (Ascii.ascii_dec x y)
           end; rewrite ?prefix_nil; try reflexivity; try congruence.
Qed.

Lemma split_first (pre post : string) :
  occurs "/d/" (pre ++ "/d") = false ->
  split "/d/" (pre ++ "/d/" ++ post) = pre :: split "/d/" post.
Proof.
  unfold split. induction pre as [|c pre IH].
  - intros _. rewrite append_nil, !append_cons, append_nil.
    assert (H : String.prefix "/d/" (String "/" (String "d" (String "/" post))) = true)
      by (apply prefix_spec; now exists post).
    cbn [split_from]. rewrite H. reflexivity.
  - rewrite (append_cons c pre ("/d/" ++ post)), (append_cons c pre "/d").
    cbn [occurs split_from]. rewrite prefix_d.
    intros H. apply orb_false_iff in H as [-> H]. now rewrite (IH H).
Qed.

(** What follows a file id: nothing, or a slash and the rest. *)
Definition behind (rest : option string) : string :=
  match rest with
  | None => ""
  | Some r => String "/" r
  end.

Lemma not_slash (c : ascii) (s : string) :
  occurs "/" (String c s) = false -> c <> "/"%char /\ occurs "/" s = false.
Proof.
  cbn [occurs]. intros H. apply orb_false_iff in H as [Hc Hs]. split; [|exact Hs].
  intros ->. cbn [String.prefix] in Hc.
  destruct (Ascii.ascii_dec "/" "/"); [now rewrite prefix_nil in Hc|congruence].
Qed.

Lemma prefix_other (c : ascii) (separator s : string) :
  c <> "/"%char -> String.prefix (String "/" separator) (String c s) = false.
Proof.
  intros Hc. cbn [String.prefix]. destruct (Ascii.ascii_dec "/" c); congruence.
Qed.

Lemma split_d_head (fileId : string) (rest : option string) :
  occurs "/" fileId = false ->
  exists rest' pieces,
    split "/d/" (fileId ++ behind rest) = (fileId ++ behind rest')%string :: pieces.
Proof.
  unfold split. induction fileId as [|c fileId IH]; intros H.
  - rewrite append_nil. destruct rest as [r|]; [|now exists None, []].
    cbn [behind split_from].
    destruct (String.prefix "/d/" (String "/" r)).
    + exists None. eauto.
    + destruct (split_from "/d/" r 0) as [|piece pieces].
      * exists (Some ""%string). eauto.
      * exists (Some piece). eauto.
  - apply not_slash in H as [Hc H]. destruct (IH H) as (rest' & pieces & E).
    rewrite append_cons. cbn [split_from]. rewrite (prefix_other _ _ _ Hc), E.
    exists rest', pieces. reflexivity.
Qed.

Lemma split_slash_head (fileId : string) (rest : option string) :
  occurs "/" fileId = false ->
  exists pieces, split "/" (fileId ++ behind rest) = fileId :: pieces.
Proof.
  unfold split. induction fileId as [|c fileId IH]; intros H.
  - rewrite append_nil. destruct rest as [r|]; [|now exists []].
    cbn [behind split_from String.prefix]. 
    destruct (Ascii.ascii_dec "/" "/") as [_|Hne]; [|congruence].
    rewrite prefix_nil. eauto.
  - apply not_slash in H as [Hc H]. destruct (IH H) as (pieces & E).
    rewrite append_cons. cbn [split_from]. rewrite (prefix_other _ _ _ Hc), E.
    exists pieces. reflexivity.
Qed.

(** X22 - the link of a Drive address: for an address that reads
    [pre/d/fileId] or [pre/d/fileId/...], where "/d/" does not occur before
    and the file id holds no slash, the link is the direct-download address
    of that file id, whatever follows it. *)
Theorem download_link_of_drive_address (pre fileId : string) (rest : option string) :
  occurs "/d/" (pre ++ "/d") = false ->
  occurs "/" fileId = false ->
  downloadUrl (pre ++ "/d/" ++ fileId ++ behind rest)
  = (direct_download ++ fileId)%string.
Proof.
  intros Hpre Hid. unfold downloadUrl. cbv zeta.
  rewrite (split_first _ _ Hpre).
  destruct (split_d_head fileId rest Hid) as (rest' & pieces & ->).
  cbn [length Nat.ltb Nat.leb lookup list_lookup].
  destruct (split_slash_head fileId rest' Hid) as (pieces' & ->).
  reflexivity.
Qed.

Lemma download_link_of_drive_address_witness :
  (occurs "/d/" ("https://drive.google.com/file" ++ "/d") = false /\
   occurs "/" "1AbC-dEf_9" = false) /\
  downloadUrl "https://drive.google.com/file/d/1AbC-dEf_9/preview"
  = "https://drive.google.com/uc?export=download&id=1AbC-dEf_9"%string.
Proof.
  split; [split; reflexivity|].
  exact (download_link_of_drive_address "https://drive.google.com/file" "1AbC-dEf_9"
           (Some "preview"%string) eq_refl eq_refl).
Defined.

(** *** The conversation *)

(** [turns] exchanges: a message of the user, then one of the model. *)
Fixpoint pairs (turns : nat) : list Role :=
  match turns with
  | O => []
  | S n => user :: model :: pairs n
  end.

Definition loading (s : ChatState) : nat := if isLoading s then 1 else 0.

(** The greeting, [turns] exchanges, and the message that waits for its
    reply while a request is out. *)
Definition shape (turns : nat) (s : ChatState) : Prop :=
  map role (messages s) = model :: pairs turns ++ (if isLoading s then [user] else []).

(** What a request carries: the same, ending with the new message. *)
Definition request_shape (request : Request) : Prop :=
  exists turns, map content_role (contents request) = model :: pairs turns ++ [user].

Lemma pairs_snoc (n : nat) : pairs n ++ [user; model] = pairs (S n).
Proof. induction n as [|n IH]; [reflexivity|]. cbn [pairs app]. now rewrite IH. Qed.

Lemma handle_shape (ev : ChatEvent) (s : ChatState) (n : nat) :
  shape n s ->
  match ev with Settled _ => isLoading s = true | _ => True end ->
  exists n',
    shape n' (chat_handle ev s).1 /\
    n' + loading (chat_handle ev s).1 = n + loading s + length (chat_handle ev s).2 /\
    Forall request_shape (chat_handle ev s).2.
Proof.
  unfold shape, loading. intros Hs Hev.
  destruct ev as [messageText|response|value|checked]; cbn [chat_handle fst snd].
  - unfold handleSend. cbv zeta.
    destruct (String.eqb (trim (default (input s) messageText)) ""); cbn [orb].
    { exists n. cbn [fst snd length]. split; [exact Hs|]. split; [lia|constructor]. }
    destruct (isLoading s) eqn:Hl.
    { exists n. cbn [fst snd length]. rewrite Hl.
      split; [exact Hs|]. split; [lia|constructor]. }
    exists n. cbn [fst snd length messages isLoading].
    rewrite app_nil_r in Hs. rewrite map_app, Hs. cbn [map role].
    split; [reflexivity|]. split; [lia|].
    constructor; [|constructor]. exists n.
    unfold getGroundedChatResponse. cbn [contents].
    rewrite map_app, map_map. cbn [map content_role].
    change (fun x => role x) with role. now rewrite Hs.
  - rewrite Hev in Hs. exists (S n). cbn [messages isLoading length handleSend_settled].
    rewrite Hev, app_nil_r, map_app, Hs. cbn [map]. split; [|split; [lia|constructor]].
    replace (role _) with model by (now destruct response).
    rewrite <- pairs_snoc. cbn [app]. now rewrite <- app_assoc.
  - exists n. cbn [messages isLoading length]. split; [exact Hs|]. split; [lia|constructor].
  - exists n. cbn [messages isLoading length]. split; [exact Hs|]. split; [lia|constructor].
Qed.

Lemma run_step (ev : ChatEvent) (rest : list ChatEvent) (s : ChatState) :
  chat_run (ev :: rest) s
  = ((chat_run rest (chat_handle ev s).1).1,
     (chat_handle ev s).2 ++ (chat_run rest (chat_handle ev s).1).2).
Proof.
  cbn [chat_run]. destruct (chat_handle ev s) as [s1 l1]. cbn [fst snd].
  now destruct (chat_run rest s1).
Qed.

Lemma run_shape (evs : list ChatEvent) (s : ChatState) (n : nat) :
  timely (loading s) evs s = true -> shape n s ->
  exists n',
    shape n' (chat_run evs s).1 /\
    n' + loading (chat_run evs s).1 = n + loading s + length (chat_run evs s).2 /\
    Forall request_shape (chat_run evs s).2.
Proof.
  revert s n. induction evs as [|ev evs IH]; intros s n Ht Hs.
  - exists n. cbn [chat_run fst snd length]. split; [exact Hs|]. split; [lia|constructor].
  - rewrite run_step. cbn [fst snd]. cbn [timely] in Ht.
    assert (Hev : match ev with Settled _ => isLoading s = true | _ => True end).
    { destruct ev; try exact I. unfold loading in Ht.
      destruct (isLoading s); [reflexivity|].
      now destruct (chat_handle (Settled response) s). }
    destruct (handle_shape ev s n Hs Hev) as (n1 & H1 & L1 & R1).
    assert (Ht' : timely (loading (chat_handle ev s).1) evs (chat_handle ev s).1 = true).
    { destruct ev as [messageText|response|value|checked].
      - destruct (chat_handle (Send messageText) s) as [s1 l1] eqn:E. cbn [fst snd] in *.
        replace (loading s1) with (loading s + length l1); [exact Ht|].
        revert E. cbn [chat_handle]. unfold handleSend, loading. cbv zeta.
        destruct (String.eqb (trim (default (input s) messageText)) ""); cbn [orb].
        { intros [= <- <-]. cbn. lia. }
        destruct (isLoading s) eqn:Hl; intros [= <- <-]; cbn; rewrite ?Hl; lia.
      - cbn [chat_handle fst] in *. unfold loading in Ht. rewrite Hev in Ht. exact Ht.
      - cbn [chat_handle fst snd length] in *. rewrite Nat.add_0_r in Ht. exact Ht.
      - cbn [chat_handle fst snd length] in *. rewrite Nat.add_0_r in Ht. exact Ht. }
    destruct (IH _ n1 Ht' H1) as (n2 & H2 & L2 & R2).
    exists n2. split; [exact H2|]. rewrite length_app. split; [lia|].
    apply Forall_app. now split.
Qed.

(** X23 - the conversation alternates: in every history of the chat
    (typing, toggling the maps, sending by the button, the key or a prompt
    starter, replies and failures of the service), the messages shown are the
    greeting followed by exchanges of one message of the user and one of the
    model, and a last message of the user exactly while a reply is awaited;
    never are two requests out at once: the requests made are one for each
    exchange and one for the message that waits; each of them carries the
    greeting first, then the exchanges, then the new message; and the prompt
    starters are shown exactly until the first message is sent. *)
Theorem conversation_alternates (evs : list ChatEvent) :
  timely 0 evs chat_initial = true ->
  let r := chat_run evs chat_initial in
  exists turns,
    map role (messages r.1)
    = model :: pairs turns ++ (if isLoading r.1 then [user] else []) /\
    length r.2 = turns + (if isLoading r.1 then 1 else 0) /\
    Forall request_shape r.2 /\
    starters_shown r.1 = (turns =? 0)%nat && negb (isLoading r.1).
Proof.
  intros Ht. cbv zeta.
  destruct (run_shape evs chat_initial 0 Ht eq_refl) as (n & Hs & Hl & Hr).
  exists n. split; [exact Hs|]. split; [exact (eq_sym Hl)|]. split; [exact Hr|].
  unfold starters_shown. apply (f_equal (@length Role)) in Hs.
  rewrite length_map in Hs. rewrite Hs. cbn [length]. rewrite length_app.
  destruct (isLoading (chat_run evs chat_initial).1); [now rewrite !andb_false_r|].
  rewrite !andb_true_r. cbn [length]. destruct n; reflexivity.
Qed.

Lemma conversation_alternates_witness :
  let evs := [Send (Some "What are your top skills?"%string); Send (Some "again"%string);
              SetInput "and then"; Settled None; SetUseMaps true; Send None;
              Send (Some " "%string)] in
  timely 0 evs chat_initial = true /\
  exists turns,
    map role (messages (chat_run evs chat_initial).1)
    = model :: pairs turns ++ (if isLoading (chat_run evs chat_initial).1 then [user] else []) /\
    length (chat_run evs chat_initial).2
    = turns + (if isLoading (chat_run evs chat_initial).1 then 1 else 0) /\
    Forall request_shape (chat_run evs chat_initial).2 /\
    starters_shown (chat_run evs chat_initial).1
    = (turns =? 0)%nat && negb (isLoading (chat_run evs chat_initial).1).
Proof.
  cbv zeta. split; [reflexivity|].
  exact (conversation_alternates
           [Send (Some "What are your top skills?"%string); Send (Some "again"%string);
            SetInput "and then"; Settled None; SetUseMaps true; Send None;
            Send (Some " "%string)] eq_refl).
Defined.

(** X24 - the button and the request: [handleSend] called without a
    text does nothing exactly when the send button is disabled; otherwise the
    text typed becomes a message of the user, the field is emptied, and one
    request is made, which carries every message now shown, in order, the new
    one last and once, with the search tool and, when it is switched on, the
    maps tool. *)
Theorem send_sends_what_is_shown (s : ChatState) :
  handleSend None s =
    if send_disabled s then (s, [])
    else
      let s' := {| messages := messages s
                               ++ [ {| role := user; text := input s; sources := None |} ];
                   input := "";
                   isLoading := true;
                   useMaps := useMaps s |} in
      (s', [ {| contents :=
                  map (fun msg => {| content_role := role msg; parts := [text msg] |})
                      (messages s');
                tools := googleSearch :: (if useMaps s then [googleMaps] else []) |} ]).
Proof.
  unfold handleSend, send_disabled, getGroundedChatResponse. cbv zeta.
  cbn [default messages]. rewrite orb_comm.
  destruct (isLoading s || String.eqb (trim (input s)) ""); [reflexivity|].
  now rewrite map_app.
Qed.

End ChatBotFacts.
